(** * be-framework-ts: the PostgreSQL database core

    A shallow embedding of [database/postgresql/src/index.ts]: the
    [Placeholder] query-parameter builder, the [Pool] namespace
    ([queryHandler], [Pool.query], [isSuccess], [Transaction]), the DDL
    [Script] accumulator and the [Db] facade ([define], the Model
    operations, [sync]), and of the callers of these in
    [access-control/postgresql/src/index.ts], followed by the properties
    that are proved about them.

    Conventions of the embedding.
    - JavaScript numbers that the code uses as counters, counts and
      primary keys are integers; they are modelled by [Z]. The numbers
      the code prints into a statement (a [defaultValue], the precision of
      a type) are binary64 values, printed as [Number::toString] does.
    - A plain JavaScript object is the list of its own enumerable
      string-keyed properties in the order [Object.keys] enumerates them:
      array-index names first, in ascending numeric order, then the other
      names in the order of their creation. Reading a property that the
      object does not own finds the members of [Object.prototype].
    - [async]/[await] is sequential composition: one call of the API is
      followed from its start to its end, no other task interleaves.
    - Mutable objects that are shared between caller and callee
      ([Transaction] instances, [where] objects, the body of
      [updateByPk], the column objects of a definition) live in a store
      and are passed by address; the module-level [script] and
      [syncScripts] are fields of the world. An object of the store may
      have been frozen or made non-extensible by its owner: the code is
      strict, so an assignment such an object refuses throws a
      [TypeError]. Objects that only are read are passed by value.
    - The database driver ([pg]) is an environment: what [pool.connect()]
      and [query(...)] answer is a function of everything that happened
      before. Every driver call, every [release()] and every line of
      [console.log] is recorded, in order, in the history of the world.
    - [throw] and [try]/[catch] are the exception part of the monad [M];
      what is thrown is an error object. *)

From Stdlib Require Import ZArith Lia Ascii SpecFloat.
From stdpp Require Import base tactics option list list_numbers sets sorting strings pretty.

Set Warnings "-register-all".

Open Scope string_scope.
Open Scope list_scope.
Open Scope Z_scope.

(** ** JavaScript values and plain objects *)

Inductive value : Type :=
| VUndefined
| VNull
| VBool (b : bool)
| VNum (n : Z)
| VStr (s : string)
| VArr (items : list value)
| VObj (props : list (string * value))
| VNative.  (* a built-in function or object, e.g. a member of Object.prototype *)

(** Own enumerable properties, in enumeration order. *)
Definition jsobj (A : Type) : Type := list (string * A).
Definition obj : Type := jsobj value.

(** [v !== undefined] *)
Definition is_defined (v : value) : bool :=
  match v with
  | VUndefined => false
  | _ => true
  end.

(** [Object.keys(o)] and [Object.values(o)] *)
Definition Object_keys {A} (o : jsobj A) : list string := o.*1.
Definition Object_values {A} (o : jsobj A) : list A := o.*2.

(** [Array.prototype.join] on an array of strings *)
Definition join (delim : string) (parts : list string) : string :=
  String.concat delim parts.

(** ** Property lookup and assignment on plain objects *)

(** Property names that are array indices: the canonical decimal numerals
    of the integers from 0 to 2^32 - 2. [Object.keys] lists them first. *)
Definition digit_of (a : Ascii.ascii) : option N :=
  let n := Ascii.N_of_ascii a in
  if ((48 <=? n) && (n <=? 57))%N then Some (n - 48)%N else None.

Fixpoint parse_digits (s : string) (acc : N) : option N :=
  match s with
  | EmptyString => Some acc
  | String a s' =>
      match digit_of a with
      | Some d => parse_digits s' (10 * acc + d)%N
      | None => None
      end
  end.

Definition array_index (k : string) : option N :=
  match parse_digits k 0%N with
  | Some n =>
      if bool_decide (pretty n = k) && (n <? 4294967295)%N then Some n else None
  | None => None
  end.

Section Properties.
Context {A : Type}.

(** The own property [k] of [o], if there is one. *)
Fixpoint prop_own (o : jsobj A) (k : string) : option A :=
  match o with
  | [] => None
  | (k', v) :: o' => if String.eqb k' k then Some v else prop_own o' k
  end.

(** The names every plain object inherits from [Object.prototype]. *)
Definition Object_prototype_keys : list string :=
  [ "constructor"; "__defineGetter__"; "__defineSetter__"; "hasOwnProperty";
    "__lookupGetter__"; "__lookupSetter__"; "isPrototypeOf";
    "propertyIsEnumerable"; "toString"; "valueOf"; "__proto__";
    "toLocaleString" ].

(** What the expression [o[k]] finds: an own property, a member of
    [Object.prototype] (a function, or the prototype itself), or
    nothing, in which case it evaluates to [undefined]. *)
Inductive found : Type :=
| Own (a : A)
| Inherited
| Missing.

Definition prop_get (o : jsobj A) (k : string) : found :=
  match prop_own o k with
  | Some a => Own a
  | None => if bool_decide (k ∈ Object_prototype_keys) then Inherited else Missing
  end.

(** Overwriting an existing own property keeps its place. *)
Fixpoint prop_replace (o : jsobj A) (k : string) (v : A) : jsobj A :=
  match o with
  | [] => []
  | (k', v') :: o' =>
      if String.eqb k' k then (k', v) :: o' else (k', v') :: prop_replace o' k v
  end.

(** A new array-index key goes among the index keys, in ascending
    numeric order; these come before all other keys. *)
Fixpoint prop_insert_index (o : jsobj A) (n : N) (k : string) (v : A)
  : jsobj A :=
  match o with
  | [] => [(k, v)]
  | (k', v') :: o' =>
      match array_index k' with
      | Some n' =>
          if (n <? n')%N then (k, v) :: o
          else (k', v') :: prop_insert_index o' n k v
      | None => (k, v) :: o
      end
  end.

(** [o[k] = v] creating or overwriting an own data property. *)
Definition prop_set (o : jsobj A) (k : string) (v : A) : jsobj A :=
  match prop_own o k with
  | Some _ => prop_replace o k v
  | None =>
      match array_index k with
      | Some n => prop_insert_index o n k v
      | None => o ++ [(k, v)]
      end
  end.

End Properties.

Arguments found : clear implicits.

(** The value of the expression [o[k]]. *)
Definition obj_get (o : obj) (k : string) : value :=
  match prop_get o k with
  | Own v => v
  | Inherited => VNative
  | Missing => VUndefined
  end.

(** ** Thrown values *)

(** An error object: [name], [message] and the two optional properties
    the query handler looks at. *)
Record js_error : Type := mk_error {
  e_name : string;
  e_message : string;
  e_code : option string;
  e_sqlMessage : option string;
}.

(** [new Error(msg)] and the [TypeError] of the runtime *)
Definition Error (msg : string) : js_error :=
  {| e_name := "Error"; e_message := msg; e_code := None; e_sqlMessage := None |}.
Definition TypeError (msg : string) : js_error :=
  {| e_name := "TypeError"; e_message := msg; e_code := None;
     e_sqlMessage := None |}.

(** ** Objects that refuse an assignment *)

(** What [Object.preventExtensions], [Object.seal] and [Object.freeze]
    leave of an object, as an assignment sees it: an object that is not
    extensible takes no new property; a frozen object, besides, takes no
    new value for a property it has. *)
Inductive integrity : Type :=
| Extensible
| NonExtensible
| Frozen.

(** An object of the store: what it holds, and its integrity level. *)
Record cell (A : Type) : Type := mk_cell {
  content : A;
  level : integrity;
}.
Arguments mk_cell {A} content level.
Arguments content {A} c.
Arguments level {A} c.

(** The object an object literal makes. *)
Definition new_object {A} (a : A) : cell A := mk_cell a Extensible.

(** What an assignment throws in strict code when the object refuses
    it. *)
Definition read_only (k : string) : js_error :=
  TypeError ("Cannot assign to read only property '" +:+ k +:+
             "' of object '#<Object>'").
Definition not_extensible (k : string) : js_error :=
  TypeError ("Cannot add property " +:+ k +:+ ", object is not extensible").

(** [o[k] = v] in strict code, where [v] is a number or a string. An own
    property takes the value unless the object is frozen. A name the
    object does not own becomes an own property, at the place
    [Object.keys] gives it, if the object is extensible; but for
    [__proto__] the assignment goes to the accessor of [Object.prototype],
    which ignores a value that is neither an object nor [null]. *)
Definition obj_assign_primitive (o : cell obj) (k : string) (v : value)
  : js_error + cell obj :=
  match prop_own (content o) k with
  | Some _ =>
      match level o with
      | Frozen => inl (read_only k)
      | _ => inr (mk_cell (prop_set (content o) k v) (level o))
      end
  | None =>
      if String.eqb k "__proto__" then inr o
      else
        match level o with
        | Extensible => inr (mk_cell (prop_set (content o) k v) (level o))
        | _ => inl (not_extensible k)
        end
  end.

(** [`${error}`], that is [Error.prototype.toString] *)
Definition error_to_string (e : js_error) : string :=
  if String.eqb (e_name e) EmptyString then e_message e
  else if String.eqb (e_message e) EmptyString then e_name e
  else e_name e +:+ ": " +:+ e_message e.

(** ** Number values and their conversion to strings *)

Module Number.

(** A Number value is an IEEE 754 binary64 value: a zero, an infinity,
    NaN, or [m * 2^e] with a sign. *)
Definition t : Type := spec_float.

(** [m * 2^e2 * 10^e10] as a fraction of two integers. *)
Definition numer (m e2 e10 : Z) : Z := m * 2 ^ Z.max e2 0 * 10 ^ Z.max e10 0.
Definition denom (e2 e10 : Z) : Z := 2 ^ Z.max (- e2) 0 * 10 ^ Z.max (- e10) 0.

(** [a * 2^e] compared with [s * 10^q] *)
Definition compare_scaled (a e s q : Z) : comparison :=
  numer a e 0 * denom 0 q ?= numer s 0 q * denom e 0.

(** The largest integer [s] with [s * 10^q <= m * 2^e] *)
Definition floor_scaled (m e q : Z) : Z :=
  numer m e (- q) `div` denom e (- q).

(** The reals that round to [m * 2^e] lie between the midpoints to its
    two neighbours; the midpoints themselves round to it when [m] is
    even. Below a power of two the neighbour is half as far. *)
Definition rounds_to (m e s q : Z) : bool :=
  let above := compare_scaled (2 * m + 1) (e - 1) s q in
  let below :=
    if (m =? 2 ^ 52) && (-1074 <? e)
    then compare_scaled (4 * m - 1) (e - 2) s q
    else compare_scaled (2 * m - 1) (e - 1) s q in
  match below, above with
  | Lt, Gt => true
  | Eq, Gt | Lt, Eq => Z.even m
  | _, _ => false
  end.

(** The [n] with [10^(n-1) <= m * 2^e < 10^n] *)
Definition magnitude (m e : Z) : Z :=
  let estimate := ((Z.log2 m + e) * 30103) `div` 100000 in
  default 0
    (head (filter (fun n => bool_decide (compare_scaled m e 1 n = Lt))
             (seqZ (estimate - 1) 4))).

(** A candidate: the digits [s] and the [n] of [s * 10^(n-k)]. *)
Definition candidates (m e k n0 : Z) : list (Z * Z) :=
  n ← [n0 - 1; n0; n0 + 1];
  s ← [floor_scaled m e (n - k); floor_scaled m e (n - k) + 1];
  if (10 ^ (k - 1) <=? s) && (s <? 10 ^ k) && rounds_to m e s (n - k)
  then [(s, n)] else [].

(** Twice the distance of [s * 10^(n-k)] to [m * 2^e], in units of
    [2^(e - 1) * 10^q0] for a [q0] below every [n - k] in use. *)
Definition distance (m e k q0 : Z) (c : Z * Z) : Z :=
  let q := c.2 - k - q0 in
  Z.abs (numer (2 * c.1) 0 q * denom e (- q0) - numer (2 * m) e (- q0)).

Definition closer (m e k q0 : Z) (c1 c2 : Z * Z) : Z * Z :=
  match distance m e k q0 c1 ?= distance m e k q0 c2 with
  | Lt => c1
  | Gt => c2
  | Eq => if Z.even c1.1 then c1 else c2
  end.

Definition closest (m e k n0 : Z) : option (Z * Z) :=
  match candidates m e k n0 with
  | [] => None
  | c :: cs => Some (foldl (closer m e k (n0 - k - 2)) c cs)
  end.

(** The [n], [k] and [s] of a positive finite value: [k] is as small as
    possible, and of the [s] that are possible the one whose value is
    closest is chosen, the even one of two. *)
Fixpoint shortest (m e n0 : Z) (k : Z) (more : nat) : Z * Z * Z :=
  match closest m e k n0 with
  | Some (s, n) => (n, k, s)
  | None =>
      match more with
      | O => (n0, k, floor_scaled m e (n0 - k))
      | S more' => shortest m e n0 (k + 1) more'
      end
  end.

Definition zeros (n : Z) : string := String.concat EmptyString (replicate (Z.to_nat n) "0").

Definition first_digits (n : Z) (digits : string) : string :=
  String.substring 0 (Z.to_nat n) digits.
Definition last_digits (n : Z) (digits : string) : string :=
  String.substring (Z.to_nat n) (String.length digits - Z.to_nat n) digits.

(** The string of [s * 10^(n-k)], where [s] has the [k] digits [digits]. *)
Definition decimal (n k : Z) (digits : string) : string :=
  if (k <=? n) && (n <=? 21) then digits +:+ zeros (n - k)
  else if (0 <? n) && (n <=? 21)
  then first_digits n digits +:+ "." +:+ last_digits n digits
  else if (-6 <? n) && (n <=? 0) then "0." +:+ zeros (- n) +:+ digits
  else
    let exponent :=
      (if n - 1 <? 0 then "-" else "+") +:+ pretty (Z.abs (n - 1)) in
    if k =? 1 then digits +:+ "e" +:+ exponent
    else first_digits 1 digits +:+ "." +:+ last_digits 1 digits +:+ "e" +:+
         exponent.

(** The mantissa of a value has 53 bits when its exponent allows it. *)
Definition canonical (m e : Z) : Z * Z :=
  let shift := Z.max 0 (Z.min (52 - Z.log2 m) (e + 1074)) in
  (m * 2 ^ shift, e - shift).

(** [Number::toString(x)], which is what a template literal makes of a
    number. *)
Definition to_string (x : t) : string :=
  match x with
  | S754_nan => "NaN"
  | S754_zero _ => "0"
  | S754_infinity s => if s then "-Infinity" else "Infinity"
  | S754_finite s m e =>
      let '(m, e) := canonical (Z.pos m) e in
      let '(n, k, digits) := shortest m e (magnitude m e) 1 16 in
      (if s then "-" else EmptyString) +:+ decimal n k (pretty digits)
  end.

(** The Number value of an integer literal, rounded to nearest. *)
Definition of_Z (n : Z) : t := binary_normalize 53 1024 n 0 false.

End Number.

(** ** Column objects *)

Module ColumnOptions.
(** A [defaultValue]: a boolean, a string, a number, or a [Date] given
    by the text a template literal renders it to. *)
Inductive literal : Type :=
| LBool (b : bool)
| LStr (s : string)
| LNum (n : Number.t)
| LDate (text : string).

(** A column object. An optional property that is [None] is absent. *)
Record t : Type := mk {
  type : string;
  allowNull : option bool;
  defaultValue : option literal;
  primaryKey : option bool;
  unique : option bool;
}.

(** The three optional flags, by name. *)
Inductive flag : Type :=
| AllowNull
| PrimaryKey
| Unique.

Definition flag_name (f : flag) : string :=
  match f with
  | AllowNull => "allowNull"
  | PrimaryKey => "primaryKey"
  | Unique => "unique"
  end.

Definition get (f : flag) (val : t) : option bool :=
  match f with
  | AllowNull => allowNull val
  | PrimaryKey => primaryKey val
  | Unique => unique val
  end.

Definition set (f : flag) (b : option bool) (val : t) : t :=
  match f with
  | AllowNull => mk (type val) b (defaultValue val) (primaryKey val) (unique val)
  | PrimaryKey => mk (type val) (allowNull val) (defaultValue val) b (unique val)
  | Unique => mk (type val) (allowNull val) (defaultValue val) (primaryKey val) b
  end.
End ColumnOptions.

(** ** Data of namespace Pool *)

(** The [message] of a failure is [error.sqlMessage ?? error]: a text, or
    the error object itself. *)
Inductive failure_message : Type :=
| MsgText (s : string)
| MsgError (e : js_error).

Definition message_to_string (m : failure_message) : string :=
  match m with
  | MsgText s => s
  | MsgError e => error_to_string e
  end.

Module DbErrorResult.
Record t : Type := mk {
  code : string;
  message : failure_message;
  query : string;
  values : list value;
}.
End DbErrorResult.

(** [pg.QueryResult], as far as the code reads it. The driver declares
    [command], [rowCount], [oid], [fields] and [rows]. *)
Module QueryResult.
Record t : Type := mk {
  rows : list obj;
  rowCount : option Z;
}.
End QueryResult.

Inductive DbResult : Type :=
| DbSuccess (r : QueryResult.t)
| DbFailed (r : DbErrorResult.t).

(** Addresses of [Transaction] instances, of plain objects and of column
    objects in the store, and the clients ([pg.PoolClient]) the pool
    hands out. *)
Definition tid : Type := nat.
Definition ref : Type := nat.
Definition cref : Type := nat.
Definition client : Type := nat.

Module DbQueryOptions.
Record t : Type := mk {
  values : option (list value);
  showError : option bool;
  showQuery : option bool;
  transaction : option tid;
}.
End DbQueryOptions.

Module TransactionOptions.
Record t : Type := mk { rollbackOnError : option bool }.
End TransactionOptions.

(** The fields of a [Transaction] instance. *)
Record transaction_state : Type := mk_transaction {
  conn : option client;
  rollbackOnError : bool;
}.

(** ** Data of namespace Db *)

Inductive QueryType : Type :=
| Qcreate
| Qdrop
| Qdrop_constraint
| Qschema
| Qalter.

Global Instance QueryType_eq_dec : EqDecision QueryType.
Proof. solve_decision. Defined.

(** [Record<QueryType, Record<string, Array<string>>>] *)
Record folder_t : Type := mk_folder {
  f_create : jsobj (list string);
  f_drop : jsobj (list string);
  f_drop_constraint : jsobj (list string);
  f_schema : jsobj (list string);
  f_alter : jsobj (list string);
}.

(** The fields of the [Script] instance. *)
Record script_state : Type := mk_script {
  folder : folder_t;
  schema : string;
}.

(** ** The world: store, module-level state and history *)

(** What one argument of [console.log] shows. *)
Inductive logged : Type :=
| LogText (s : string)
| LogFailure (r : DbErrorResult.t)
| LogQuery (query : string) (values : list value).

(** Where a statement is sent: [this.pool.query] or [client.query]. *)
Inductive target : Type :=
| OnPool
| OnClient (c : client).

Inductive event : Type :=
| EvConnect (answer : js_error + client)
| EvQuery (on : target) (query : string) (values : option (list value))
    (answer : js_error + QueryResult.t)
| EvRelease (c : client)
| EvLog (args : list logged).

Record World : Type := mk_world {
  txns : list transaction_state;     (* the Transaction instances *)
  objs : list (cell obj);            (* plain objects shared with the caller *)
  cols : list (cell ColumnOptions.t); (* column objects of the caller *)
  script : script_state;             (* const script = new Script() *)
  syncScripts : list string;         (* const syncScripts = [] *)
  log : list event;                  (* driver calls and console output *)
}.

(** The driver: what [pool.connect()] and [query(...)] answer after a
    given history. *)
Record Env : Type := mk_env {
  pool_connect : list event -> js_error + client;
  driver_query : list event -> target -> string -> option (list value) ->
                 js_error + QueryResult.t;
}.

Definition set_txns (f : list transaction_state -> list transaction_state)
    (w : World) : World :=
  mk_world (f (txns w)) (objs w) (cols w) (script w) (syncScripts w) (log w).
Definition set_objs (f : list (cell obj) -> list (cell obj)) (w : World)
  : World :=
  mk_world (txns w) (f (objs w)) (cols w) (script w) (syncScripts w) (log w).
Definition set_cols
    (f : list (cell ColumnOptions.t) -> list (cell ColumnOptions.t))
    (w : World) : World :=
  mk_world (txns w) (objs w) (f (cols w)) (script w) (syncScripts w) (log w).
Definition set_script (f : script_state -> script_state) (w : World) : World :=
  mk_world (txns w) (objs w) (cols w) (f (script w)) (syncScripts w) (log w).
Definition set_syncScripts (f : list string -> list string) (w : World) : World :=
  mk_world (txns w) (objs w) (cols w) (script w) (f (syncScripts w)) (log w).
Definition set_log (f : list event -> list event) (w : World) : World :=
  mk_world (txns w) (objs w) (cols w) (script w) (syncScripts w) (f (log w)).

(** ** Computations: state and exceptions *)

Inductive outcome (A : Type) : Type :=
| Return (a : A)
| Throw (e : js_error).
Arguments Return {A} a.
Arguments Throw {A} e.

Definition M (A : Type) : Type := World -> outcome A * World.

Definition ret {A} (a : A) : M A := fun w => (Return a, w).

Definition bind {A B} (m : M A) (k : A -> M B) : M B :=
  fun w =>
    match m w with
    | (Return a, w') => k a w'
    | (Throw e, w') => (Throw e, w')
    end.

Definition throw {A} (e : js_error) : M A := fun w => (Throw e, w).

(** [try { body } catch (error) { handler }] *)
Definition try_catch {A} (body : M A) (handler : js_error -> M A) : M A :=
  fun w =>
    match body w with
    | (Return a, w') => (Return a, w')
    | (Throw e, w') => handler e w'
    end.

Notation "x <- c1 ;; c2" := (bind c1 (fun x => c2))
  (at level 100, c1 at next level, right associativity).
Notation "c1 ;; c2" := (bind c1 (fun _ => c2))
  (at level 100, right associativity).

Definition gets {A} (f : World -> A) : M A := fun w => (Return (f w), w).
Definition modify (f : World -> World) : M unit := fun w => (Return tt, f w).
Definition emit (e : event) : M unit := modify (set_log (fun l => l ++ [e])).

Definition console_log (args : list logged) : M unit := emit (EvLog args).

(** [await this.pool.connect()] *)
Definition connect (env : Env) : M client :=
  fun w =>
    let answer := pool_connect env (log w) in
    let w' := set_log (fun l => l ++ [EvConnect answer]) w in
    match answer with
    | inr c => (Return c, w')
    | inl e => (Throw e, w')
    end.

(** [await on.query(query, values)] *)
Definition send (env : Env) (on : target) (query : string)
    (values : option (list value)) : M QueryResult.t :=
  fun w =>
    let answer := driver_query env (log w) on query values in
    let w' := set_log (fun l => l ++ [EvQuery on query values answer]) w in
    match answer with
    | inr r => (Return r, w')
    | inl e => (Throw e, w')
    end.

(** [client.release()] *)
Definition release (c : client) : M unit := emit (EvRelease c).

(** Reading and writing the fields of the instance at address [t]. A
    reference always points to an instance; an address outside the store
    reads as a fresh instance. *)
Definition read_txn (t : tid) (w : World) : transaction_state :=
  default (mk_transaction None false) (txns w !! t).
Definition get_conn (t : tid) : M (option client) :=
  gets (fun w => conn (read_txn t w)).
Definition get_rollbackOnError (t : tid) : M bool :=
  gets (fun w => rollbackOnError (read_txn t w)).
Definition set_conn (t : tid) (c : option client) : M unit :=
  fun w =>
    let s := read_txn t w in
    (Return tt, set_txns (fun l => <[t := mk_transaction c (rollbackOnError s)]> l) w).

(** [ch.red(str)] of the color helper *)
Definition ESC : string := String "027"%char EmptyString.
Definition ch_red (str : string) : string := ESC +:+ "[31m" +:+ str +:+ ESC +:+ "[0m".

(** ** class Placeholder *)

Module Placeholder.

Record t : Type := mk { counter : Z }.

(** [constructor()] *)
Definition new : t := {| counter := 0 |}.

(** The two overloads of [generate]: [typeof param === 'number'] or a
    record. *)
Inductive param : Type :=
| Count (count : Z)
| Fields (o : obj).

(** [for (let i = this.counter; i < this.counter + count; i++)
       result.push(`$${i + 1}`);]
    The loop variable [i] steps by one from [counter] up to the bound
    [counter + count], so the body runs [Z.to_nat count] times (not at
    all when [count <= 0]); [trips] counts the remaining iterations. *)
Fixpoint positional_loop (trips : nat) (i : Z) (result : list string)
  : list string :=
  match trips with
  | O => result
  | S trips' =>
      positional_loop trips' (i + 1) (result ++ ["$" +:+ pretty (i + 1)])
  end.

(** [for (const key of keys) {
       result.push(`${key}=$${this.counter + 1}`); this.counter++; }] *)
Fixpoint assignment_loop (keys : list string) (self : t)
    (result : list string) : list string * t :=
  match keys with
  | [] => (result, self)
  | key :: keys' =>
      let result := result ++ [key +:+ "=$" +:+ pretty (counter self + 1)] in
      let self := {| counter := counter self + 1 |} in
      assignment_loop keys' self result
  end.

(** The [result] array of [generate] just before it is joined, and the
    instance after the call. *)
Definition generate_parts (self : t) (p : param) : list string * t :=
  match p with
  | Count count =>
      (positional_loop (Z.to_nat (counter self + count - counter self))
         (counter self) [], self)
  | Fields o => assignment_loop (Object_keys o) self []
  end.

(** [generate(param, delim = ', ')] *)
Definition generate (self : t) (p : param) (delim : string) : string * t :=
  let '(result, self) := generate_parts self p in
  (join delim result, self).

Definition default_delim : string := ", ".

(** [values(objs)]: an entry of [objs] is an object or [undefined]
    ([None]). *)
Fixpoint values_loop (objs : list (option obj)) (result : list value)
  : list value :=
  match objs with
  | [] => result
  | None :: objs' => values_loop objs' result
  | Some o :: objs' => values_loop objs' (result ++ Object_values o)
  end.

Definition values (objs : list (option obj)) : list value :=
  values_loop objs [].

End Placeholder.

(** ** namespace Pool *)

Module Pool.

(** The object literal built in the [catch] branch of [queryHandler]:
    [{ code: error.code ?? 'ER_INTERNAL_ERROR',
       message: error.sqlMessage ?? error, query, values }] *)
Definition error_result (query : string) (values : list value)
    (error : js_error) : DbErrorResult.t :=
  {| DbErrorResult.code := default "ER_INTERNAL_ERROR" (e_code error);
     DbErrorResult.message :=
       match e_sqlMessage error with
       | Some s => MsgText s
       | None => MsgError error
       end;
     DbErrorResult.query := query;
     DbErrorResult.values := values |}.

(** [queryHandler(query, values, showError, tryHandler, errorHandler?)] *)
Definition queryHandler (query : string) (values : list value)
    (showError : bool) (tryHandler : M QueryResult.t)
    (errorHandler : option (js_error -> M unit)) : M DbResult :=
  let errorHandler := default (fun _ => ret tt) errorHandler in
  try_catch
    (r <- tryHandler ;; ret (DbSuccess r))
    (fun error =>
       errorHandler error ;;
       let result := error_result query values error in
       (if showError
        then console_log [LogText (ch_red "DB QUERY ERROR:"); LogFailure result]
        else ret tt) ;;
       ret (DbFailed result)).

(** [this.conn!.query(query)] *)
Definition send_on_conn (env : Env) (self : tid) (query : string)
  : M QueryResult.t :=
  c <- get_conn self ;;
  match c with
  | Some c => send env (OnClient c) query None
  | None => throw (TypeError "Cannot read properties of null (reading 'query')")
  end.

(** class Transaction; [self] is the address of the instance. *)
Module Transaction.

(** [new Transaction(options)] *)
Definition new (options : option TransactionOptions.t) : M tid :=
  let rollbackOnError :=
    default false (options ≫= TransactionOptions.rollbackOnError) in
  fun w =>
    (Return (length (txns w)),
     set_txns (fun l => l ++ [mk_transaction None rollbackOnError]) w).

(** [private async end()] *)
Definition end_ (self : tid) : M unit :=
  c <- get_conn self ;;
  match c with
  | Some c => release c ;; set_conn self None
  | None => ret tt
  end.

Definition begin (env : Env) (self : tid) (conn : client)
    (showError : option bool) : M unit :=
  let showError := default true showError in
  c <- get_conn self ;;
  match c with
  | Some _ =>
      console_log
        [LogText (ch_red "DB TRANSACTION ERROR:");
         LogText "Failed to begin transaction. Connection already established"]
  | None =>
      set_conn self (Some conn) ;;
      let query := "COMMIT;" in
      _ <- queryHandler query [] showError (send_on_conn env self query) None ;;
      ret tt
  end.

Definition commit (env : Env) (self : tid) (showError : option bool)
  : M unit :=
  let showError := default true showError in
  c <- get_conn self ;;
  match c with
  | None =>
      console_log
        [LogText (ch_red "DB TRANSACTION ERROR:");
         LogText "Failed to commit transaction. Connection is not established"]
  | Some _ =>
      let query := "COMMIT;" in
      _ <- queryHandler query [] showError (send_on_conn env self query) None ;;
      end_ self
  end.

Definition rollback (env : Env) (self : tid) (showError : option bool)
  : M unit :=
  let showError := default true showError in
  c <- get_conn self ;;
  match c with
  | None =>
      console_log
        [LogText (ch_red "DB TRANSACTION ERROR:");
         LogText "Failed to commit transaction. Connection is not established"]
  | Some _ =>
      let query := "ROLLBACK" in
      _ <- queryHandler query [] showError (send_on_conn env self query) None ;;
      end_ self
  end.

End Transaction.

(** The [tryHandler] closure of [Pool.query]. *)
Definition query_tryHandler (env : Env) (query : string)
    (values : list value) (showQuery : bool) (transaction : option tid)
  : M QueryResult.t :=
  (* if (!transaction?.conn) await transaction?.begin(await this.pool.connect()); *)
  match transaction with
  | Some t =>
      c <- get_conn t ;;
      match c with
      | None => cl <- connect env ;; Transaction.begin env t cl None
      | Some _ => ret tt
      end
  | None => ret tt
  end ;;
  (* const conn = transaction ? transaction.conn! : this.pool; *)
  conn <- match transaction with
          | Some t => c <- get_conn t ;; ret (option_map OnClient c)
          | None => ret (Some OnPool)
          end ;;
  (if showQuery then console_log [LogQuery query values] else ret tt) ;;
  match conn with
  | Some on => send env on query (Some values)
  | None => throw (TypeError "Cannot read properties of null (reading 'query')")
  end.

(** The [errorHandler] closure of [Pool.query]. *)
Definition query_errorHandler (env : Env) (transaction : option tid)
    (error : js_error) : M unit :=
  match transaction with
  | Some t =>
      r <- get_rollbackOnError t ;;
      if r then Transaction.rollback env t None else ret tt
  | None => ret tt
  end.

(** [Pool.query(query, options?)] *)
Definition query (env : Env) (query : string)
    (options : option DbQueryOptions.t) : M DbResult :=
  let values := default [] (options ≫= DbQueryOptions.values) in
  let showError := default true (options ≫= DbQueryOptions.showError) in
  let showQuery := default false (options ≫= DbQueryOptions.showQuery) in
  let transaction := options ≫= DbQueryOptions.transaction in
  queryHandler query values showError
    (query_tryHandler env query values showQuery transaction)
    (Some (query_errorHandler env transaction)).

(** [Pool.transaction(options?)] *)
Definition transaction (env : Env) (options : option TransactionOptions.t)
  : M tid :=
  transaction <- Transaction.new options ;;
  cl <- connect env ;;
  Transaction.begin env transaction cl None ;;
  ret transaction.

(** The object a result is at run time. A driver result owns none of
    the four keys [isSuccess] looks for. *)
Definition error_value (e : js_error) : value :=
  VObj [("name", VStr (e_name e)); ("message", VStr (e_message e))].

Definition to_object (response : DbResult) : obj :=
  match response with
  | DbSuccess r =>
      [("rows", VArr (VObj <$> QueryResult.rows r));
       ("rowCount", from_option VNum VNull (QueryResult.rowCount r))]
  | DbFailed f =>
      [("code", VStr (DbErrorResult.code f));
       ("message",
         match DbErrorResult.message f with
         | MsgText s => VStr s
         | MsgError e => error_value e
         end);
       ("query", VStr (DbErrorResult.query f));
       ("values", VArr (DbErrorResult.values f))]
  end.

(** [for (const key of keys) if (failed[key] !== undefined) count++;] *)
Fixpoint isSuccess_loop (keys : list string) (failed : obj) (count : Z) : Z :=
  match keys with
  | [] => count
  | key :: keys' =>
      isSuccess_loop keys' failed
        (if is_defined (obj_get failed key) then count + 1 else count)
  end.

(** [isSuccess(response)]; [failed] is [response as any]. *)
Definition isSuccess (failed : obj) : bool :=
  let count := 0 in
  let keys := ["code"; "query"; "values"; "message"] in
  isSuccess_loop keys failed count <? 2.

(** [response.message] and [response.rows] after the type guard. *)
Definition message_of (response : DbResult) : string :=
  match response with
  | DbFailed f => message_to_string (DbErrorResult.message f)
  | DbSuccess _ => "undefined"
  end.
Definition rows_of (response : DbResult) : list obj :=
  match response with
  | DbSuccess r => QueryResult.rows r
  | DbFailed _ => []
  end.

End Pool.

(** ** namespace Db *)

Module DefinitionOptions.
Record t : Type := mk { schema : option string; showQuery : option bool }.
End DefinitionOptions.

Module ModelOptions.
Record t : Type := mk { where_ : option ref; transaction : option tid }.
End ModelOptions.

Module SetForeignKeyOptions.
Record t : Type := mk {
  constraintName : option string;
  referenceKey : option string;
}.
End SetForeignKeyOptions.

Module SyncOptions.
Record t : Type := mk {
  alter : option bool;
  onSuccessAlter : option (tid -> M unit);
}.
End SyncOptions.

(** A primary-key argument: [number | string]. *)
Inductive pk_t : Type :=
| PkNum (n : Z)
| PkStr (s : string).

Definition pk_value (pk : pk_t) : value :=
  match pk with
  | PkNum n => VNum n
  | PkStr s => VStr s
  end.

(** [`${pk}`] and [`${typeof pk === 'string' ? `'${pk}'` : pk}`] *)
Definition pk_text (pk : pk_t) : string :=
  match pk with
  | PkNum n => pretty n
  | PkStr s => s
  end.
Definition pk_quoted (pk : pk_t) : string :=
  match pk with
  | PkNum n => pretty n
  | PkStr s => "'" +:+ s +:+ "'"
  end.

(** A loop body either falls through to the next iteration or executes
    [return;]. *)
Inductive flow : Type :=
| Next
| Returned.

(** [for (const x of l) body] *)
Fixpoint for_of {A} (l : list A) (body : A -> M flow) : M flow :=
  match l with
  | [] => ret Next
  | x :: l' =>
      f <- body x ;;
      match f with
      | Returned => ret Returned
      | Next => for_of l' body
      end
  end.

Module Db.

(** class Script *)
Module Script.

Definition folder_get (f : folder_t) (type : QueryType)
  : jsobj (list string) :=
  match type with
  | Qcreate => f_create f
  | Qdrop => f_drop f
  | Qdrop_constraint => f_drop_constraint f
  | Qschema => f_schema f
  | Qalter => f_alter f
  end.

Definition folder_set (f : folder_t) (type : QueryType)
    (r : jsobj (list string)) : folder_t :=
  match type with
  | Qcreate => mk_folder r (f_drop f) (f_drop_constraint f) (f_schema f) (f_alter f)
  | Qdrop => mk_folder (f_create f) r (f_drop_constraint f) (f_schema f) (f_alter f)
  | Qdrop_constraint => mk_folder (f_create f) (f_drop f) r (f_schema f) (f_alter f)
  | Qschema => mk_folder (f_create f) (f_drop f) (f_drop_constraint f) r (f_alter f)
  | Qalter => mk_folder (f_create f) (f_drop f) (f_drop_constraint f) (f_schema f) r
  end.

(** [Object.keys(this.folder)]: the order of the constructor's literal *)
Definition folder_keys : list QueryType :=
  [Qcreate; Qdrop; Qdrop_constraint; Qschema; Qalter].

(** [constructor()] *)
Definition new : script_state :=
  {| folder := mk_folder [] [] [] [] []; schema := EmptyString |}.

(** [this.folder[type][schemaName].push(query)] *)
Definition bucket_push (f : folder_t) (type : QueryType)
    (schemaName : string) (query : string) : js_error + folder_t :=
  match prop_get (folder_get f type) schemaName with
  | Own bucket =>
      inr (folder_set f type
             (prop_set (folder_get f type) schemaName (bucket ++ [query])))
  | Inherited => inl (TypeError "this.folder[type][this.schema].push is not a function")
  | Missing => inl (TypeError "Cannot read properties of undefined (reading 'push')")
  end.

(** [for (const type of Object.keys(this.folder))
       this.folder[type][schemaName] = [];] *)
Fixpoint addSchema_loop (types : list QueryType) (schemaName : string)
    (f : folder_t) : folder_t :=
  match types with
  | [] => f
  | type :: types' =>
      addSchema_loop types' schemaName
        (folder_set f type (prop_set (folder_get f type) schemaName []))
  end.

(** [private addSchema(schemaName)]. It is only called for a name that
    [hasSchema] rejected, which is never a name inherited from
    [Object.prototype]. *)
Definition addSchema (schemaName : string) (self : script_state)
  : js_error + script_state :=
  let f := addSchema_loop folder_keys schemaName (folder self) in
  match bucket_push f Qschema schemaName
          ("DROP SCHEMA IF EXISTS " +:+ schemaName +:+ ";") with
  | inl e => inl e
  | inr f =>
      match bucket_push f Qschema schemaName
              ("CREATE SCHEMA IF NOT EXISTS " +:+ schemaName +:+ ";") with
      | inl e => inl e
      | inr f => inr {| folder := f; schema := schema self |}
      end
  end.

(** [for (const type of Object.values(this.folder))
       if (type[schemaName] === undefined) return false;] *)
Fixpoint hasSchema_loop (types : list (jsobj (list string)))
    (schemaName : string) : bool :=
  match types with
  | [] => true
  | type :: types' =>
      match prop_get type schemaName with
      | Missing => false
      | _ => hasSchema_loop types' schemaName
      end
  end.

Definition hasSchema (schemaName : string) (self : script_state) : bool :=
  hasSchema_loop (folder_get (folder self) <$> folder_keys) schemaName.

Definition setSchema (schemaName : string) (self : script_state)
  : js_error + script_state :=
  match (if negb (hasSchema schemaName self)
         then addSchema schemaName self else inr self) with
  | inl e => inl e
  | inr self => inr {| folder := folder self; schema := schemaName |}
  end.

Definition push (type : QueryType) (query : string) (self : script_state)
  : js_error + script_state :=
  match bucket_push (folder self) type (schema self) query with
  | inl e => inl e
  | inr f => inr {| folder := f; schema := schema self |}
  end.

Definition getFolder (self : script_state) : folder_t := folder self.

End Script.

(** A method call on the module-level [script] instance. *)
Definition on_script (method : script_state -> js_error + script_state)
  : M unit :=
  fun w =>
    match method (script w) with
    | inr s => (Return tt, set_script (fun _ => s) w)
    | inl e => (Throw e, w)
    end.

(** [modelHandler(callback)] *)
Definition modelHandler {T} (null : T) (callback : M T) : M T :=
  try_catch callback
    (fun error =>
       console_log [LogText (ch_red "DB ERROR:"); LogText (e_message error)] ;;
       ret null).

(** Plain objects in the store: allocation of an object literal,
    reading, and the assignment [o[k] = v] done in place, which throws
    when the object refuses it. A reference always points to an object;
    an address outside the store reads as an empty object and takes no
    assignment. *)
Definition alloc_obj (o : obj) : M ref :=
  fun w => (Return (length (objs w)), set_objs (fun l => l ++ [new_object o]) w).
Definition read_obj (r : ref) : M obj :=
  gets (fun w => default ([] : obj) (content <$> objs w !! r)).
Definition assign_obj (r : ref) (k : string) (v : value) : M unit :=
  fun w =>
    match objs w !! r with
    | Some o =>
        match obj_assign_primitive o k v with
        | inr o' => (Return tt, set_objs (fun l => <[r := o']> l) w)
        | inl e => (Throw e, w)
        end
    | None => (Return tt, w)
    end.

(** Column objects in the store: allocation of an object literal,
    reading, and the assignment [val.f = val.f ?? false] to one of the
    three flags. The flag becomes a new property when the object does not
    have it. An address outside the store reads as a column without
    properties and takes no assignment. *)
Definition alloc_col (val : ColumnOptions.t) : M cref :=
  fun w => (Return (length (cols w)), set_cols (fun l => l ++ [new_object val]) w).

Definition no_column : cell ColumnOptions.t :=
  new_object (ColumnOptions.mk EmptyString None None None None).

Definition read_col (val : cref) : M ColumnOptions.t :=
  gets (fun w => content (default no_column (cols w !! val))).

Definition flag_write (f : ColumnOptions.flag) (val : cell ColumnOptions.t)
    (b : bool) : js_error + cell ColumnOptions.t :=
  match level val, ColumnOptions.get f (content val) with
  | Frozen, Some _ => inl (read_only (ColumnOptions.flag_name f))
  | Frozen, None | NonExtensible, None =>
      inl (not_extensible (ColumnOptions.flag_name f))
  | _, _ => inr (mk_cell (ColumnOptions.set f (Some b) (content val)) (level val))
  end.

Definition default_flag (f : ColumnOptions.flag) (val : cref) : M unit :=
  fun w =>
    match cols w !! val with
    | Some c =>
        match flag_write f c (default false (ColumnOptions.get f (content c))) with
        | inr c' => (Return tt, set_cols (fun l => <[val := c']> l) w)
        | inl e => (Throw e, w)
        end
    | None => (Return tt, w)
    end.

(** The object [define] returns; its methods close over [tableName],
    [schema], [pkColumn] and [showQuery]. *)
Module Model.

Record t : Type := mk {
  tableName : string;
  schema : string;
  pkColumn : option string;
  showQuery : bool;
}.

(** The options every method passes to [pool.query]:
    [{ values, showQuery, transaction }]. *)
Definition query_options (self : t) (values : list value)
    (transaction : option tid) : option DbQueryOptions.t :=
  Some {| DbQueryOptions.values := Some values;
          DbQueryOptions.showError := None;
          DbQueryOptions.showQuery := Some (showQuery self);
          DbQueryOptions.transaction := transaction |}.

(** [rows[0]], [undefined] when there is no row *)
Definition first_row (rows : list obj) : value :=
  from_option VObj VUndefined (rows !! 0%nat).
Definition all_rows (rows : list obj) : value := VArr (VObj <$> rows).

(** [options?.where ? ` WHERE ${placeholder.generate(options.where, ' AND ')}` : ''] *)
Definition where_clause (placeholder : Placeholder.t) (where_ : option obj)
  : string * Placeholder.t :=
  match where_ with
  | Some o =>
      let '(s, placeholder) :=
        Placeholder.generate placeholder (Placeholder.Fields o) " AND " in
      (" WHERE " +:+ s, placeholder)
  | None => (EmptyString, placeholder)
  end.

(** The object [options?.where] refers to, if any. *)
Definition read_where (options : option ModelOptions.t) : M (option obj) :=
  match options ≫= ModelOptions.where_ with
  | Some r => o <- read_obj r ;; ret (Some o)
  | None => ret None
  end.

Definition create (env : Env) (self : t) (body : obj)
    (options : option ModelOptions.t) : M value :=
  modelHandler VNull (
    let keys := Object_keys body in
    let values := Object_values body in
    let placeholder := Placeholder.new in
    let transaction := options ≫= ModelOptions.transaction in
    let '(marks, placeholder) :=
      Placeholder.generate placeholder
        (Placeholder.Count (Z.of_nat (length values)))
        Placeholder.default_delim in
    let query :=
      "INSERT INTO " +:+ schema self +:+ "." +:+ tableName self +:+
      " (" +:+ join ", " keys +:+ ") " +:+
      "VALUES (" +:+ marks +:+ ") RETURNING *;" in
    response <- Pool.query env query (query_options self values transaction) ;;
    if negb (Pool.isSuccess (Pool.to_object response))
    then throw (Error ("Failed to create data. " +:+ Pool.message_of response))
    else ret (first_row (Pool.rows_of response))).

Definition find (env : Env) (self : t) (options : option ModelOptions.t)
  : M value :=
  modelHandler VNull (
    let placeholder := Placeholder.new in
    where_obj <- read_where options ;;
    let '(where_, placeholder) := where_clause placeholder where_obj in
    let query :=
      "SELECT * FROM " +:+ schema self +:+ "." +:+ tableName self +:+
      where_ +:+ ";" in
    let transaction := options ≫= ModelOptions.transaction in
    let values := Placeholder.values [where_obj] in
    response <- Pool.query env query (query_options self values transaction) ;;
    if negb (Pool.isSuccess (Pool.to_object response))
    then throw (Error ("Failed to find data. " +:+ Pool.message_of response))
    else ret (all_rows (Pool.rows_of response))).

Definition update (env : Env) (self : t) (bodyToUpdate : obj)
    (options : option ModelOptions.t) : M value :=
  modelHandler VNull (
    let placeholder := Placeholder.new in
    let '(assignments, placeholder) :=
      Placeholder.generate placeholder (Placeholder.Fields bodyToUpdate)
        Placeholder.default_delim in
    let set := "SET " +:+ assignments in
    where_obj <- read_where options ;;
    let '(where_, placeholder) := where_clause placeholder where_obj in
    let query :=
      "UPDATE " +:+ schema self +:+ "." +:+ tableName self +:+ " " +:+
      set +:+ where_ +:+ " RETURNING *;" in
    let transaction := options ≫= ModelOptions.transaction in
    let values := Placeholder.values [Some bodyToUpdate; where_obj] in
    response <- Pool.query env query (query_options self values transaction) ;;
    if negb (Pool.isSuccess (Pool.to_object response))
    then throw (Error ("Failed to update data. " +:+ Pool.message_of response))
    else ret (all_rows (Pool.rows_of response))).

Definition delete (env : Env) (self : t) (options : option ModelOptions.t)
  : M value :=
  modelHandler VNull (
    let placeholder := Placeholder.new in
    where_obj <- read_where options ;;
    let '(where_, placeholder) := where_clause placeholder where_obj in
    let query :=
      "DELETE FROM " +:+ schema self +:+ "." +:+ tableName self +:+
      where_ +:+ " RETURNING *;" in
    let transaction := options ≫= ModelOptions.transaction in
    let values := Placeholder.values [where_obj] in
    response <- Pool.query env query (query_options self values transaction) ;;
    if negb (Pool.isSuccess (Pool.to_object response))
    then throw (Error ("Failed to delete data. " +:+ Pool.message_of response))
    else ret (all_rows (Pool.rows_of response))).

(** [options = { where: options?.where ?? {}, transaction: ... };
     (options.where as any)[pkColumn] = pk;]
    The caller's object is kept when there is one; the assignment
    writes into it, or throws when the object refuses it. *)
Definition where_with_pk (options : option ModelOptions.t)
    (pkColumn : string) (pk : pk_t) : M ref :=
  where_ <- match options ≫= ModelOptions.where_ with
            | Some r => ret r
            | None => alloc_obj []
            end ;;
  assign_obj where_ pkColumn (pk_value pk) ;;
  ret where_.

(** The two checks on the response that the by-pk methods share:
    [verb] is find, update or delete. *)
Definition one_row (verb : string) (pkColumn : string) (pk : pk_t)
    (response : DbResult) : M value :=
  if negb (Pool.isSuccess (Pool.to_object response))
  then throw (Error ("Failed to " +:+ verb +:+ " data by pk (" +:+ pkColumn +:+
                     "=" +:+ pk_quoted pk +:+ "). " +:+ Pool.message_of response))
  else if (Z.of_nat (length (Pool.rows_of response)) =? 0)
  then throw (Error ("Failed to " +:+ verb +:+ " data by pk (" +:+ pkColumn +:+
                     "=" +:+ pk_text pk +:+ "). No data found"))
  else ret (first_row (Pool.rows_of response)).

Definition no_pk (verb : string) (self : t) : js_error :=
  Error ("Failed to " +:+ verb +:+ " data by pk. Table " +:+ tableName self +:+
         " does not have a primary key").

Definition findByPk (env : Env) (self : t) (pk : pk_t)
    (options : option ModelOptions.t) : M value :=
  modelHandler VNull (
    match pkColumn self with
    | None => throw (no_pk "find" self)
    | Some pkColumn =>
        where_ref <- where_with_pk options pkColumn pk ;;
        let transaction := options ≫= ModelOptions.transaction in
        let placeholder := Placeholder.new in
        where_obj <- read_obj where_ref ;;
        let '(conditions, placeholder) :=
          Placeholder.generate placeholder (Placeholder.Fields where_obj)
            " AND " in
        let where_ := " WHERE " +:+ conditions in
        let query :=
          "SELECT * FROM " +:+ schema self +:+ "." +:+ tableName self +:+
          where_ +:+ ";" in
        let values := Placeholder.values [Some where_obj] in
        response <- Pool.query env query (query_options self values transaction) ;;
        one_row "find" pkColumn pk response
    end).

(** [bodyToUpdate] is passed by address: it is read after the key was
    written into [options.where], which may be the same object. *)
Definition updateByPk (env : Env) (self : t) (pk : pk_t)
    (bodyToUpdate : ref) (options : option ModelOptions.t) : M value :=
  modelHandler VNull (
    match pkColumn self with
    | None => throw (no_pk "update" self)
    | Some pkColumn =>
        where_ref <- where_with_pk options pkColumn pk ;;
        let transaction := options ≫= ModelOptions.transaction in
        let placeholder := Placeholder.new in
        body <- read_obj bodyToUpdate ;;
        let '(assignments, placeholder) :=
          Placeholder.generate placeholder (Placeholder.Fields body)
            Placeholder.default_delim in
        let set := " SET " +:+ assignments in
        where_obj <- read_obj where_ref ;;
        let '(conditions, placeholder) :=
          Placeholder.generate placeholder (Placeholder.Fields where_obj)
            " AND " in
        let where_ := " WHERE " +:+ conditions in
        let query :=
          "UPDATE " +:+ schema self +:+ "." +:+ tableName self +:+
          set +:+ where_ +:+ " RETURNING *;" in
        let values := Placeholder.values [Some body; Some where_obj] in
        response <- Pool.query env query (query_options self values transaction) ;;
        one_row "update" pkColumn pk response
    end).

Definition deleteByPk (env : Env) (self : t) (pk : pk_t)
    (options : option ModelOptions.t) : M value :=
  modelHandler VNull (
    match pkColumn self with
    | None => throw (no_pk "delete" self)
    | Some pkColumn =>
        where_ref <- where_with_pk options pkColumn pk ;;
        let transaction := options ≫= ModelOptions.transaction in
        let placeholder := Placeholder.new in
        where_obj <- read_obj where_ref ;;
        let '(conditions, placeholder) :=
          Placeholder.generate placeholder (Placeholder.Fields where_obj)
            " AND " in
        let where_ := " WHERE " +:+ conditions in
        let query :=
          "DELETE FROM " +:+ schema self +:+ "." +:+ tableName self +:+
          where_ +:+ " RETURNING *;" in
        let values := Placeholder.values [Some where_obj] in
        response <- Pool.query env query (query_options self values transaction) ;;
        one_row "delete" pkColumn pk response
    end).

Definition setForeignKey (self : t) (model : t) (foreignKey : string)
    (options : option SetForeignKeyOptions.t) : M unit :=
  let constraintName :=
    default (tableName self +:+ "_" +:+ tableName model)
      (options ≫= SetForeignKeyOptions.constraintName) in
  let referenceKey :=
    default foreignKey (options ≫= SetForeignKeyOptions.referenceKey) in
  on_script (Script.push Qdrop_constraint
    ("ALTER TABLE IF EXISTS " +:+ schema self +:+ "." +:+ tableName self +:+ " " +:+
     "DROP CONSTRAINT IF EXISTS fk_" +:+ constraintName +:+ ";")) ;;
  on_script (Script.push Qalter
    ("ALTER TABLE IF EXISTS " +:+ schema self +:+ "." +:+ tableName self +:+ " " +:+
     "ADD CONSTRAINT fk_" +:+ constraintName +:+ " " +:+
     "FOREIGN KEY (" +:+ foreignKey +:+ ") " +:+
     "REFERENCES " +:+ schema model +:+ "." +:+ tableName model +:+
     " (" +:+ referenceKey +:+ ") " +:+
     "ON DELETE CASCADE " +:+
     "ON UPDATE CASCADE;")).

End Model.

(** The column clause that the loop over [Object.entries(definitionBody)]
    in [define] builds for one entry, from the properties the column
    object has once its three flags are stored back. *)
Definition column_clause (key : string) (val : ColumnOptions.t) : string :=
  let allowNull := default false (ColumnOptions.allowNull val) in
  let primaryKey := default false (ColumnOptions.primaryKey val) in
  let unique := default false (ColumnOptions.unique val) in
  let query := key +:+ " " +:+ ColumnOptions.type val in
  let query :=
    if negb primaryKey
    then query +:+ (if allowNull then EmptyString else " NOT NULL") else query in
  let query := query +:+ (if primaryKey then " PRIMARY KEY" else EmptyString) in
  let query :=
    if negb primaryKey
    then query +:+ (if unique then " UNIQUE" else EmptyString) else query in
  match ColumnOptions.defaultValue val with
  | None => query
  | Some (ColumnOptions.LStr EmptyString) => query
  | Some d =>
      query +:+ " DEFAULT" +:+
      match d with
      | ColumnOptions.LBool b => if b then " TRUE" else " FALSE"
      | ColumnOptions.LStr s => " '" +:+ s +:+ "'"
      | ColumnOptions.LNum n => " " +:+ Number.to_string n
      | ColumnOptions.LDate text => " " +:+ text
      end
  end.

(** [for (const [key, val] of Object.entries(definitionBody)) {
       val.allowNull = val.allowNull ?? false;
       val.primaryKey = val.primaryKey ?? false;
       val.unique = val.unique ?? false;
       if (val.primaryKey) pkColumn = key;
       ...
       columns.push(key); subquery.push(query); }]
    The entries of [definitionBody] are the caller's column objects. *)
Fixpoint define_loop (entries : list (string * cref))
    (pkColumn : option string) (subquery columns : list string)
  : M (option string * list string * list string) :=
  match entries with
  | [] => ret (pkColumn, subquery, columns)
  | (key, val) :: entries' =>
      default_flag ColumnOptions.AllowNull val ;;
      default_flag ColumnOptions.PrimaryKey val ;;
      default_flag ColumnOptions.Unique val ;;
      c <- read_col val ;;
      let pkColumn :=
        if default false (ColumnOptions.primaryKey c)
        then Some key else pkColumn in
      define_loop entries' pkColumn
        (subquery ++ [column_clause key c]) (columns ++ [key])
  end.

(** [Db.define(tableName, definitionBody, options?)] *)
Definition define (tableName : string)
    (definitionBody : jsobj cref)
    (options : option DefinitionOptions.t) : M Model.t :=
  let schema := default "public" (options ≫= DefinitionOptions.schema) in
  let showQuery := default false (options ≫= DefinitionOptions.showQuery) in
  on_script (Script.setSchema schema) ;;
  built <- define_loop definitionBody None [] [] ;;
  let '(pkColumn, subquery, columns) := built in
  on_script (Script.push Qdrop
    ("DROP TABLE IF EXISTS " +:+ schema +:+ "." +:+ tableName +:+ ";")) ;;
  on_script (Script.push Qcreate
    ("CREATE TABLE IF NOT EXISTS " +:+ schema +:+ "." +:+ tableName +:+
     " (" +:+ join ", " subquery +:+ ");")) ;;
  modify (set_syncScripts (fun l =>
    l ++ ["SELECT " +:+ join ", " columns +:+ " FROM " +:+ schema +:+ "." +:+
          tableName +:+ ";"])) ;;
  ret (Model.mk tableName schema pkColumn showQuery).

(** [Db.transaction(options?)] *)
Definition transaction (env : Env) (options : option TransactionOptions.t)
  : M tid :=
  Pool.transaction env options.

(** The body of the innermost loop of [sync]:
    [const response = await this.pool.query(query, { transaction });
     if (!Pool.isSuccess(response)) return;] *)
Definition sync_statement (env : Env) (transaction : tid) (query : string)
  : M flow :=
  response <- Pool.query env query
                (Some {| DbQueryOptions.values := None;
                         DbQueryOptions.showError := None;
                         DbQueryOptions.showQuery := None;
                         DbQueryOptions.transaction := Some transaction |}) ;;
  if negb (Pool.isSuccess (Pool.to_object response))
  then ret Returned else ret Next.

Definition sequence : list QueryType :=
  [Qdrop_constraint; Qdrop; Qschema; Qcreate; Qalter].

(** [for (const key of sequence)
       for (const type of Object.values(folder[key]))
         for (const query of type) ...] *)
Definition sync_loop (env : Env) (transaction : tid) (folder : folder_t)
  : M flow :=
  for_of sequence (fun key =>
    for_of (Object_values (Script.folder_get folder key)) (fun type =>
      for_of type (fun query => sync_statement env transaction query))).

(** [Db.sync(options?)] *)
Definition sync (env : Env) (options : option SyncOptions.t) : M unit :=
  let alter := default false (options ≫= SyncOptions.alter) in
  let onSuccessAlter :=
    default (fun _ => ret tt) (options ≫= SyncOptions.onSuccessAlter) in
  if negb alter then
    scripts <- gets syncScripts ;;
    _ <- for_of scripts (fun query => _ <- Pool.query env query None ;; ret Next) ;;
    ret tt
  else
    transaction <- transaction env
      (Some {| TransactionOptions.rollbackOnError := Some true |}) ;;
    folder <- gets (fun w => Script.getFolder (script w)) ;;
    f <- sync_loop env transaction folder ;;
    match f with
    | Returned => ret tt
    | Next =>
        onSuccessAlter transaction ;;
        Pool.Transaction.commit env transaction None
    end.

End Db.

(** ** The names of the column types *)

(** [Db.DataTypes]. A precision, a scale and a number of digits are
    numbers, printed by a template literal. *)
Module DataTypes.

Definition SMALLINT : string := "SMALLINT".
Definition INTEGER : string := "INTEGER".
Definition BIGINT : string := "BIGINT".
Definition SERIAL : string := "SERIAL".
Definition NUMERIC (precision scale : option Number.t) : string :=
  match precision, scale with
  | Some precision, Some scale =>
      "NUMERIC(" +:+ Number.to_string precision +:+ "," +:+
      Number.to_string scale +:+ ")"
  | Some precision, None => "NUMERIC(" +:+ Number.to_string precision +:+ ")"
  | None, _ => "NUMERIC"
  end.
Definition REAL : string := "REAL".
Definition DOUBLE_PRECISION : string := "DOUBLE PRECISION".
Definition CHAR (digits : Number.t) : string :=
  "CHAR(" +:+ Number.to_string digits +:+ ")".
Definition VARCHAR (digits : Number.t) : string :=
  "VARCHAR(" +:+ Number.to_string digits +:+ ")".
Definition TEXT : string := "TEXT".
Definition DATE : string := "DATE".
Definition TIME : string := "TIME".
Definition TIMESTAMP : string := "TIMESTAMP".
Definition BOOLEAN : string := "BOOLEAN".

End DataTypes.

(** ** namespace AccessControl *)

(** The two [sync] methods of [access-control/postgresql/src/index.ts]
    and the constructors of their classes, which are callers of [define],
    [Db.transaction] and [Model.create]. *)

(** [!v] is [negb (truthy v)]. *)
Definition truthy (v : value) : bool :=
  match v with
  | VUndefined | VNull => false
  | VBool b => b
  | VNum n => negb (n =? 0)
  | VStr s => negb (String.eqb s EmptyString)
  | VArr _ | VObj _ | VNative => true
  end.

(** A reference to an instance is an object, and every object is
    truthy. *)
Definition truthy_ref (r : nat) : bool := true.

(** [String.prototype.trim]. A string is the sequence of its code
    units, each below 256; the white space and line terminators among
    these are TAB, LF, VT, FF, CR, SP and NBSP. *)
Definition is_space (a : Ascii.ascii) : bool :=
  let n := Ascii.N_of_ascii a in
  ((9 <=? n) && (n <=? 13) || (n =? 32) || (n =? 160))%N.

Fixpoint trim_start (s : string) : string :=
  match s with
  | String a s' => if is_space a then trim_start s' else s
  | EmptyString => EmptyString
  end.

Definition trim (s : string) : string :=
  String.rev (trim_start (String.rev (trim_start s))).

(** [array.includes(x)] on an array of strings *)
Definition includes (array : list string) (x : string) : bool :=
  bool_decide (x ∈ array).

Module AccessControl.

(** An express application. This code only hands it to a callback. *)
Inductive Express : Type := express_app.

(** A request, as far as access control looks at it: [req.baseUrl],
    [req.route.path] and [req.method]. *)
Record ERequest : Type := mk_request {
  baseUrl : string;
  route_path : string;
  method : string;
}.

Module RoleBaseOptions.
Record t : Type := mk {
  tableName : option string;
  setRolesHandler : option (option tid -> M (list string));
  setRoutesHandler : option (Express -> M (list string));
  ignoreRoutes : option (list string);
}.
End RoleBaseOptions.

Module RoleBaseSyncOptions.
Record t : Type := mk {
  alter : option bool;
  setRolesHandler : option (option tid -> M (list string));
  setRoutesHandler : option (Express -> M (list string));
  transaction : option tid;
}.
End RoleBaseSyncOptions.

Module AttributeBaseOptions.
Record t : Type := mk { tableName : option string }.
End AttributeBaseOptions.

Module AttributeBaseSyncOptions.
Record t : Type := mk { alter : option bool; transaction : option tid }.
End AttributeBaseSyncOptions.

(** The body of the loops of both [sync] methods:
    [const response = await this.model.create(body, { transaction });
     if (!response) return;] *)
Definition seed (env : Env) (model : Db.Model.t) (transaction : tid)
    (body : obj) : M flow :=
  response <- Db.Model.create env model body
                (Some {| ModelOptions.where_ := None;
                         ModelOptions.transaction := Some transaction |}) ;;
  if negb (truthy response) then ret Returned else ret Next.

(** The three shapes of column the two tables have:
    [{ type: SERIAL, allowNull: false, primaryKey: true }],
    [{ type: TEXT, allowNull: false }] and
    [{ type: BOOLEAN, allowNull: false, defaultValue }]. *)
Definition serial_key (name : string) : string * ColumnOptions.t :=
  (name, ColumnOptions.mk DataTypes.SERIAL (Some false) None (Some true) None).

Definition text_column (name : string) : string * ColumnOptions.t :=
  (name, ColumnOptions.mk DataTypes.TEXT (Some false) None None None).

Definition boolean_column (name : string) (defaultValue : bool)
  : string * ColumnOptions.t :=
  (name, ColumnOptions.mk DataTypes.BOOLEAN (Some false)
           (Some (ColumnOptions.LBool defaultValue)) None None).

(** The column objects of an object literal, made in the order of the
    literal. *)
Fixpoint column_literals (entries : jsobj ColumnOptions.t) : M (jsobj cref) :=
  match entries with
  | [] => ret []
  | (key, val) :: entries' =>
      r <- Db.alloc_col val ;;
      rest <- column_literals entries' ;;
      ret ((key, r) :: rest)
  end.

(** class RoleBase; the [db] of the instance is the environment. *)
Module RoleBase.

Record t : Type := mk {
  mappedRole : ERequest -> string;
  setRolesHandler : option tid -> M (list string);
  setRoutesHandler : Express -> M (list string);
  ignoreRoutes : list string;
  model : Db.Model.t;
}.

(** [constructor(db, roleFromReq, options?)] *)
Definition new (roleFromReq : ERequest -> string)
    (options : option RoleBaseOptions.t) : M t :=
  let tableName := default "rbac_table" (options ≫= RoleBaseOptions.tableName) in
  let setRolesHandler :=
    default (fun _ => ret []) (options ≫= RoleBaseOptions.setRolesHandler) in
  let setRoutesHandler :=
    default (fun _ => ret []) (options ≫= RoleBaseOptions.setRoutesHandler) in
  let ignoreRoutes := default [] (options ≫= RoleBaseOptions.ignoreRoutes) in
  definitionBody <-
    column_literals
      [serial_key "rbac_id"; text_column "role_name"; text_column "route";
       boolean_column "can_post" true; boolean_column "can_get" true;
       boolean_column "can_patch" true; boolean_column "can_put" true;
       boolean_column "can_delete" true] ;;
  model <- Db.define tableName definitionBody None ;;
  ret {| mappedRole := roleFromReq;
         setRolesHandler := setRolesHandler;
         setRoutesHandler := setRoutesHandler;
         ignoreRoutes := ignoreRoutes;
         model := model |}.

(** [sync(app, options?)] *)
Definition sync (env : Env) (self : t) (app : Express)
    (options : option RoleBaseSyncOptions.t) : M unit :=
  let alter := default false (options ≫= RoleBaseSyncOptions.alter) in
  let setRolesHandler :=
    default (setRolesHandler self)
      (options ≫= RoleBaseSyncOptions.setRolesHandler) in
  let setRoutesHandler :=
    default (setRoutesHandler self)
      (options ≫= RoleBaseSyncOptions.setRoutesHandler) in
  (* transaction: options?.transaction ??
       await this.db.transaction({ rollbackOnError: true }) *)
  options_transaction <-
    match options ≫= RoleBaseSyncOptions.transaction with
    | Some t => ret t
    | None =>
        Db.transaction env
          (Some {| TransactionOptions.rollbackOnError := Some true |})
    end ;;
  if negb alter then ret tt
  else
    let transaction := options_transaction in
    roles <- setRolesHandler (Some transaction) ;;
    routes <- setRoutesHandler app ;;
    f <- for_of roles (fun role_name =>
           for_of routes (fun route =>
             (* if (this.ignoreRoutes.map(route => route.trim())
                      .includes(route)) continue; *)
             if includes (trim <$> ignoreRoutes self) route
             then ret Next
             else seed env (model self) transaction
                    [("role_name", VStr role_name); ("route", VStr route)])) ;;
    match f with
    | Returned => ret tt
    | Next =>
        (* if (!options.transaction!) transaction.commit();   (not awaited) *)
        if negb (truthy_ref options_transaction)
        then Pool.Transaction.commit env transaction None
        else ret tt
    end.

End RoleBase.

(** class AttributeBase *)
Module AttributeBase.

Record t : Type := mk {
  model : Db.Model.t;
  attributesHandlers : jsobj (jsobj (ERequest -> M bool));
}.

(** [constructor(db, options?)] *)
Definition new (options : option AttributeBaseOptions.t) : M t :=
  let tableName :=
    default "abac_table" (options ≫= AttributeBaseOptions.tableName) in
  definitionBody <-
    column_literals
      [serial_key "abac_id"; text_column "attribute_name"; text_column "route";
       boolean_column "check_post" false; boolean_column "check_get" false;
       boolean_column "check_patch" false; boolean_column "check_put" false;
       boolean_column "check_delete" false] ;;
  model <- Db.define tableName definitionBody None ;;
  ret {| model := model; attributesHandlers := [] |}.

(** [sync(options?)] *)
Definition sync (env : Env) (self : t)
    (options : option AttributeBaseSyncOptions.t) : M unit :=
  let alter := default false (options ≫= AttributeBaseSyncOptions.alter) in
  options_transaction <-
    match options ≫= AttributeBaseSyncOptions.transaction with
    | Some t => ret t
    | None =>
        Db.transaction env
          (Some {| TransactionOptions.rollbackOnError := Some true |})
    end ;;
  if negb alter then ret tt
  else
    let transaction := options_transaction in
    (* for (const [route, attributes] of Object.entries(this.attributesHandlers))
         for (const attributeName of Object.keys(attributes)) *)
    f <- for_of (attributesHandlers self) (fun entry =>
           let '(route, attributes) := entry in
           for_of (Object_keys attributes) (fun attributeName =>
             seed env (model self) transaction
               [("attribute_name", VStr attributeName); ("route", VStr route)])) ;;
    match f with
    | Returned => ret tt
    | Next =>
        (* if (!options.transaction!) transaction.commit();   (not awaited) *)
        if negb (truthy_ref options_transaction)
        then Pool.Transaction.commit env transaction None
        else ret tt
    end.

End AttributeBase.

End AccessControl.

(** * Properties *)

(** ** Vocabulary of the statements *)

(** *** Placeholders and results *)

(** The text of one positional and of one assignment placeholder. *)
Definition positional (k : Z) : string := "$" +:+ pretty k.
Definition assignment (key : string) (k : Z) : string :=
  key +:+ "=$" +:+ pretty k.

(** A run of [generate] calls on one instance, in either mode: the
    [result] arrays of the assignment-mode calls, concatenated, and the
    instance after the last call. *)
Definition keys_of (p : Placeholder.param) : list string :=
  match p with
  | Placeholder.Count _ => []
  | Placeholder.Fields o => Object_keys o
  end.

Fixpoint assignments_of (self : Placeholder.t) (ps : list Placeholder.param)
  : list string * Placeholder.t :=
  match ps with
  | [] => ([], self)
  | p :: ps' =>
      let '(parts, self) := Placeholder.generate_parts self p in
      let '(rest, self) := assignments_of self ps' in
      (match p with
       | Placeholder.Count _ => rest
       | Placeholder.Fields _ => parts ++ rest
       end, self)
  end.

(** The four failure-only fields, and how many of them an object
    defines. *)
Definition failure_keys : list string := ["code"; "query"; "values"; "message"].

Definition defined_failure_fields (failed : obj) : nat :=
  length (filter (fun key => is_defined (obj_get failed key) = true) failure_keys).

(** *** Worlds and runs *)

(** Calls that return normally, whatever the world. *)
Definition total {A} (m : M A) : Prop :=
  forall w, exists a w', m w = (Return a, w').

(** [keeps R m]: the world after [m] is related by [R] to the world
    before it, whether [m] returns or throws. *)
Definition keeps {A} (R : relation World) (m : M A) : Prop :=
  forall w, R w (m w).2.

(** The [rollbackOnError] flag of every instance is the same. *)
Definition same_flags (w w' : World) : Prop :=
  forall t, rollbackOnError (read_txn t w') = rollbackOnError (read_txn t w).

(** The plain objects of the store are the same. *)
Definition same_objs (w w' : World) : Prop := objs w' = objs w.

(** The world with more history. *)
Definition add_log (evs : list event) (w : World) : World :=
  set_log (fun l => l ++ evs) w.

(** The world after [this.conn = c] on the instance at [t]. *)
Definition with_conn (t : tid) (c : option client) (w : World) : World :=
  set_txns (fun l =>
    <[t := mk_transaction c (rollbackOnError (read_txn t w))]> l) w.

(** What [queryHandler] prints for an answer of the driver, and the
    result it makes of it. *)
Definition reported (showError : bool) (query : string) (values : list value)
    (answer : js_error + QueryResult.t) : list event :=
  match answer with
  | inl e =>
      if showError
      then [EvLog [LogText (ch_red "DB QUERY ERROR:");
                   LogFailure (Pool.error_result query values e)]]
      else []
  | inr _ => []
  end.

Definition result_of (query : string) (values : list value)
    (answer : js_error + QueryResult.t) : DbResult :=
  match answer with
  | inl e => DbFailed (Pool.error_result query values e)
  | inr r => DbSuccess r
  end.

(** *** Transactions *)

(** The line [begin] prints when the instance already has a connection. *)
Definition begin_refused : event :=
  EvLog [LogText (ch_red "DB TRANSACTION ERROR:");
         LogText "Failed to begin transaction. Connection already established"].

(** The world after [commit] ([query] is [COMMIT;]) or [rollback]
    ([query] is [ROLLBACK]) on an instance that holds [c]: the statement
    is sent on [c], its failure reported, [c] released, the instance left
    without connection. *)
Definition closed_by (env : Env) (query : string) (showError : option bool)
    (self : tid) (c : client) (w : World) : World :=
  let answer := driver_query env (log w) (OnClient c) query None in
  with_conn self None
    (add_log (EvQuery (OnClient c) query None answer
              :: reported (default true showError) query [] answer
              ++ [EvRelease c]) w).

(** *** sync *)

(** The options [{ rollbackOnError: true }] and
    [{ alter: true, onSuccessAlter }]. *)
Definition roll_back_on_error : option TransactionOptions.t :=
  Some {| TransactionOptions.rollbackOnError := Some true |}.

Definition alter_with (onSuccessAlter : option (tid -> M unit))
  : option SyncOptions.t :=
  Some {| SyncOptions.alter := Some true;
          SyncOptions.onSuccessAlter := onSuccessAlter |}.

(** The world after [Db.transaction({ rollbackOnError: true })] when the
    pool hands out the client [c]: a new instance, bound to [c], and the
    opening statement sent. *)
Definition opened (env : Env) (c : client) (w : World) : World :=
  let w1 := add_log [EvConnect (inr c)] w in
  let answer := driver_query env (log w1) (OnClient c) "COMMIT;" None in
  add_log (EvQuery (OnClient c) "COMMIT;" None answer
           :: reported true "COMMIT;" [] answer)
    (set_txns (fun l => l ++ [mk_transaction (Some c) true]) w1).

(** The statements of the folder in the order in which the three loops
    of [sync] visit them. *)
Definition sync_queries (f : folder_t) : list string :=
  concat (concat ((fun key => Object_values (Db.Script.folder_get f key))
                    <$> Db.sequence)).

(** The driver call of one statement of [sync] on the client [c]. *)
Definition statement_event (c : client) (query : string)
    (answer : js_error + QueryResult.t) : event :=
  EvQuery (OnClient c) query (Some []) answer.

(** [accepted env c l qs evs]: after the history [l], the driver accepts
    the statements [qs] one after the other on the client [c]; [evs] are
    these calls with their answers. *)
Inductive accepted (env : Env) (c : client)
  : list event -> list string -> list event -> Prop :=
| accepted_nil l : accepted env c l [] []
| accepted_cons l q qs r evs :
    driver_query env l (OnClient c) q (Some []) = inr r ->
    accepted env c (l ++ [statement_event c q (inr r)]) qs evs ->
    accepted env c l (q :: qs) (statement_event c q (inr r) :: evs).

(** The world in which the statement [query] was rejected with [e] on
    the transaction [t] holding [c]: the statement sent, then [ROLLBACK]
    sent and [c] released, then the failure reported. *)
Definition abandoned (env : Env) (t : tid) (c : client) (query : string)
    (e : js_error) (w : World) : World :=
  add_log (reported true query [] (inl e))
    (closed_by env "ROLLBACK" None t c (add_log [statement_event c query (inl e)] w)).

(** The statements that were sent with bound values, which is how
    [Pool.query] sends; the statements of a transaction itself go without. *)
Definition bound_statement (ev : event) : option string :=
  match ev with
  | EvQuery _ query (Some _) _ => Some query
  | _ => None
  end.

Definition statements_of (l : list event) : list string :=
  omap bound_statement l.

(** *** The script *)

(** Calls of the definition API: [db.define(...)] and
    [model.setForeignKey(...)]. *)
Inductive call : Type :=
| Define (tableName : string) (definitionBody : jsobj cref)
    (options : option DefinitionOptions.t)
| SetForeignKey (self model : Db.Model.t) (foreignKey : string)
    (options : option SetForeignKeyOptions.t).

Definition run_call (c : call) : M unit :=
  match c with
  | Define tableName definitionBody options =>
      _ <- Db.define tableName definitionBody options ;; ret tt
  | SetForeignKey self model foreignKey options =>
      Db.Model.setForeignKey self model foreignKey options
  end.

(** The world after a series of calls; a call that throws leaves what it
    did before throwing. *)
Fixpoint run_calls (calls : list call) (w : World) : World :=
  match calls with
  | [] => w
  | c :: calls' => run_calls calls' (run_call c w).2
  end.

(** Every schema name has its five buckets or none, once per class. *)
Definition wf_folder (f : folder_t) : Prop :=
  (forall type, NoDup (Object_keys (Db.Script.folder_get f type)))
  /\ (forall name type1 type2,
        is_Some (prop_own (Db.Script.folder_get f type1) name) ->
        is_Some (prop_own (Db.Script.folder_get f type2) name)).

(** Every bucket of [f] is still there in [f'], with statements added at
    its end only. *)
Definition grows (f f' : folder_t) : Prop :=
  forall type name bucket,
    prop_own (Db.Script.folder_get f type) name = Some bucket ->
    exists added,
      prop_own (Db.Script.folder_get f' type) name = Some (bucket ++ added).

(** From a well-formed folder to a well-formed folder that grew. *)
Definition evolves (f f' : folder_t) : Prop :=
  wf_folder f -> wf_folder f' /\ grows f f'.

Definition script_evolves (w w' : World) : Prop :=
  evolves (folder (script w)) (folder (script w')).

(** A statement with the class and the schema name of its bucket. *)
Definition tagged : Type := QueryType * string * string.





(** The statements of the bucket of class [type] and schema [name]. *)
Definition of_bucket (type : QueryType) (name : string) (x : tagged) : Prop :=
  x.1 = (type, name).

(** *** Model operations *)

(** The line [modelHandler] prints for a caught error. *)
Definition handler_line (message : string) : event :=
  EvLog [LogText (ch_red "DB ERROR:"); LogText message].







(** The plain object at an address, as [read_obj] reads it. *)
Definition object_at (w : World) (r : ref) : obj :=
  default ([] : obj) (content <$> objs w !! r).



(** *** Queries and connections *)

(** The trace of a statement that [showQuery] asks for. *)
Definition traced (showQuery : bool) (query : string) (values : list value)
  : list event :=
  if showQuery then [EvLog [LogQuery query values]] else [].

(** The line [commit] and [rollback] print on an instance without
    connection; both print the text of [commit]. *)
Definition not_established : event :=
  EvLog [LogText (ch_red "DB TRANSACTION ERROR:");
         LogText "Failed to commit transaction. Connection is not established"].

(** The clients handed back to the pool, in order. *)
Definition released (ev : event) : option client :=
  match ev with
  | EvRelease c => Some c
  | _ => None
  end.

Definition releases (l : list event) : list client := omap released l.

(** The clients the pool handed out, in order. *)
Definition handed_out (ev : event) : option client :=
  match ev with
  | EvConnect (inr c) => Some c
  | _ => None
  end.

Definition connections (l : list event) : list client := omap handed_out l.

(** The statements sent without bound values, which are those of a
    transaction itself ([COMMIT;], [ROLLBACK]). *)
Definition unbound_statement (ev : event) : option string :=
  match ev with
  | EvQuery _ query None _ => Some query
  | _ => None
  end.

Definition controls (l : list event) : list string := omap unbound_statement l.

(** The world after [await transaction.begin(await this.pool.connect())]
    on the instance at [t], which held no connection, when the pool hands
    out the client [c]. *)
Definition lazily_bound (env : Env) (t : tid) (c : client) (w : World) : World :=
  let w1 := add_log [EvConnect (inr c)] w in
  let answer := driver_query env (log w1) (OnClient c) "COMMIT;" None in
  add_log (EvQuery (OnClient c) "COMMIT;" None answer
           :: reported true "COMMIT;" [] answer)
    (with_conn t (Some c) w1).

(** The two ways to close a transaction. *)
Inductive closer : Type :=
| ByCommit
| ByRollback.

Definition close (env : Env) (self : tid) (how : closer)
    (showError : option bool) : M unit :=
  match how with
  | ByCommit => Pool.Transaction.commit env self showError
  | ByRollback => Pool.Transaction.rollback env self showError
  end.

Definition closing_statement (how : closer) : string :=
  match how with
  | ByCommit => "COMMIT;"
  | ByRollback => "ROLLBACK"
  end.

(** The world after [Pool.transaction(options)] when the pool refuses
    with [e]: the new instance, without connection, and the refusal. *)
Definition unopened (flag : bool) (e : js_error) (w : World) : World :=
  add_log [EvConnect (inl e)]
    (set_txns (fun l => l ++ [mk_transaction None flag]) w).

(** A call of the driver on the pool itself, or a line of output. *)
Definition on_the_pool (ev : event) : Prop :=
  match ev with
  | EvQuery on _ _ _ => on = OnPool
  | EvLog _ => True
  | _ => False
  end.

(** The history [sync()] adds: every statement of [queries] sent on the
    pool with no bound value, each failure reported right after it. *)
Fixpoint probes (env : Env) (l : list event) (queries : list string)
  : list event :=
  match queries with
  | [] => []
  | query :: queries' =>
      let answer := driver_query env l OnPool query (Some []) in
      let evs := EvQuery OnPool query (Some []) answer
                 :: reported true query [] answer in
      evs ++ probes env (l ++ evs) queries'
  end.

(** *** The registry of definitions *)

(** The bucket_at of class [type] and schema [name], if the folder has it. *)
Definition bucket_at (f : folder_t) (type : QueryType) (name : string)
  : option (list string) :=
  prop_own (Db.Script.folder_get f type) name.

(** The two statements a schema bucket_at starts with. *)
Definition schema_seeds (name : string) : list string :=
  ["DROP SCHEMA IF EXISTS " +:+ name +:+ ";";
   "CREATE SCHEMA IF NOT EXISTS " +:+ name +:+ ";"].

(** The bucket [addSchema] makes for a class. *)
Definition new_bucket (type : QueryType) (name : string) : list string :=
  if decide (type = Qschema) then schema_seeds name else [].

(** The bucket_at of a schema name before a call of [define]: the one the
    folder has, or the new one [addSchema] makes. *)
Definition bucket_before (self : script_state) (type : QueryType)
    (name : string) : list string :=
  if Db.Script.hasSchema name self
  then default [] (bucket_at (folder self) type name)
  else new_bucket type name.

(** No bucket_at is filed under a name that plain objects inherit. *)
Definition no_inherited (f : folder_t) : Prop :=
  forall type name, name ∈ Object_prototype_keys -> bucket_at f type name = None.

(** Every schema bucket_at holds the two statements of its schema and
    nothing else. *)
Definition schemas_seeded (f : folder_t) : Prop :=
  forall name b, bucket_at f Qschema name = Some b -> b = schema_seeds name.

(** The number of statements of a class, over all schema names. *)
Definition statement_count (f : folder_t) (type : QueryType) : nat :=
  length (concat (Object_values (Db.Script.folder_get f type))).

(** What holds of the registry of definitions, the script and
    [syncScripts], in every state that is reached from the start. *)
Definition registry (w : World) : Prop :=
  let f := folder (script w) in
  wf_folder f
  /\ no_inherited f
  /\ schemas_seeded f
  /\ statement_count f Qdrop = length (syncScripts w)
  /\ statement_count f Qcreate = length (syncScripts w)
  /\ statement_count f Qalter = statement_count f Qdrop_constraint.

(** The column object at an address, as the store has it. *)
Definition column_at (w : World) (val : cref) : cell ColumnOptions.t :=
  default Db.no_column (cols w !! val).

(** A definition body with the column objects its entries refer to. *)
Definition columns_of (w : World) (definitionBody : jsobj cref)
  : jsobj ColumnOptions.t :=
  (fun entry => (entry.1, content (column_at w entry.2))) <$> definitionBody.

(** What a column object throws at the three assignments of [define]:
    the error of the first flag it does not take. *)
Definition flags : list ColumnOptions.flag :=
  [ColumnOptions.AllowNull; ColumnOptions.PrimaryKey; ColumnOptions.Unique].

Definition refusal (c : cell ColumnOptions.t) : option js_error :=
  head (omap (fun f => match Db.flag_write f c false with
                       | inl e => Some e
                       | inr _ => None
                       end) flags).

(** A column object with its three flags stored back. *)
Definition defaulted (c : cell ColumnOptions.t) : cell ColumnOptions.t :=
  mk_cell
    (ColumnOptions.mk (ColumnOptions.type (content c))
       (Some (default false (ColumnOptions.allowNull (content c))))
       (ColumnOptions.defaultValue (content c))
       (Some (default false (ColumnOptions.primaryKey (content c))))
       (Some (default false (ColumnOptions.unique (content c)))))
    (level c).

(** The world after the loop of [define] went over [entries]. *)
Definition settled (entries : jsobj cref) (w : World) : World :=
  set_cols (fun l => foldl (fun l entry => alter defaulted entry.2 l) l entries) w.

(** The entries that the loop of [define] goes over before a column
    object refuses an assignment, and what that one throws. *)
Fixpoint stops_at (w : World) (entries : jsobj cref)
  : jsobj cref * option js_error :=
  match entries with
  | [] => ([], None)
  | entry :: entries' =>
      match refusal (column_at w entry.2) with
      | Some e => ([], Some e)
      | None =>
          let '(before, e) := stops_at w entries' in (entry :: before, e)
      end
  end.

(** No column object of the body refuses. *)
Definition takes_flags (w : World) (definitionBody : jsobj cref) : Prop :=
  (stops_at w definitionBody).2 = None.

(** What [define] may change of a column object: a flag that an
    extensible object does not have becomes [false]. *)
Definition flag_settled (old new : option bool) : Prop :=
  new = old \/ (old = None /\ new = Some false).

Definition column_settled (c c' : cell ColumnOptions.t) : Prop :=
  level c' = level c
  /\ ColumnOptions.type (content c') = ColumnOptions.type (content c)
  /\ ColumnOptions.defaultValue (content c')
     = ColumnOptions.defaultValue (content c)
  /\ (forall f, flag_settled (ColumnOptions.get f (content c))
                  (ColumnOptions.get f (content c')))
  /\ (level c <> Extensible -> c' = c).

Definition columns_settled (w w' : World) : Prop :=
  length (cols w') = length (cols w)
  /\ forall val, column_settled (column_at w val) (column_at w' val).

(** [val.primaryKey ?? false] of a column *)
Definition is_primary (entry : string * ColumnOptions.t) : bool :=
  default false (ColumnOptions.primaryKey entry.2).

(** The last column marked as primary key. *)
Definition pk_of (definitionBody : jsobj ColumnOptions.t) : option string :=
  last (filter (fun entry => is_primary entry = true) definitionBody).*1.

(** The statements of a table and its probe. *)
Definition drop_table (schema tableName : string) : string :=
  "DROP TABLE IF EXISTS " +:+ schema +:+ "." +:+ tableName +:+ ";".

Definition create_table (schema tableName : string)
    (definitionBody : jsobj ColumnOptions.t) : string :=
  "CREATE TABLE IF NOT EXISTS " +:+ schema +:+ "." +:+ tableName +:+
  " (" +:+ join ", " ((fun entry => Db.column_clause entry.1 entry.2)
                        <$> definitionBody) +:+ ");".

Definition probe (schema tableName : string)
    (definitionBody : jsobj ColumnOptions.t) : string :=
  "SELECT " +:+ join ", " (Object_keys definitionBody) +:+ " FROM " +:+
  schema +:+ "." +:+ tableName +:+ ";".

(** What [define] adds to the bucket_at of a class. *)
Definition defined_in (type : QueryType) (schema tableName : string)
    (definitionBody : jsobj ColumnOptions.t) : list string :=
  match type with
  | Qdrop => [drop_table schema tableName]
  | Qcreate => [create_table schema tableName definitionBody]
  | _ => []
  end.



(** The two statements of a foreign key. *)
Definition drop_constraint (self : Db.Model.t) (constraintName : string)
  : string :=
  "ALTER TABLE IF EXISTS " +:+ Db.Model.schema self +:+ "." +:+
  Db.Model.tableName self +:+ " DROP CONSTRAINT IF EXISTS fk_" +:+
  constraintName +:+ ";".

Definition add_constraint (self model : Db.Model.t)
    (constraintName foreignKey referenceKey : string) : string :=
  "ALTER TABLE IF EXISTS " +:+ Db.Model.schema self +:+ "." +:+
  Db.Model.tableName self +:+ " ADD CONSTRAINT fk_" +:+ constraintName +:+
  " FOREIGN KEY (" +:+ foreignKey +:+ ") REFERENCES " +:+
  Db.Model.schema model +:+ "." +:+ Db.Model.tableName model +:+
  " (" +:+ referenceKey +:+ ") ON DELETE CASCADE ON UPDATE CASCADE;".

(** The schema a call of [define] files its table under. *)
Definition schema_of (options : option DefinitionOptions.t) : string :=
  default "public" (options ≫= DefinitionOptions.schema).



(** The calls of [define] for the schema [name], whatever became of
    them. *)
Definition names_schema (name : string) (c : call) : Prop :=
  match c with
  | Define _ _ options => schema_of options = name
  | SetForeignKey _ _ _ _ => False
  end.

Global Instance names_schema_dec name c : Decision (names_schema name c).
Proof. destruct c; cbn; apply _. Defined.




(** *** Statements of the Model operations *)

(** The assignment placeholders of the keys of [o], numbered from
    [from]. *)
Definition numbered (o : obj) (from : Z) : list string :=
  zip_with assignment (Object_keys o)
    (seqZ from (Z.of_nat (length (Object_keys o)))).

(** The WHERE clause of an optional object. *)
Definition where_text (where_ : option obj) (from : Z) : string :=
  match where_ with
  | Some o => " WHERE " +:+ join " AND " (numbered o from)
  | None => EmptyString
  end.

(** The statements of the four operations. *)
Definition insert_statement (self : Db.Model.t) (body : obj) : string :=
  "INSERT INTO " +:+ Db.Model.schema self +:+ "." +:+ Db.Model.tableName self +:+
  " (" +:+ join ", " (Object_keys body) +:+ ") VALUES (" +:+
  join ", " (positional <$> seqZ 1 (Z.of_nat (length (Object_values body)))) +:+
  ") RETURNING *;".

Definition select_statement (self : Db.Model.t) (where_ : option obj) : string :=
  "SELECT * FROM " +:+ Db.Model.schema self +:+ "." +:+ Db.Model.tableName self +:+
  where_text where_ 1 +:+ ";".

Definition update_statement (self : Db.Model.t) (body : obj)
    (where_ : option obj) : string :=
  "UPDATE " +:+ Db.Model.schema self +:+ "." +:+ Db.Model.tableName self +:+
  " SET " +:+ join ", " (numbered body 1) +:+
  where_text where_ (Z.of_nat (length (Object_keys body)) + 1) +:+
  " RETURNING *;".

Definition delete_statement (self : Db.Model.t) (where_ : option obj) : string :=
  "DELETE FROM " +:+ Db.Model.schema self +:+ "." +:+ Db.Model.tableName self +:+
  where_text where_ 1 +:+ " RETURNING *;".

(** The values of an optional object. *)
Definition values_of (where_ : option obj) : list value :=
  from_option Object_values [] where_.

(** The object [options?.where] refers to in the world [w]. *)
Definition where_of (options : option ModelOptions.t) (w : World)
  : option obj :=
  r ← options ≫= ModelOptions.where_; Some (object_at w r).

(** The check of the response that [create], [find], [update] and
    [delete] share. *)
Definition checked (verb : string) (shape : list obj -> value)
    (response : DbResult) : M value :=
  if negb (Pool.isSuccess (Pool.to_object response))
  then throw (Error ("Failed to " +:+ verb +:+ " data. " +:+
                     Pool.message_of response))
  else ret (shape (Pool.rows_of response)).

(** One query through the pool, then [post] on its result, under
    [modelHandler]. *)
Definition asks (env : Env) (self : Db.Model.t) (query : string)
    (values : list value) (transaction : option tid)
    (post : DbResult -> M value) : M value :=
  Db.modelHandler VNull
    (response <- Pool.query env query
                   (Db.Model.query_options self values transaction) ;;
     post response).

(** The script, [syncScripts], the plain objects and the column objects
    are the same. *)
Definition same_registry (w w' : World) : Prop :=
  objs w' = objs w /\ cols w' = cols w
  /\ script w' = script w /\ syncScripts w' = syncScripts w.

(** Transactions, plain objects and history are the same. *)
Definition offline (w w' : World) : Prop :=
  txns w' = txns w /\ objs w' = objs w /\ log w' = log w.

(** *** Access control *)

(** The rows [RoleBase.sync] creates: one per role and route that is
    not ignored, role by role. *)
Definition role_rows (ignoreRoutes roles routes : list string) : list obj :=
  concat ((fun role_name =>
             (fun route => [("role_name", VStr role_name); ("route", VStr route)])
             <$> filter (fun route =>
                           includes (trim <$> ignoreRoutes) route = false) routes)
          <$> roles).

(** The rows [AttributeBase.sync] creates: one per route and attribute
    name, route by route. *)
Definition attribute_rows {H} (attributesHandlers : jsobj (jsobj H))
  : list obj :=
  concat ((fun entry : string * jsobj H =>
             (fun attributeName =>
                [("attribute_name", VStr attributeName); ("route", VStr entry.1)])
             <$> Object_keys entry.2)
          <$> attributesHandlers).

(** The options [{ alter }] of the two [sync] methods. *)
Definition rbac_alter (alter : option bool)
  : option AccessControl.RoleBaseSyncOptions.t :=
  Some (AccessControl.RoleBaseSyncOptions.mk alter None None None).

Definition abac_alter (alter : option bool)
  : option AccessControl.AttributeBaseSyncOptions.t :=
  Some (AccessControl.AttributeBaseSyncOptions.mk alter None).

(** The bound statements that the driver rejected, and those that it
    answered with at least one row, in order. *)
Definition rejected_statement (ev : event) : option string :=
  match ev with
  | EvQuery _ query (Some _) (inl _) => Some query
  | _ => None
  end.

Definition rejected (l : list event) : list string :=
  omap rejected_statement l.

Definition row_statement (ev : event) : option string :=
  match ev with
  | EvQuery _ query (Some _) (inr r) =>
      match QueryResult.rows r with
      | [] => None
      | _ :: _ => Some query
      end
  | _ => None
  end.

Definition with_rows (l : list event) : list string := omap row_statement l.

(** How the loop of a [sync] ends: every row was created; or the driver
    answered one INSERT without a row; or it rejected one. *)
Inductive ending : Type :=
| Completed
| NoRow
| Rejected.

Definition rolled_back (e : ending) : bool :=
  match e with
  | Rejected => true
  | _ => false
  end.

(** The number of statements sent when the first [m] rows were created
    and the loop ended by [e]. *)
Definition sent (e : ending) (m : nat) : nat :=
  match e with
  | Completed => m
  | _ => S m
  end.

(** What a [sync] that is to create [rows] leaves. The first [m] rows
    were created, each INSERT answered with a row, and the loop ended by
    [e]: after the last row, or at the row [m], whose INSERT was sent
    too. The transaction was opened with [COMMIT;] and is closed only when
    the driver rejected the INSERT, by [ROLLBACK], its client released;
    otherwise the client is still held. *)
Definition seeded_by (c : client) (t : tid) (model : Db.Model.t)
    (rows : list obj) (w : World) (run : outcome unit * World) : Prop :=
  exists (m : nat) (e : ending),
    let queries := insert_statement model <$> rows in
    run.1 = Return tt
    /\ match e with
       | Completed => m = length rows
       | _ => (m < length rows)%nat
       end
    /\ statements_of (log run.2)
       = statements_of (log w) ++ take (sent e m) queries
    /\ with_rows (log run.2) = with_rows (log w) ++ take m queries
    /\ rejected (log run.2)
       = rejected (log w)
         ++ (if rolled_back e then option_list (queries !! m) else [])
    /\ controls (log run.2)
       = controls (log w)
         ++ "COMMIT;" :: (if rolled_back e then ["ROLLBACK"] else [])
    /\ connections (log run.2) = connections (log w) ++ [c]
    /\ releases (log run.2)
       = releases (log w) ++ (if rolled_back e then [c] else [])
    /\ conn (read_txn t run.2) = (if rolled_back e then None else Some c).

(** *** Drivers and worlds of the examples *)

(** A driver that accepts everything, one that rejects the statements
    that begin with SELECT, one that rejects those that begin with
    CREATE TABLE; the pool always hands out the client 7. *)
Definition boom : js_error := Error "boom".

Definition quiet_env : Env :=
  mk_env (fun _ => inr 7%nat)
         (fun _ _ _ _ => inr (QueryResult.mk [] None)).

Definition select_fails : Env :=
  mk_env (fun _ => inr 7%nat)
         (fun _ _ query _ =>
            if String.prefix "SELECT" query then inl boom
            else inr (QueryResult.mk [] None)).

Definition create_fails : Env :=
  mk_env (fun _ => inr 7%nat)
         (fun _ _ query _ =>
            if String.prefix "CREATE TABLE" query then inl boom
            else inr (QueryResult.mk [] None)).

(** The world at start-up; a world with one transaction that has no
    connection yet, one with a transaction that holds the client 7, and
    one with a [where] object of the caller. *)
Definition fresh_world : World :=
  mk_world [] [] [] Db.Script.new [] [].

Definition one_unbound : World :=
  mk_world [mk_transaction None true] [] [] Db.Script.new [] [].

Definition one_bound : World :=
  mk_world [mk_transaction (Some 7%nat) true] [] [] Db.Script.new [] [].

Definition callers_where : World :=
  mk_world [] [new_object [("x", VNum 1)]] [] Db.Script.new [] [].

Definition where_and_body : World :=
  mk_world [] [new_object [("x", VNum 1)]; new_object [("x", VNum 2)]] []
    Db.Script.new [] [].

(** The world at start-up with column objects of the caller in its
    store. *)
Definition with_columns (vals : list (cell ColumnOptions.t)) : World :=
  mk_world [] [] vals Db.Script.new [] [].

(** The options [{ transaction: t }] of a query. *)
Definition through (t : tid) : option DbQueryOptions.t :=
  Some (DbQueryOptions.mk None None None (Some t)).

(** Two tables, the second with a foreign key to the first, the
    referencing one defined first; their four column objects are in the
    store of [two_tables]. *)
Definition serial_id : ColumnOptions.t :=
  ColumnOptions.mk "SERIAL" None None (Some true) None.
Definition integer : ColumnOptions.t :=
  ColumnOptions.mk "INTEGER" None None None None.

Definition two_tables : World :=
  with_columns (new_object <$> [serial_id; integer; serial_id; integer]).

Definition model_a : Db.Model.t := Db.Model.mk "a" "public" (Some "id") false.
Definition model_b : Db.Model.t := Db.Model.mk "b" "public" (Some "id") false.
Definition b_then_a : list call :=
  [Define "b" [("id", 0%nat); ("a_id", 1%nat)] None;
   Define "a" [("id", 2%nat); ("x", 3%nat)] None;
   SetForeignKey model_b model_a "a_id" None].

(** A pool that hands out no client, and a driver that answers every
    statement with one row. *)
Definition no_pool : Env :=
  mk_env (fun _ => inl boom) (fun _ _ _ _ => inr (QueryResult.mk [] None)).

Definition row_env : Env :=
  mk_env (fun _ => inr 7%nat)
         (fun _ _ _ _ => inr (QueryResult.mk [[("id", VNum 1)]] (Some 1))).

(** Two tables in two schemas, the referencing one defined first, and
    the options [{ referenceKey: 'id' }]. *)
Definition in_schema (name : string) : option DefinitionOptions.t :=
  Some (DefinitionOptions.mk (Some name) None).

Definition orders : Db.Model.t := Db.Model.mk "orders" "shop" (Some "id") false.
Definition users : Db.Model.t := Db.Model.mk "users" "auth" (Some "id") false.

Definition two_schemas : list call :=
  [Define "orders" [("id", 0%nat); ("user_id", 1%nat)] (in_schema "shop");
   Define "users" [("id", 2%nat)] (in_schema "auth")].

Definition references_id : option SetForeignKeyOptions.t :=
  Some (SetForeignKeyOptions.mk None (Some "id")).

(** A [RoleBase] instance with one role and two routes, one of which is
    ignored. *)
Definition rbac_model : Db.Model.t :=
  Db.Model.mk "rbac_table" "public" (Some "rbac_id") false.

Definition rbac : AccessControl.RoleBase.t :=
  AccessControl.RoleBase.mk (fun _ => "admin")
    (fun _ => ret ["admin"]) (fun _ => ret ["/users"; "/health"])
    [" /health "] rbac_model.

(** ** The embedding at work *)

Example generate_positional :
  Placeholder.generate Placeholder.new (Placeholder.Count 3) ", "
  = ("$1, $2, $3", Placeholder.new).
Proof. reflexivity. Qed.

Example generate_assignment :
  Placeholder.generate Placeholder.new
    (Placeholder.Fields [("a", VNum 1); ("b", VNull)]) " AND "
  = ("a=$1 AND b=$2", {| Placeholder.counter := 2 |}).
Proof. reflexivity. Qed.

Example values_skips_undefined :
  Placeholder.values [Some [("a", VNum 1); ("b", VNull)]; None; Some [("c", VStr "x")]]
  = [VNum 1; VNull; VStr "x"].
Proof. reflexivity. Qed.

Example index_keys_come_first :
  Object_keys (prop_set (prop_set (prop_set (prop_set [] "b" 1) "7" 2) "a" 3) "10" 4)
  = ["7"; "10"; "b"; "a"].
Proof. reflexivity. Qed.

Example isSuccess_of_a_row_with_code_and_message :
  Pool.isSuccess [("code", VStr "x"); ("message", VStr "y")] = false.
Proof. reflexivity. Qed.

Example define_registers :
  script (run_calls b_then_a two_tables)
  = {| folder :=
         {| f_create :=
              [("public",
                ["CREATE TABLE IF NOT EXISTS public.b (id SERIAL PRIMARY KEY, a_id INTEGER NOT NULL);";
                 "CREATE TABLE IF NOT EXISTS public.a (id SERIAL PRIMARY KEY, x INTEGER NOT NULL);"])];
            f_drop :=
              [("public",
                ["DROP TABLE IF EXISTS public.b;";
                 "DROP TABLE IF EXISTS public.a;"])];
            f_drop_constraint :=
              [("public",
                ["ALTER TABLE IF EXISTS public.b DROP CONSTRAINT IF EXISTS fk_b_a;"])];
            f_schema :=
              [("public",
                ["DROP SCHEMA IF EXISTS public;";
                 "CREATE SCHEMA IF NOT EXISTS public;"])];
            f_alter :=
              [("public",
                ["ALTER TABLE IF EXISTS public.b ADD CONSTRAINT fk_b_a FOREIGN KEY (a_id) REFERENCES public.a (a_id) ON DELETE CASCADE ON UPDATE CASCADE;"])] |};
       schema := "public" |}.
Proof. reflexivity. Qed.

Example define_in_schema_toString_throws :
  (Db.define "t" [("id", 0%nat)]
     (Some (DefinitionOptions.mk (Some "toString") None)) two_tables).1
  = Throw (TypeError "this.folder[type][this.schema].push is not a function").
Proof. reflexivity. Qed.

Example define_stores_the_flags_back :
  cols (Db.define "b" [("id", 0%nat); ("a_id", 1%nat)] None two_tables).2
  = new_object
      <$> [ColumnOptions.mk "SERIAL" (Some false) None (Some true) (Some false);
           ColumnOptions.mk "INTEGER" (Some false) None (Some false) (Some false);
           serial_id; integer].
Proof. reflexivity. Qed.

Example define_with_a_frozen_column_throws :
  let w := with_columns [new_object serial_id; mk_cell integer Frozen] in
  let run := Db.define "b" [("id", 0%nat); ("a_id", 1%nat)] None w in
  run.1 = Throw (not_extensible "allowNull")
  /\ bucket_at (folder (script run.2)) Qcreate "public" = Some []
  /\ syncScripts run.2 = []
  /\ cols run.2 = [defaulted (new_object serial_id); mk_cell integer Frozen].
Proof. by repeat split. Qed.

Example numbers_in_a_column_clause :
  Db.column_clause "n"
    (ColumnOptions.mk "NUMERIC" None
       (Some (ColumnOptions.LNum (Number.of_Z (10 ^ 21)))) None None)
  = "n NUMERIC NOT NULL DEFAULT 1e+21"
  /\ Db.column_clause "n"
       (ColumnOptions.mk "NUMERIC" None
          (Some (ColumnOptions.LNum (S754_finite true 1 (-1)))) None None)
     = "n NUMERIC NOT NULL DEFAULT -0.5"
  /\ Db.column_clause "n"
       (ColumnOptions.mk "REAL" (Some true)
          (Some (ColumnOptions.LNum (S754_finite false 3602879701896397 (-55))))
          None None)
     = "n REAL DEFAULT 0.1"
  /\ DataTypes.NUMERIC (Some (Number.of_Z 10)) (Some (Number.of_Z 2))
     = "NUMERIC(10,2)".
Proof. by vm_compute. Qed.

Example sync_sends_in_order :
  statements_of
    (log (Db.sync quiet_env (alter_with None) (run_calls b_then_a two_tables)).2)
  = ["ALTER TABLE IF EXISTS public.b DROP CONSTRAINT IF EXISTS fk_b_a;";
     "DROP TABLE IF EXISTS public.b;";
     "DROP TABLE IF EXISTS public.a;";
     "DROP SCHEMA IF EXISTS public;";
     "CREATE SCHEMA IF NOT EXISTS public;";
     "CREATE TABLE IF NOT EXISTS public.b (id SERIAL PRIMARY KEY, a_id INTEGER NOT NULL);";
     "CREATE TABLE IF NOT EXISTS public.a (id SERIAL PRIMARY KEY, x INTEGER NOT NULL);";
     "ALTER TABLE IF EXISTS public.b ADD CONSTRAINT fk_b_a FOREIGN KEY (a_id) REFERENCES public.a (a_id) ON DELETE CASCADE ON UPDATE CASCADE;"].
Proof. reflexivity. Qed.

Example sync_stops_when_create_fails :
  statements_of
    (log (Db.sync create_fails (alter_with None) (run_calls b_then_a two_tables)).2)
  = ["ALTER TABLE IF EXISTS public.b DROP CONSTRAINT IF EXISTS fk_b_a;";
     "DROP TABLE IF EXISTS public.b;";
     "DROP TABLE IF EXISTS public.a;";
     "DROP SCHEMA IF EXISTS public;";
     "CREATE SCHEMA IF NOT EXISTS public;";
     "CREATE TABLE IF NOT EXISTS public.b (id SERIAL PRIMARY KEY, a_id INTEGER NOT NULL);"]
  /\ last (log (Db.sync create_fails (alter_with None)
                  (run_calls b_then_a two_tables)).2)
     = Some (EvLog
               [LogText (ch_red "DB QUERY ERROR:");
                LogFailure
                  (Pool.error_result
                     "CREATE TABLE IF NOT EXISTS public.b (id SERIAL PRIMARY KEY, a_id INTEGER NOT NULL);"
                     [] boom)]).
Proof. split; reflexivity. Qed.

Example updateByPk_without_match :
  Db.Model.updateByPk quiet_env model_a (PkNum 5) 1%nat
    (Some (ModelOptions.mk (Some 0%nat) None)) where_and_body
  = (Return VNull,
     mk_world []
       [new_object [("x", VNum 1); ("id", VNum 5)]; new_object [("x", VNum 2)]]
       [] Db.Script.new []
       [EvQuery OnPool
          "UPDATE public.a SET x=$1 WHERE x=$2 AND id=$3 RETURNING *;"
          (Some [VNum 2; VNum 1; VNum 5])
          (inr (QueryResult.mk [] None));
        handler_line "Failed to update data by pk (id=5). No data found"]).
Proof. reflexivity. Qed.

Example updateByPk_with_the_body_as_where :
  statements_of
    (log (Db.Model.updateByPk quiet_env model_a (PkNum 5) 0%nat
            (Some (ModelOptions.mk (Some 0%nat) None)) callers_where).2)
  = ["UPDATE public.a SET x=$1, id=$2 WHERE x=$3 AND id=$4 RETURNING *;"].
Proof. reflexivity. Qed.

Example findByPk_with_a_frozen_where :
  Db.Model.findByPk quiet_env model_a (PkNum 5)
    (Some (ModelOptions.mk (Some 0%nat) None))
    (mk_world [] [mk_cell [("x", VNum 1)] Frozen] [] Db.Script.new [] [])
  = (Return VNull,
     mk_world [] [mk_cell [("x", VNum 1)] Frozen] [] Db.Script.new []
       [handler_line "Cannot add property id, object is not extensible"]).
Proof. reflexivity. Qed.

Example an_own_proto_property_is_written :
  obj_assign_primitive (new_object [("__proto__", VNum 1)]) "__proto__" (VNum 5)
  = inr (new_object [("__proto__", VNum 5)])
  /\ obj_assign_primitive (new_object [("x", VNum 1)]) "__proto__" (VNum 5)
     = inr (new_object [("x", VNum 1)]).
Proof. by split. Qed.

Example findByPk_on_failure :
  (Db.Model.findByPk select_fails model_a (PkStr "k") None fresh_world).1
  = Return VNull
  /\ last (log (Db.Model.findByPk select_fails model_a (PkStr "k") None
                  fresh_world).2)
     = Some (handler_line "Failed to find data by pk (id='k'). Error: boom").
Proof. split; reflexivity. Qed.

Example trim_both_ends :
  trim (String "009"%char " /health  ") = "/health"
  /\ trim "a b" = "a b"
  /\ trim "   " = EmptyString.
Proof. by repeat split. Qed.

Example rbac_constructor_defines_its_table :
  let w := (AccessControl.RoleBase.new (fun _ => "admin") None fresh_world).2 in
  script w
  = {| folder :=
         {| f_create :=
              [("public",
                ["CREATE TABLE IF NOT EXISTS public.rbac_table (rbac_id SERIAL PRIMARY KEY, role_name TEXT NOT NULL, route TEXT NOT NULL, can_post BOOLEAN NOT NULL DEFAULT TRUE, can_get BOOLEAN NOT NULL DEFAULT TRUE, can_patch BOOLEAN NOT NULL DEFAULT TRUE, can_put BOOLEAN NOT NULL DEFAULT TRUE, can_delete BOOLEAN NOT NULL DEFAULT TRUE);"])];
            f_drop := [("public", ["DROP TABLE IF EXISTS public.rbac_table;"])];
            f_drop_constraint := [("public", [])];
            f_schema :=
              [("public",
                ["DROP SCHEMA IF EXISTS public;";
                 "CREATE SCHEMA IF NOT EXISTS public;"])];
            f_alter := [("public", [])] |};
       schema := "public" |}
  /\ syncScripts w
     = ["SELECT rbac_id, role_name, route, can_post, can_get, can_patch, can_put, can_delete FROM public.rbac_table;"]
  /\ length (cols w) = 8%nat
  /\ log w = [].
Proof. by repeat split. Qed.

Example rbac_sync_leaves_the_transaction_open :
  (AccessControl.RoleBase.sync row_env rbac AccessControl.express_app
     (rbac_alter (Some true)) fresh_world).2
  = mk_world [mk_transaction (Some 7%nat) true] [] [] Db.Script.new []
      [EvConnect (inr 7%nat);
       EvQuery (OnClient 7%nat) "COMMIT;" None
         (inr (QueryResult.mk [[("id", VNum 1)]] (Some 1)));
       EvQuery (OnClient 7%nat)
         "INSERT INTO public.rbac_table (role_name, route) VALUES ($1, $2) RETURNING *;"
         (Some [VStr "admin"; VStr "/users"])
         (inr (QueryResult.mk [[("id", VNum 1)]] (Some 1)))].
Proof. reflexivity. Qed.

Example query_through_a_closed_transaction_reconnects :
  log (Pool.query quiet_env "SELECT 1" (through 0%nat) one_unbound).2
  = [EvConnect (inr 7%nat);
     EvQuery (OnClient 7%nat) "COMMIT;" None (inr (QueryResult.mk [] None));
     EvQuery (OnClient 7%nat) "SELECT 1" (Some []) (inr (QueryResult.mk [] None))].
Proof. reflexivity. Qed.

(** ** Placeholder *)

Section PlaceholderFacts.
Import Placeholder.

Lemma positional_loop_spec trips : forall i result,
  positional_loop trips i result =
  result ++ (positional <$> seqZ (i + 1) (Z.of_nat trips)).
Proof.
  induction trips as [|trips IH]; intros i result.
  - cbn [positional_loop]. rewrite seqZ_nil by lia. by rewrite app_nil_r.
  - cbn [positional_loop]. rewrite IH.
    rewrite (seqZ_cons (i + 1) (Z.of_nat (S trips))) by lia.
    replace (Z.succ (i + 1)) with (i + 1 + 1) by lia.
    replace (Z.pred (Z.of_nat (S trips))) with (Z.of_nat trips) by lia.
    by rewrite fmap_cons, <- app_assoc.
Qed.

Lemma assignment_loop_spec keys : forall self result,
  assignment_loop keys self result =
  (result ++ zip_with assignment keys
               (seqZ (counter self + 1) (Z.of_nat (length keys))),
   {| counter := counter self + Z.of_nat (length keys) |}).
Proof.
  induction keys as [|key keys IH]; intros [c] result.
  - cbn [assignment_loop length]. rewrite seqZ_nil by lia.
    cbn [zip_with]. rewrite app_nil_r.
    change (Z.of_nat 0) with 0. by rewrite Z.add_0_r.
  - cbn [assignment_loop counter]. rewrite IH. cbn [counter].
    rewrite (seqZ_cons (c + 1) (Z.of_nat (length (key :: keys))))
      by (cbn [length]; lia).
    replace (Z.succ (c + 1)) with (c + 1 + 1) by lia.
    replace (Z.pred (Z.of_nat (length (key :: keys))))
      with (Z.of_nat (length keys)) by (cbn [length]; lia).
    cbn [zip_with]. rewrite <- app_assoc.
    f_equal. f_equal. cbn [length]. lia.
Qed.

Lemma assignments_of_spec ps : forall self,
  assignments_of self ps =
  (zip_with assignment (concat (keys_of <$> ps))
     (seqZ (counter self + 1)
        (Z.of_nat (length (concat (keys_of <$> ps))))),
   {| counter := counter self
                 + Z.of_nat (length (concat (keys_of <$> ps))) |}).
Proof.
  induction ps as [| [count | o] ps IH]; intros [c].
  - cbn [assignments_of fmap list_fmap concat length]. rewrite seqZ_nil by lia.
    cbn [zip_with]. change (Z.of_nat 0) with 0. by rewrite Z.add_0_r.
  - cbn [assignments_of generate_parts]. by rewrite IH.
  - cbn [assignments_of generate_parts]. rewrite assignment_loop_spec.
    rewrite IH. cbn [counter fmap list_fmap concat app keys_of].
    rewrite length_app, Nat2Z.inj_add, seqZ_app by lia.
    unfold Object_keys.
    rewrite zip_with_app by (rewrite length_seqZ; lia).
    replace (c + Z.of_nat (length o.*1) + 1)
      with (c + 1 + Z.of_nat (length o.*1)) by lia.
    do 2 f_equal. lia.
Qed.

End PlaceholderFacts.

Lemma seqZ_to_nat m n : seqZ m (Z.of_nat (Z.to_nat n)) = seqZ m n.
Proof. unfold seqZ. by rewrite Nat2Z.id. Qed.

Lemma length_zip_with_seqZ {A B} (f : A -> Z -> B) (l : list A) m :
  length (zip_with f l (seqZ m (Z.of_nat (length l)))) = length l.
Proof. rewrite length_zip_with, length_seqZ. lia. Qed.

(** C3. Positional mode emits the placeholders [$k] for [k] from
    [counter + 1] to [counter + count], joined by the delimiter, and
    leaves the counter as it was; for a count that is not negative these
    are exactly [count] placeholders. Assignment mode emits [key=$k] for
    the keys in their enumeration order, numbered from [counter + 1], and
    advances the counter by the number of keys. Over any run of calls
    on a new instance, positional calls among them or not, the indices
    emitted by the assignment-mode calls are 1, 2, ..., one per key,
    without gap or repetition, and the counter ends at their number. *)
Theorem placeholder_generate_counts :
  (forall self count delim,
     Placeholder.generate self (Placeholder.Count count) delim =
     (join delim (positional <$> seqZ (Placeholder.counter self + 1) count),
      self))
  /\ (forall self count,
        0 <= count ->
        Z.of_nat
          (length (Placeholder.generate_parts self (Placeholder.Count count)).1)
        = count)
  /\ (forall self o delim,
        Placeholder.generate self (Placeholder.Fields o) delim =
        (join delim
           (zip_with assignment (Object_keys o)
              (seqZ (Placeholder.counter self + 1)
                 (Z.of_nat (length (Object_keys o))))),
         {| Placeholder.counter :=
              Placeholder.counter self + Z.of_nat (length (Object_keys o)) |}))
  /\ (forall ps,
        let keys := concat (keys_of <$> ps) in
        assignments_of Placeholder.new ps =
        (zip_with assignment keys (seqZ 1 (Z.of_nat (length keys))),
         {| Placeholder.counter := Z.of_nat (length keys) |})).
Proof.
  repeat split.
  - intros self count delim. unfold Placeholder.generate.
    cbn [Placeholder.generate_parts]. rewrite positional_loop_spec.
    rewrite seqZ_to_nat.
    by replace (Placeholder.counter self + count - Placeholder.counter self)
      with count by lia.
  - intros self count Hcount. cbn [Placeholder.generate_parts fst].
    rewrite positional_loop_spec. cbn [app].
    rewrite length_fmap, length_seqZ, Nat2Z.id. lia.
  - intros self o delim. unfold Placeholder.generate.
    cbn [Placeholder.generate_parts]. by rewrite assignment_loop_spec.
  - intros ps keys. rewrite assignments_of_spec.
    by cbn [Placeholder.counter Placeholder.new].
Qed.

Lemma placeholder_generate_counts_witness :
  0 <= 3 /\
  Z.of_nat
    (length (Placeholder.generate_parts Placeholder.new (Placeholder.Count 3)).1)
  = 3.
Proof.
  split; [lia |].
  apply (proj1 (proj2 placeholder_generate_counts) Placeholder.new 3). lia.
Defined.

Lemma values_loop_spec objs : forall result,
  Placeholder.values_loop objs result =
  result ++ concat (Object_values <$> omap id objs).
Proof.
  induction objs as [|[o|] objs IH]; intros result.
  - cbn. by rewrite app_nil_r.
  - cbn [Placeholder.values_loop]. rewrite IH. cbn. by rewrite <- app_assoc.
  - cbn [Placeholder.values_loop]. by rewrite IH.
Qed.

Lemma zip_keys_values (os : list obj) :
  zip (concat (Object_keys <$> os)) (concat (Object_values <$> os)) = concat os
  /\ length (concat (Object_values <$> os)) = length (concat (Object_keys <$> os)).
Proof.
  induction os as [|o os [IH1 IH2]]; [done |].
  cbn [fmap list_fmap concat]. split.
  - rewrite zip_with_app, IH1.
    + f_equal. apply zip_fst_snd.
    + unfold Object_keys, Object_values. by rewrite !length_fmap.
  - rewrite !length_app, IH2. unfold Object_keys, Object_values.
    by rewrite !length_fmap.
Qed.

(** C8. [values] is the concatenation, in argument order, of the
    property values of the arguments that are not [undefined], each in
    its key order; an [undefined] argument contributes nothing. Its length
    is the total number of keys of those arguments, its i-th element is
    the value of the i-th key, and that length is both the number of
    assignment-mode placeholders emitted for those objects and the amount
    by which they advance the counter. *)
Theorem values_align_with_placeholders :
  forall objs : list (option obj),
    let present := omap id objs in
    Placeholder.values objs = concat (Object_values <$> present)
    /\ length (Placeholder.values objs) = length (concat (Object_keys <$> present))
    /\ zip (concat (Object_keys <$> present)) (Placeholder.values objs)
       = concat present
    /\ forall self,
         let calls := Placeholder.Fields <$> present in
         length (assignments_of self calls).1
         = length (Placeholder.values objs)
         /\ Placeholder.counter (assignments_of self calls).2
            = Placeholder.counter self
              + Z.of_nat (length (Placeholder.values objs)).
Proof.
  intros objs present.
  assert (Placeholder.values objs = concat (Object_values <$> present)) as Hv.
  { unfold Placeholder.values. by rewrite values_loop_spec. }
  destruct (zip_keys_values present) as [Hzip Hlen].
  assert (keys_of <$> (Placeholder.Fields <$> present) = Object_keys <$> present)
    as Hkeys by (by rewrite <- list_fmap_compose).
  rewrite Hv. repeat split; try done.
  - rewrite assignments_of_spec, Hkeys. cbn [fst].
    by rewrite length_zip_with_seqZ, Hlen.
  - rewrite assignments_of_spec, Hkeys. cbn [snd Placeholder.counter].
    by rewrite Hlen.
Qed.

(** ** isSuccess *)

Lemma isSuccess_loop_count failed keys : forall count,
  Pool.isSuccess_loop keys failed count =
  count + Z.of_nat
            (length (filter (fun key => is_defined (obj_get failed key) = true) keys)).
Proof.
  induction keys as [|key keys IH]; intros count.
  - cbn. lia.
  - cbn [Pool.isSuccess_loop]. rewrite IH, filter_cons.
    destruct (is_defined (obj_get failed key)); case_decide; try done;
      cbn [length]; lia.
Qed.

Lemma isSuccess_count failed :
  Pool.isSuccess failed = bool_decide (defined_failure_fields failed < 2)%nat.
Proof.
  unfold Pool.isSuccess, defined_failure_fields.
  rewrite isSuccess_loop_count.
  fold failure_keys.
  destruct (Z.ltb_spec
    (0 + Z.of_nat (length (filter (fun key => is_defined (obj_get failed key) = true)
                             failure_keys))) 2);
    symmetry; [apply bool_decide_eq_true | apply bool_decide_eq_false]; lia.
Qed.

Lemma defined_failure_fields_sum failed :
  defined_failure_fields failed =
  (Nat.b2n (is_defined (obj_get failed "code"))
   + Nat.b2n (is_defined (obj_get failed "query"))
   + Nat.b2n (is_defined (obj_get failed "values"))
   + Nat.b2n (is_defined (obj_get failed "message")))%nat.
Proof.
  unfold defined_failure_fields, failure_keys.
  rewrite !filter_cons, filter_nil.
  destruct (is_defined (obj_get failed "code")),
           (is_defined (obj_get failed "query")),
           (is_defined (obj_get failed "values")),
           (is_defined (obj_get failed "message"));
    repeat case_decide; done.
Qed.

Lemma is_defined_true v : is_defined v = true <-> v <> VUndefined.
Proof. destruct v; cbn; split; congruence. Qed.

Lemma failure_keys_inv k :
  k ∈ failure_keys ->
  k = "code" \/ k = "query" \/ k = "values" \/ k = "message".
Proof.
  unfold failure_keys. rewrite !elem_of_cons, elem_of_nil. tauto.
Qed.

Ltac two_fields k1 k2 :=
  exists k1, k2;
  split; [discriminate |];
  split; [unfold failure_keys; rewrite !elem_of_cons; tauto |];
  split; [unfold failure_keys; rewrite !elem_of_cons; tauto |];
  split; apply is_defined_true; assumption.

Lemma two_defined_fields failed :
  (2 <= defined_failure_fields failed)%nat <->
  exists k1 k2, k1 <> k2 /\ k1 ∈ failure_keys /\ k2 ∈ failure_keys
                /\ obj_get failed k1 <> VUndefined
                /\ obj_get failed k2 <> VUndefined.
Proof.
  rewrite defined_failure_fields_sum. split.
  - intros Hcount.
    destruct (is_defined (obj_get failed "code")) eqn:Hc,
             (is_defined (obj_get failed "query")) eqn:Hq,
             (is_defined (obj_get failed "values")) eqn:Hv,
             (is_defined (obj_get failed "message")) eqn:Hm;
      cbn [Nat.b2n] in Hcount; try lia;
      first [ two_fields "code" "query" | two_fields "code" "values"
            | two_fields "code" "message" | two_fields "query" "values"
            | two_fields "query" "message" | two_fields "values" "message" ].
  - intros (k1 & k2 & Hne & Hk1 & Hk2 & Hd1 & Hd2).
    apply is_defined_true in Hd1, Hd2.
    apply failure_keys_inv in Hk1, Hk2.
    destruct Hk1 as [-> | [-> | [-> | ->]]], Hk2 as [-> | [-> | [-> | ->]]];
      try done; rewrite Hd1, Hd2; cbn [Nat.b2n]; lia.
Qed.

(** C4. [isSuccess] answers [false] (a Failure) exactly when at least two
    of the four fields [code], [query], [values], [message] are defined on
    the result at once, and [true] for every result that defines fewer
    than two of them. *)
Theorem isSuccess_two_of_four :
  forall failed : obj,
    (Pool.isSuccess failed = false <->
     exists k1 k2, k1 <> k2 /\ k1 ∈ failure_keys /\ k2 ∈ failure_keys
                   /\ obj_get failed k1 <> VUndefined
                   /\ obj_get failed k2 <> VUndefined)
    /\ (Pool.isSuccess failed = false <-> (2 <= defined_failure_fields failed)%nat)
    /\ ((defined_failure_fields failed < 2)%nat -> Pool.isSuccess failed = true).
Proof.
  intros failed. rewrite <- two_defined_fields, isSuccess_count.
  rewrite bool_decide_eq_false. repeat split; try lia.
  intros H. by apply bool_decide_eq_true.
Qed.

Lemma isSuccess_two_of_four_witness :
  (defined_failure_fields [("rows", VArr []); ("message", VStr "hello")] < 2)%nat
  /\ Pool.isSuccess [("rows", VArr []); ("message", VStr "hello")] = true.
Proof.
  split; [vm_compute; lia |].
  apply (proj2 (proj2 (isSuccess_two_of_four _))). vm_compute. lia.
Defined.

(** ** Transactions *)

Lemma add_log_app evs1 evs2 w :
  add_log evs2 (add_log evs1 w) = add_log (evs1 ++ evs2) w.
Proof. destruct w. unfold add_log, set_log. cbn. by rewrite app_assoc. Qed.

Lemma add_log_nil w : add_log [] w = w.
Proof. destruct w. unfold add_log, set_log. cbn. by rewrite app_nil_r. Qed.

Lemma read_txn_lookup t tx w : txns w !! t = Some tx -> read_txn t w = tx.
Proof. unfold read_txn. by intros ->. Qed.

(** A statement of the transaction itself ([COMMIT;], [ROLLBACK]) sent on
    the bound client: one driver call, reported when it fails, never
    thrown. *)
Lemma control_statement env self c tx query showError w :
  txns w !! self = Some tx ->
  conn tx = Some c ->
  let answer := driver_query env (log w) (OnClient c) query None in
  Pool.queryHandler query [] showError (Pool.send_on_conn env self query) None w
  = (Return (result_of query [] answer),
     add_log (EvQuery (OnClient c) query None answer
              :: reported showError query [] answer) w).
Proof.
  intros Htx Hc answer.
  unfold Pool.queryHandler, Pool.send_on_conn, try_catch, bind, get_conn, gets.
  rewrite (read_txn_lookup _ _ _ Htx), Hc.
  unfold send. fold answer.
  destruct answer as [e | r]; cbn [default].
  - unfold ret, console_log, emit, modify, result_of, reported.
    destruct showError; destruct w; unfold add_log, set_log; cbn;
      by rewrite <- ?app_assoc.
  - unfold ret, result_of, reported. by destruct w.
Qed.

Lemma with_conn_lookup t c tx w :
  txns w !! t = Some tx ->
  txns (with_conn t c w) !! t = Some (mk_transaction c (rollbackOnError tx)).
Proof.
  intros Htx. unfold with_conn, set_txns. cbn [txns].
  rewrite (read_txn_lookup _ _ _ Htx).
  apply list_lookup_insert_eq. by eapply lookup_lt_Some.
Qed.

Lemma with_conn_add_log t c evs w :
  with_conn t c (add_log evs w) = add_log evs (with_conn t c w).
Proof. by destruct w. Qed.

Lemma set_conn_run t c w : set_conn t c w = (Return tt, with_conn t c w).
Proof. done. Qed.

(** [begin] on an instance without connection. *)
Lemma begin_run env self cl showError tx w :
  txns w !! self = Some tx ->
  conn tx = None ->
  let answer := driver_query env (log w) (OnClient cl) "COMMIT;" None in
  Pool.Transaction.begin env self cl showError w =
  (Return tt,
   add_log (EvQuery (OnClient cl) "COMMIT;" None answer
            :: reported (default true showError) "COMMIT;" [] answer)
     (with_conn self (Some cl) w)).
Proof.
  intros Htx Hconn answer.
  unfold Pool.Transaction.begin, bind at 1, get_conn, gets.
  rewrite (read_txn_lookup _ _ _ Htx), Hconn.
  unfold bind at 1. rewrite set_conn_run. unfold bind.
  erewrite control_statement
    by (first [by apply with_conn_lookup | done]).
  done.
Qed.

(** C7. [begin] on an instance without connection stores the connection
    and then sends exactly one statement on it, the text [COMMIT;] (with
    no bound values); nothing else is sent, and a failure of that
    statement is only reported. *)
Theorem begin_opens_with_commit :
  forall env self cl showError tx w,
    txns w !! self = Some tx ->
    conn tx = None ->
    let answer := driver_query env (log w) (OnClient cl) "COMMIT;" None in
    Pool.Transaction.begin env self cl showError w =
    (Return tt,
     add_log (EvQuery (OnClient cl) "COMMIT;" None answer
              :: reported (default true showError) "COMMIT;" [] answer)
       (with_conn self (Some cl) w))
    /\ conn (read_txn self (Pool.Transaction.begin env self cl showError w).2)
       = Some cl.
Proof.
  intros env self cl showError tx w Htx Hconn answer.
  rewrite (begin_run env self cl showError tx w Htx Hconn).
  split; [done |]. cbn [snd].
  rewrite <- with_conn_add_log.
  erewrite read_txn_lookup; [| apply with_conn_lookup]; [done |].
  by destruct w.
Qed.

Lemma begin_opens_with_commit_witness :
  log (Pool.Transaction.begin quiet_env 0%nat 7%nat None one_unbound).2
  = [EvQuery (OnClient 7%nat) "COMMIT;" None (inr (QueryResult.mk [] None))].
Proof.
  rewrite (proj1 (begin_opens_with_commit quiet_env 0%nat 7%nat None
                    (mk_transaction None true) one_unbound
                    eq_refl eq_refl)).
  reflexivity.
Defined.

Lemma end_run self c tx w :
  txns w !! self = Some tx ->
  conn tx = Some c ->
  Pool.Transaction.end_ self w
  = (Return tt, with_conn self None (add_log [EvRelease c] w)).
Proof.
  intros Htx Hc. unfold Pool.Transaction.end_, bind, get_conn, gets.
  rewrite (read_txn_lookup _ _ _ Htx), Hc.
  unfold release, emit, modify. by rewrite set_conn_run.
Qed.

Lemma commit_run env self c tx showError w :
  txns w !! self = Some tx ->
  conn tx = Some c ->
  Pool.Transaction.commit env self showError w
  = (Return tt, closed_by env "COMMIT;" showError self c w).
Proof.
  intros Htx Hc. unfold Pool.Transaction.commit, bind at 1, get_conn, gets.
  rewrite (read_txn_lookup _ _ _ Htx), Hc. unfold bind.
  erewrite control_statement by done.
  erewrite end_run; [| by destruct w | done].
  unfold closed_by. rewrite add_log_app. by rewrite <- app_comm_cons.
Qed.

Lemma rollback_run env self c tx showError w :
  txns w !! self = Some tx ->
  conn tx = Some c ->
  Pool.Transaction.rollback env self showError w
  = (Return tt, closed_by env "ROLLBACK" showError self c w).
Proof.
  intros Htx Hc. unfold Pool.Transaction.rollback, bind at 1, get_conn, gets.
  rewrite (read_txn_lookup _ _ _ Htx), Hc. unfold bind.
  erewrite control_statement by done.
  erewrite end_run; [| by destruct w | done].
  unfold closed_by. rewrite add_log_app. by rewrite <- app_comm_cons.
Qed.

Lemma closed_by_unbound env query showError self c tx w :
  txns w !! self = Some tx ->
  txns (closed_by env query showError self c w) !! self
  = Some (mk_transaction None (rollbackOnError tx)).
Proof.
  intros Htx. unfold closed_by. rewrite with_conn_add_log.
  destruct w. by apply with_conn_lookup.
Qed.

(** C2. On an instance that holds the connection [c]: a further [begin]
    only prints its refusal, the instance still holds [c] and nothing is
    sent; [commit] and [rollback] send their statement on [c], then hand
    [c] back to the pool as their last action and leave the instance
    without connection. *)
Theorem transaction_holds_one_connection :
  forall env self c tx w,
    txns w !! self = Some tx ->
    conn tx = Some c ->
    (forall cl showError,
       Pool.Transaction.begin env self cl showError w
       = (Return tt, add_log [begin_refused] w))
    /\ (forall showError,
          let w' := (Pool.Transaction.commit env self showError w).2 in
          Pool.Transaction.commit env self showError w
          = (Return tt, closed_by env "COMMIT;" showError self c w)
          /\ conn (read_txn self w') = None
          /\ last (log w') = Some (EvRelease c))
    /\ (forall showError,
          let w' := (Pool.Transaction.rollback env self showError w).2 in
          Pool.Transaction.rollback env self showError w
          = (Return tt, closed_by env "ROLLBACK" showError self c w)
          /\ conn (read_txn self w') = None
          /\ last (log w') = Some (EvRelease c)).
Proof.
  intros env self c tx w Htx Hc.
  assert (forall query showError,
    conn (read_txn self (closed_by env query showError self c w)) = None
    /\ last (log (closed_by env query showError self c w)) = Some (EvRelease c))
    as Hclosed.
  { intros query showError. split.
    - by erewrite read_txn_lookup by by eapply closed_by_unbound.
    - unfold closed_by. cbn [with_conn set_txns add_log set_log log].
      rewrite app_comm_cons, app_assoc. apply last_snoc. }
  split; [| split].
  - intros cl showError.
    unfold Pool.Transaction.begin, bind, get_conn, gets.
    by rewrite (read_txn_lookup _ _ _ Htx), Hc.
  - intros showError w'. subst w'.
    rewrite (commit_run env self c tx) by done. split; [done |]. apply Hclosed.
  - intros showError w'. subst w'.
    rewrite (rollback_run env self c tx) by done. split; [done |]. apply Hclosed.
Qed.

Lemma transaction_holds_one_connection_witness :
  txns (Pool.Transaction.begin quiet_env 0%nat 8%nat None one_bound).2
  = txns one_bound
  /\ (Pool.Transaction.commit quiet_env 0%nat None one_bound).2
     = mk_world [mk_transaction None true] [] [] Db.Script.new []
         [EvQuery (OnClient 7%nat) "COMMIT;" None (inr (QueryResult.mk [] None));
          EvRelease 7%nat].
Proof.
  destruct (transaction_holds_one_connection quiet_env 0%nat 7%nat
              (mk_transaction (Some 7%nat) true) one_bound eq_refl eq_refl)
    as (Hbegin & Hcommit & _).
  split.
  - by rewrite Hbegin.
  - destruct (Hcommit None) as (-> & _). reflexivity.
Defined.

(** ** Pool.query *)

Lemma total_ret {A} (a : A) : total (ret a).
Proof. intros w. by exists a, w. Qed.

Lemma total_bind {A B} (m : M A) (k : A -> M B) :
  total m -> (forall a, total (k a)) -> total (x <- m ;; k x).
Proof.
  intros Hm Hk w. destruct (Hm w) as (a & w1 & Hrun).
  unfold bind. rewrite Hrun. apply Hk.
Qed.

Lemma total_gets {A} (f : World -> A) : total (gets f).
Proof. intros w. by exists (f w), w. Qed.

Lemma total_modify f : total (modify f).
Proof. intros w. by exists tt, (f w). Qed.

Lemma total_console_log args : total (console_log args).
Proof. apply total_modify. Qed.

Lemma total_set_conn t c : total (set_conn t c).
Proof. intros w. by exists tt, (with_conn t c w). Qed.

(** [queryHandler] catches whatever its [tryHandler] throws. *)
Lemma total_queryHandler query values showError tryHandler errorHandler :
  (forall h, errorHandler = Some h -> forall e, total (h e)) ->
  total (Pool.queryHandler query values showError tryHandler errorHandler).
Proof.
  intros Hh w. unfold Pool.queryHandler, try_catch.
  unfold bind at 1. destruct (tryHandler w) as [[r | e] w1].
  - by eexists _, _.
  - assert (total (default (fun _ => ret tt) errorHandler e)) as Herr.
    { destruct errorHandler as [h |]; [by apply Hh | apply total_ret]. }
    apply total_bind; [done |]. intros _.
    apply total_bind; [| intros; apply total_ret].
    destruct showError; [apply total_console_log | apply total_ret].
Qed.

Lemma total_end self : total (Pool.Transaction.end_ self).
Proof.
  apply total_bind; [apply total_gets |]. intros [c |]; [| apply total_ret].
  apply total_bind; [apply total_modify |]. intros _. apply total_set_conn.
Qed.

Lemma total_begin env self cl showError :
  total (Pool.Transaction.begin env self cl showError).
Proof.
  apply total_bind; [apply total_gets |].
  intros [c |]; [apply total_console_log |].
  apply total_bind; [apply total_set_conn |]. intros _.
  apply total_bind; [| intros; apply total_ret].
  by apply total_queryHandler.
Qed.

Lemma total_commit env self showError :
  total (Pool.Transaction.commit env self showError).
Proof.
  apply total_bind; [apply total_gets |].
  intros [c |]; [| apply total_console_log].
  apply total_bind; [| intros; apply total_end].
  by apply total_queryHandler.
Qed.

Lemma total_rollback env self showError :
  total (Pool.Transaction.rollback env self showError).
Proof.
  apply total_bind; [apply total_gets |].
  intros [c |]; [| apply total_console_log].
  apply total_bind; [| intros; apply total_end].
  by apply total_queryHandler.
Qed.

Lemma total_query_errorHandler env transaction e :
  total (Pool.query_errorHandler env transaction e).
Proof.
  destruct transaction as [t |]; [| apply total_ret]. cbn.
  apply total_bind; [apply total_gets |].
  intros [|]; [apply total_rollback | apply total_ret].
Qed.


(** *** What a call leaves as it was *)

Section Keeps.
Context (R : relation World) `{!PreOrder R}.

Lemma keeps_ret {A} (a : A) : keeps R (ret a).
Proof. intros w. reflexivity. Qed.

Lemma keeps_throw {A} e : keeps R (@throw A e).
Proof. intros w. reflexivity. Qed.

Lemma keeps_gets {A} (f : World -> A) : keeps R (gets f).
Proof. intros w. reflexivity. Qed.

Lemma keeps_bind {A B} (m : M A) (k : A -> M B) :
  keeps R m -> (forall a, keeps R (k a)) -> keeps R (x <- m ;; k x).
Proof.
  intros Hm Hk w. unfold bind. specialize (Hm w).
  destruct (m w) as [[a | e] w1]; cbn [snd] in *; [| done].
  etrans; [done | apply Hk].
Qed.

Lemma keeps_try_catch {A} (body : M A) handler :
  keeps R body -> (forall e, keeps R (handler e)) ->
  keeps R (try_catch body handler).
Proof.
  intros Hm Hk w. unfold try_catch. specialize (Hm w).
  destruct (body w) as [[a | e] w1]; cbn [snd] in *; [done |].
  etrans; [done | apply Hk].
Qed.


(** Once the primitive effects keep [R], so does every operation of
    the pool and of a transaction. *)
Context (env : Env).
Hypothesis keeps_emit : forall ev, keeps R (emit ev).
Hypothesis keeps_set_conn : forall t c, keeps R (set_conn t c).

Lemma keeps_connect : keeps R (connect env).
Proof.
  intros w. unfold connect.
  specialize (keeps_emit (EvConnect (pool_connect env (log w))) w).
  by destruct (pool_connect env (log w)).
Qed.

Lemma keeps_send on query values : keeps R (send env on query values).
Proof.
  intros w. unfold send.
  specialize (keeps_emit
    (EvQuery on query values (driver_query env (log w) on query values)) w).
  by destruct (driver_query env (log w) on query values).
Qed.

Lemma keeps_queryHandler query values showError tryHandler errorHandler :
  keeps R tryHandler ->
  (forall h, errorHandler = Some h -> forall e, keeps R (h e)) ->
  keeps R (Pool.queryHandler query values showError tryHandler errorHandler).
Proof.
  intros Htry Hh. apply keeps_try_catch.
  - apply keeps_bind; [done | intros; apply keeps_ret].
  - intros e. apply keeps_bind.
    + destruct errorHandler as [h |]; [by apply Hh | apply keeps_ret].
    + intros _. apply keeps_bind; [| intros; apply keeps_ret].
      destruct showError; [apply keeps_emit | apply keeps_ret].
Qed.

Lemma keeps_send_on_conn self query :
  keeps R (Pool.send_on_conn env self query).
Proof.
  apply keeps_bind; [apply keeps_gets |].
  intros [c |]; [apply keeps_send | apply keeps_throw].
Qed.


Lemma keeps_begin self cl showError :
  keeps R (Pool.Transaction.begin env self cl showError).
Proof.
  apply keeps_bind; [apply keeps_gets |]. intros [c |]; [apply keeps_emit |].
  apply keeps_bind; [done |]. intros _.
  apply keeps_bind; [| intros; apply keeps_ret].
  apply keeps_queryHandler; [apply keeps_send_on_conn | done].
Qed.



Lemma keeps_query_tryHandler query values showQuery transaction :
  keeps R (Pool.query_tryHandler env query values showQuery transaction).
Proof.
  unfold Pool.query_tryHandler. apply keeps_bind.
  { destruct transaction as [t |]; [| apply keeps_ret].
    apply keeps_bind; [apply keeps_gets |]. intros [c |]; [apply keeps_ret |].
    apply keeps_bind; [apply keeps_connect | intros; apply keeps_begin]. }
  intros _. apply keeps_bind.
  { destruct transaction as [t |]; [| apply keeps_ret].
    apply keeps_bind; [apply keeps_gets | intros; apply keeps_ret]. }
  intros on. apply keeps_bind.
  { destruct showQuery; [apply keeps_emit | apply keeps_ret]. }
  intros _. destruct on; [apply keeps_send | apply keeps_throw].
Qed.



End Keeps.

Global Instance same_flags_preorder : PreOrder same_flags.
Proof.
  split; [by intros w t |].
  intros w1 w2 w3 H12 H23 t. by rewrite H23.
Qed.

Lemma same_flags_emit ev : keeps same_flags (emit ev).
Proof. by intros w t. Qed.

Lemma same_flags_set_conn t c : keeps same_flags (set_conn t c).
Proof.
  intros w t'. rewrite set_conn_run. cbn [snd].
  unfold with_conn, read_txn at 1, set_txns. cbn [txns].
  destruct (decide (t = t')) as [<- |].
  - destruct (decide (t < length (txns w))%nat).
    + by rewrite list_lookup_insert_eq.
    + by rewrite list_insert_ge by lia.
  - by rewrite list_lookup_insert_ne.
Qed.

(** [Pool.query], run: the result wraps the answer of [tryHandler]; on a
    failure the error handler runs first and the report is printed last. *)
Lemma query_run env query options w :
  let values := default [] (options ≫= DbQueryOptions.values) in
  let showError := default true (options ≫= DbQueryOptions.showError) in
  let showQuery := default false (options ≫= DbQueryOptions.showQuery) in
  let transaction := options ≫= DbQueryOptions.transaction in
  Pool.query env query options w =
  match Pool.query_tryHandler env query values showQuery transaction w with
  | (Return r, w1) => (Return (DbSuccess r), w1)
  | (Throw e, w1) =>
      (Return (DbFailed (Pool.error_result query values e)),
       add_log (reported showError query values (inl e))
         (Pool.query_errorHandler env transaction e w1).2)
  end.
Proof.
  intros values showError showQuery transaction.
  unfold Pool.query. fold values showError showQuery transaction.
  unfold Pool.queryHandler, try_catch. unfold bind at 1.
  destruct (Pool.query_tryHandler env query values showQuery transaction w)
    as [[r | e] w1]; [done |].
  cbn [default from_option id]. unfold bind at 1.
  destruct (total_query_errorHandler env transaction e w1) as ([] & w2 & ->).
  cbn [snd]. unfold bind, reported.
  destruct showError; [done |]. by rewrite add_log_nil.
Qed.

(** C5. When the [tryHandler] of [Pool.query] fails (the connection
    could not be obtained, or the driver rejected the statement) and the
    call was given a transaction whose [rollbackOnError] is set, the
    world the Failure is returned from is the one [transaction.rollback()]
    leaves, with the report of the failure printed after it. When the
    flag is not set, or no transaction was given, the Failure is returned
    from the world of the failure itself: no rollback runs. *)
Theorem query_failure_rolls_back :
  forall env query options w e w1,
    let values := default [] (options ≫= DbQueryOptions.values) in
    let showError := default true (options ≫= DbQueryOptions.showError) in
    let showQuery := default false (options ≫= DbQueryOptions.showQuery) in
    let transaction := options ≫= DbQueryOptions.transaction in
    let failure := Pool.error_result query values e in
    Pool.query_tryHandler env query values showQuery transaction w
    = (Throw e, w1) ->
    (forall t,
       transaction = Some t ->
       rollbackOnError (read_txn t w) = true ->
       Pool.query env query options w
       = (Return (DbFailed failure),
          add_log (reported showError query values (inl e))
            (Pool.Transaction.rollback env t None w1).2))
    /\ (forall t,
          transaction = Some t ->
          rollbackOnError (read_txn t w) = false ->
          Pool.query env query options w
          = (Return (DbFailed failure),
             add_log (reported showError query values (inl e)) w1))
    /\ (transaction = None ->
        Pool.query env query options w
        = (Return (DbFailed failure),
           add_log (reported showError query values (inl e)) w1)).
Proof.
  intros env query options w e w1 values showError showQuery transaction
    failure Htry.
  assert (forall t, rollbackOnError (read_txn t w1) = rollbackOnError (read_txn t w))
    as Hflags.
  { pose proof (keeps_query_tryHandler same_flags env same_flags_emit
                  same_flags_set_conn query values showQuery transaction w) as H.
    by rewrite Htry in H. }
  pose proof (query_run env query options w) as Hrun. cbv zeta in Hrun.
  fold values showError showQuery transaction in Hrun.
  rewrite Htry in Hrun. fold failure in Hrun. rewrite Hrun.
  repeat split.
  - intros t Ht Hflag. rewrite Ht.
    unfold Pool.query_errorHandler, bind, get_rollbackOnError, gets.
    by rewrite Hflags, Hflag.
  - intros t Ht Hflag. rewrite Ht.
    unfold Pool.query_errorHandler, bind, get_rollbackOnError, gets.
    by rewrite Hflags, Hflag.
  - intros Ht. by rewrite Ht.
Qed.

Lemma query_failure_rolls_back_witness :
  Pool.query select_fails "SELECT 1" (through 0%nat) one_bound
  = (Return (DbFailed (Pool.error_result "SELECT 1" [] boom)),
     mk_world [mk_transaction None true] [] [] Db.Script.new []
       [EvQuery (OnClient 7%nat) "SELECT 1" (Some []) (inl boom);
        EvQuery (OnClient 7%nat) "ROLLBACK" None (inr (QueryResult.mk [] None));
        EvRelease 7%nat;
        EvLog [LogText (ch_red "DB QUERY ERROR:");
               LogFailure (Pool.error_result "SELECT 1" [] boom)]]).
Proof.
  destruct (query_failure_rolls_back select_fails "SELECT 1" (through 0%nat)
              one_bound boom
              (add_log [EvQuery (OnClient 7%nat) "SELECT 1" (Some []) (inl boom)]
                 one_bound)
              eq_refl) as (Hroll & _).
  rewrite (Hroll 0%nat eq_refl eq_refl). reflexivity.
Defined.

(** ** sync *)

Lemma txns_add_log evs w : txns (add_log evs w) = txns w.
Proof. done. Qed.

Lemma log_add_log evs w : log (add_log evs w) = log w ++ evs.
Proof. done. Qed.

(** The [tryHandler] of [Pool.query] on a transaction that already holds
    the client [c]: the statement goes to [c], after the optional trace
    of the query. *)
Lemma query_tryHandler_bound env query values (showQuery : bool) t c tx w :
  txns w !! t = Some tx ->
  conn tx = Some c ->
  let w0 := add_log (if showQuery then [EvLog [LogQuery query values]] else []) w in
  let answer := driver_query env (log w0) (OnClient c) query (Some values) in
  Pool.query_tryHandler env query values showQuery (Some t) w
  = (match answer with inr r => Return r | inl e => Throw e end,
     add_log [EvQuery (OnClient c) query (Some values) answer] w0).
Proof.
  intros Htx Hc w0 answer.
  unfold Pool.query_tryHandler, bind, get_conn, gets.
  rewrite (read_txn_lookup _ _ _ Htx), Hc. cbn [ret option_map].
  assert ((if showQuery then console_log [LogQuery query values] else ret tt) w
          = (Return tt, w0)) as ->.
  { subst w0. destruct showQuery; [done |]. by rewrite add_log_nil. }
  rewrite ?(read_txn_lookup _ _ _ Htx), ?Hc. cbn [option_map].
  unfold send. fold answer. by destruct answer.
Qed.

Lemma isSuccess_failed f : Pool.isSuccess (Pool.to_object (DbFailed f)) = false.
Proof.
  unfold Pool.isSuccess. cbn [Pool.isSuccess_loop].
  unfold obj_get, prop_get, Pool.to_object. cbn [prop_own String.eqb Ascii.eqb Bool.eqb].
  by destruct (DbErrorResult.message f).
Qed.

Lemma isSuccess_succeeded r : Pool.isSuccess (Pool.to_object (DbSuccess r)) = true.
Proof. by vm_compute. Qed.

Lemma sync_statement_run env t c query w :
  txns w !! t = Some (mk_transaction (Some c) true) ->
  let answer := driver_query env (log w) (OnClient c) query (Some []) in
  Db.sync_statement env t query w =
  match answer with
  | inr r => (Return Next, add_log [statement_event c query (inr r)] w)
  | inl e => (Return Returned, abandoned env t c query e w)
  end.
Proof.
  intros Htx answer. unfold Db.sync_statement, bind.
  rewrite query_run. cbn [mbind option_bind DbQueryOptions.values
    DbQueryOptions.showError DbQueryOptions.showQuery
    DbQueryOptions.transaction default from_option id].
  erewrite query_tryHandler_bound by done.
  rewrite add_log_nil. fold answer.
  destruct answer as [e | r].
  - rewrite isSuccess_failed. cbn [negb]. unfold ret, abandoned. do 2 f_equal.
    unfold Pool.query_errorHandler, bind, get_rollbackOnError, gets.
    erewrite read_txn_lookup by (rewrite txns_add_log; done).
    cbn [rollbackOnError].
    by erewrite rollback_run by (rewrite ?txns_add_log; done).
  - by rewrite isSuccess_succeeded.
Qed.

(** *** Loops *)

Lemma for_of_app {A} (l1 l2 : list A) body w :
  for_of (l1 ++ l2) body w =
  match for_of l1 body w with
  | (Return Next, w1) => for_of l2 body w1
  | other => other
  end.
Proof.
  revert w. induction l1 as [| x l1 IH]; intros w; [done |].
  cbn [app for_of]. unfold bind.
  destruct (body x w) as [[[|] | e] w1]; [apply IH | done | done].
Qed.

Lemma for_of_concat {A} (ls : list (list A)) body w :
  for_of ls (fun l => for_of l body) w = for_of (concat ls) body w.
Proof.
  revert w. induction ls as [| l ls IH]; intros w; [done |].
  cbn [concat for_of]. rewrite for_of_app. unfold bind.
  destruct (for_of l body w) as [[[|] | e] w1]; [apply IH | done | done].
Qed.

Lemma for_of_fmap {A B} (f : A -> B) (l : list A) body w :
  for_of (f <$> l) body w = for_of l (fun x => body (f x)) w.
Proof.
  revert w. induction l as [| x l IH]; intros w; [done |].
  cbn [fmap list_fmap for_of]. unfold bind.
  destruct (body (f x) w) as [[[|] | e] w1]; [apply IH | done | done].
Qed.

Lemma sync_loop_flat env t f w :
  Db.sync_loop env t f w = for_of (sync_queries f) (Db.sync_statement env t) w.
Proof.
  unfold Db.sync_loop, sync_queries.
  by rewrite <- for_of_concat, <- for_of_concat, for_of_fmap.
Qed.

(** The statement loop on a transaction that holds [c] and rolls back on
    error: either every statement is accepted, or the loop returns at the
    first one the driver rejects. *)
Lemma statements_run env t c qs : forall w,
  txns w !! t = Some (mk_transaction (Some c) true) ->
  (exists evs,
      accepted env c (log w) qs evs
      /\ for_of qs (Db.sync_statement env t) w = (Return Next, add_log evs w))
  \/ (exists n q e evs,
        qs !! n = Some q
        /\ accepted env c (log w) (take n qs) evs
        /\ driver_query env (log w ++ evs) (OnClient c) q (Some []) = inl e
        /\ for_of qs (Db.sync_statement env t) w
           = (Return Returned, abandoned env t c q e (add_log evs w))).
Proof.
  induction qs as [| q qs IH]; intros w Htx.
  - left. exists []. split; [constructor |]. by rewrite add_log_nil.
  - cbn [for_of]. unfold bind. rewrite (sync_statement_run env t c) by done.
    destruct (driver_query env (log w) (OnClient c) q (Some [])) as [e | r]
      eqn:Hanswer.
    + right. exists 0%nat, q, e, []. split; [done |]. split; [constructor |].
      split; [by rewrite app_nil_r |]. by rewrite add_log_nil.
    + destruct (IH (add_log [statement_event c q (inr r)] w) Htx) as
        [(evs & Hevs & Hrun) | (n & q' & e & evs & Hq' & Hevs & He & Hrun)].
      * left. exists (statement_event c q (inr r) :: evs). split.
        -- by constructor.
        -- by rewrite Hrun, add_log_app.
      * right. exists (S n), q', e, (statement_event c q (inr r) :: evs).
        split; [done |]. split; [by constructor |]. split.
        -- rewrite log_add_log, <- app_assoc in He. done.
        -- by rewrite Hrun, add_log_app.
Qed.

Lemma transaction_run env c w :
  pool_connect env (log w) = inr c ->
  Db.transaction env roll_back_on_error w
  = (Return (length (txns w)), opened env c w)
  /\ txns (opened env c w) !! length (txns w)
     = Some (mk_transaction (Some c) true)
  /\ script (opened env c w) = script w.
Proof.
  intros Hconnect. split; [| split].
  - unfold Db.transaction, Pool.transaction, bind at 1, Pool.Transaction.new.
    cbn [roll_back_on_error mbind option_bind TransactionOptions.rollbackOnError
         default from_option id].
    unfold bind at 1, connect. cbn [log set_txns]. rewrite Hconnect.
    unfold bind at 1.
    pose (w1 := set_log (fun l => l ++ [EvConnect (inr c)])
                  (set_txns (fun l => l ++ [mk_transaction None true]) w)).
    assert (txns w1 !! length (txns w) = Some (mk_transaction None true))
      as Htx.
    { subst w1. cbn [txns set_log set_txns]. by apply list_lookup_middle. }
    fold w1. rewrite (begin_run env _ c None _ w1 Htx eq_refl). unfold ret, opened. f_equal.
    subst w1. destruct w as [txs os cs sc ss l]. unfold with_conn, add_log, set_log, set_txns, read_txn.
    cbn [txns objs script syncScripts log default from_option].
    rewrite list_lookup_middle by done. cbn [rollbackOnError from_option].
    f_equal.
    replace (length txs) with (length txs + 0)%nat at 1 by lia.
    by rewrite insert_app_r.
  - unfold opened. cbn [txns add_log set_log set_txns].
    by apply list_lookup_middle.
  - done.
Qed.

(** [sync({ alter: true, onSuccessAlter })] once the pool has handed out
    the client [c]. *)
Lemma sync_alter_run env onSuccessAlter c w :
  pool_connect env (log w) = inr c ->
  let t := length (txns w) in
  let w1 := opened env c w in
  let qs := sync_queries (folder (script w)) in
  (exists evs,
      accepted env c (log w1) qs evs
      /\ Db.sync env (alter_with onSuccessAlter) w
         = (default (fun _ => ret tt) onSuccessAlter t ;;
            Pool.Transaction.commit env t None) (add_log evs w1))
  \/ (exists n q e evs,
        qs !! n = Some q
        /\ accepted env c (log w1) (take n qs) evs
        /\ driver_query env (log w1 ++ evs) (OnClient c) q (Some []) = inl e
        /\ Db.sync env (alter_with onSuccessAlter) w
           = (Return tt, abandoned env t c q e (add_log evs w1))).
Proof.
  intros Hconnect t w1 qs.
  destruct (transaction_run env c w Hconnect) as (Hopen & Htx & Hscript).
  fold t w1 in Hopen, Htx, Hscript.
  assert (
    Db.sync env (alter_with onSuccessAlter) w
    = match for_of qs (Db.sync_statement env t) w1 with
      | (Return f, w2) =>
          match f with
          | Returned => (Return tt, w2)
          | Next =>
              (default (fun _ => ret tt) onSuccessAlter t ;;
               Pool.Transaction.commit env t None) w2
          end
      | (Throw e, w2) => (Throw e, w2)
      end) as Hsync.
  { unfold Db.sync.
    cbn [alter_with mbind option_bind SyncOptions.alter
         SyncOptions.onSuccessAlter default from_option id negb].
    unfold bind at 1. fold roll_back_on_error. rewrite Hopen.
    unfold bind at 1, gets. unfold bind at 1.
    rewrite sync_loop_flat. unfold Db.Script.getFolder. rewrite Hscript.
    fold qs.
    destruct (for_of qs (Db.sync_statement env t) w1) as [[[|] | e] w2];
      [| done | done].
    by destruct onSuccessAlter. }
  destruct (statements_run env t c qs w1 Htx) as
    [(evs & Hevs & Hrun) | (n & q & e & evs & Hq & Hevs & He & Hrun)];
    rewrite Hrun in Hsync.
  - left. by exists evs.
  - right. by exists n, q, e, evs.
Qed.

(** C6. In [sync({ alter: true })] (the pool having handed out the
    client [c]) exactly one of two things happens. Either the driver
    accepts every statement of the buckets; then the callback is called
    with the transaction, which still holds [c], and then [commit] is
    called on it. Or the driver accepts the first [n] statements and
    rejects the next one; then [sync] returns from the world in which that
    statement was rolled back and reported: no later statement was sent,
    the callback did not run and [commit] was not called, the last
    statements sent being the rejected one and [ROLLBACK]. *)
Theorem sync_stops_at_first_failure :
  forall env onSuccessAlter c w,
    pool_connect env (log w) = inr c ->
    let t := length (txns w) in
    let w1 := opened env c w in
    let qs := sync_queries (folder (script w)) in
    (exists evs,
        accepted env c (log w1) qs evs
        /\ conn (read_txn t (add_log evs w1)) = Some c
        /\ Db.sync env (alter_with onSuccessAlter) w
           = (default (fun _ => ret tt) onSuccessAlter t ;;
              Pool.Transaction.commit env t None) (add_log evs w1))
    \/ (exists n q e evs,
          qs !! n = Some q
          /\ accepted env c (log w1) (take n qs) evs
          /\ driver_query env (log w1 ++ evs) (OnClient c) q (Some []) = inl e
          /\ Db.sync env (alter_with onSuccessAlter) w
             = (Return tt, abandoned env t c q e (add_log evs w1))
          /\ log (abandoned env t c q e (add_log evs w1))
             = log w1 ++ evs
               ++ [statement_event c q (inl e);
                   EvQuery (OnClient c) "ROLLBACK" None
                     (driver_query env
                        (log w1 ++ evs ++ [statement_event c q (inl e)])
                        (OnClient c) "ROLLBACK" None)]
               ++ reported true "ROLLBACK" []
                    (driver_query env
                       (log w1 ++ evs ++ [statement_event c q (inl e)])
                       (OnClient c) "ROLLBACK" None)
               ++ [EvRelease c]
               ++ reported true q [] (inl e)
          /\ conn (read_txn t (abandoned env t c q e (add_log evs w1))) = None).
Proof.
  intros env onSuccessAlter c w Hconnect t w1 qs.
  destruct (transaction_run env c w Hconnect) as (_ & Htx & _).
  fold t w1 in Htx.
  destruct (sync_alter_run env onSuccessAlter c w Hconnect) as
    [(evs & Hevs & Hrun) | (n & q & e & evs & Hq & Hevs & He & Hrun)].
  - left. exists evs. split; [done |]. split; [| done].
    by erewrite read_txn_lookup by (rewrite txns_add_log; done).
  - right. exists n, q, e, evs. repeat (split; [done |]). split.
    + unfold abandoned, closed_by.
      cbn [log add_log set_log with_conn set_txns default].
      rewrite <- !app_assoc. cbn [app]. by rewrite <- !app_assoc.
    + unfold abandoned. cbn [add_log set_log read_txn txns].
      fold (read_txn t (closed_by env "ROLLBACK" None t c
              (add_log [statement_event c q (inl e)] (add_log evs w1)))).
      by erewrite read_txn_lookup by
        (eapply closed_by_unbound; rewrite !txns_add_log; done).
Qed.

(** ** Own properties after an assignment *)

Section PropertyFacts.
Context {A : Type}.
Implicit Types (o : jsobj A) (k : string) (v : A).

Lemma prop_own_None o k : prop_own o k = None <-> k ∉ Object_keys o.
Proof.
  unfold Object_keys. induction o as [| [k' v'] o IH]; cbn.
  - split; [intros _; apply not_elem_of_nil | done].
  - rewrite not_elem_of_cons. destruct (String.eqb_spec k' k) as [-> | Hne].
    + split; [done | by intros [? _]].
    + rewrite IH. split; [by intros ?; split | by intros [_ ?]].
Qed.

Lemma prop_own_cons k0 v0 o k :
  prop_own ((k0, v0) :: o) k = if decide (k0 = k) then Some v0 else prop_own o k.
Proof.
  cbn [prop_own]. destruct (String.eqb_spec k0 k);
    [by rewrite decide_True | by rewrite decide_False].
Qed.

Lemma prop_own_app o1 o2 k :
  prop_own (o1 ++ o2) k =
  match prop_own o1 k with Some x => Some x | None => prop_own o2 k end.
Proof.
  induction o1 as [| [k0 v0] o1 IH]; [done |].
  rewrite <- app_comm_cons, !prop_own_cons. by case_decide.
Qed.

Lemma prop_own_replace o k v k' :
  k <> k' -> prop_own (prop_replace o k v) k' = prop_own o k'.
Proof.
  intros Hne. induction o as [| [k0 v0] o IH]; [done |].
  cbn [prop_replace]. destruct (String.eqb_spec k0 k) as [-> | Hne0].
  - rewrite !prop_own_cons. by rewrite !decide_False.
  - rewrite !prop_own_cons. by rewrite IH.
Qed.

Lemma prop_own_replace_eq o k v x :
  prop_own o k = Some x -> prop_own (prop_replace o k v) k = Some v.
Proof.
  induction o as [| [k0 v0] o IH]; [done |].
  cbn [prop_replace]. destruct (String.eqb_spec k0 k) as [-> | Hne0].
  - rewrite !prop_own_cons. by rewrite !decide_True.
  - rewrite !prop_own_cons. by rewrite !decide_False.
Qed.

Lemma keys_replace o k v : Object_keys (prop_replace o k v) = Object_keys o.
Proof.
  unfold Object_keys. induction o as [| [k0 v0] o IH]; [done |].
  cbn [prop_replace]. destruct (String.eqb k0 k); cbn; [done |].
  by rewrite IH.
Qed.

Lemma prop_own_insert_index_ne o n k v k' :
  k <> k' -> prop_own (prop_insert_index o n k v) k' = prop_own o k'.
Proof.
  intros Hne. induction o as [| [k0 v0] o IH].
  - cbn [prop_insert_index]. by rewrite prop_own_cons, decide_False.
  - cbn [prop_insert_index].
    destruct (array_index k0) as [n' |]; [destruct (n <? n')%N |].
    + by rewrite (prop_own_cons k v), decide_False.
    + by rewrite !(prop_own_cons k0 v0), IH.
    + by rewrite (prop_own_cons k v), decide_False.
Qed.

Lemma prop_own_insert_index_eq o n k v :
  prop_own o k = None -> prop_own (prop_insert_index o n k v) k = Some v.
Proof.
  induction o as [| [k0 v0] o IH]; intros Hnone.
  - cbn [prop_insert_index]. by rewrite prop_own_cons, decide_True.
  - rewrite prop_own_cons in Hnone. case_decide; [done |].
    cbn [prop_insert_index].
    destruct (array_index k0) as [n' |]; [destruct (n <? n')%N |].
    + by rewrite (prop_own_cons k v), decide_True.
    + rewrite (prop_own_cons k0 v0), decide_False by done. by apply IH.
    + by rewrite (prop_own_cons k v), decide_True.
Qed.

Lemma keys_insert_index o n k v :
  Object_keys (prop_insert_index o n k v) ≡ₚ k :: Object_keys o.
Proof.
  unfold Object_keys. induction o as [| [k0 v0] o IH]; [done |].
  cbn [prop_insert_index].
  destruct (array_index k0) as [n' |]; [destruct (n <? n')%N |]; [done | | done].
  cbn [fmap list_fmap fst]. cbn [fmap] in IH. rewrite IH. apply Permutation_swap.
Qed.

Lemma prop_own_set_eq o k v : prop_own (prop_set o k v) k = Some v.
Proof.
  unfold prop_set. destruct (prop_own o k) as [x |] eqn:Hown.
  - by eapply prop_own_replace_eq.
  - destruct (array_index k) as [n |].
    + by apply prop_own_insert_index_eq.
    + rewrite prop_own_app, Hown. by rewrite prop_own_cons, decide_True.
Qed.

Lemma prop_own_set_ne o k v k' :
  k <> k' -> prop_own (prop_set o k v) k' = prop_own o k'.
Proof.
  intros Hne. unfold prop_set. destruct (prop_own o k) as [x |] eqn:Hown.
  - by apply prop_own_replace.
  - destruct (array_index k) as [n |].
    + by apply prop_own_insert_index_ne.
    + rewrite prop_own_app. destruct (prop_own o k'); [done |].
      by rewrite prop_own_cons, decide_False.
Qed.

Lemma keys_set_NoDup o k v :
  NoDup (Object_keys o) -> NoDup (Object_keys (prop_set o k v)).
Proof.
  intros Hnodup. unfold prop_set. destruct (prop_own o k) as [x |] eqn:Hown.
  - by rewrite keys_replace.
  - apply prop_own_None in Hown. destruct (array_index k) as [n |].
    + rewrite keys_insert_index. by constructor.
    + unfold Object_keys in *. rewrite fmap_app. cbn.
      apply NoDup_app. split; [done |]. split; [| apply NoDup_singleton].
      intros k0 Hin ->%list_elem_of_singleton. done.
Qed.

End PropertyFacts.

(** ** What the loop of define leaves as it was *)

Section KeepsColumns.
Context (R : relation World) `{!PreOrder R}.
Hypothesis keeps_cols : forall f w, R w (set_cols f w).



Lemma keeps_column_literals entries :
  keeps R (AccessControl.column_literals entries).
Proof.
  induction entries as [| [key val] entries IH]; [apply (keeps_ret R) |].
  cbn [AccessControl.column_literals].
  apply (keeps_bind R); [intros w; apply keeps_cols |]. intros r.
  apply (keeps_bind R); [done |]. intros rest. apply (keeps_ret R).
Qed.

End KeepsColumns.

(** ** The script: buckets are created together and only grow *)

Lemma grows_refl f : grows f f.
Proof. intros type name bucket H. exists []. by rewrite app_nil_r. Qed.

Lemma grows_trans f1 f2 f3 : grows f1 f2 -> grows f2 f3 -> grows f1 f3.
Proof.
  intros H12 H23 type name bucket H.
  destruct (H12 _ _ _ H) as (a1 & H1). destruct (H23 _ _ _ H1) as (a2 & H2).
  exists (a1 ++ a2). by rewrite app_assoc.
Qed.

Global Instance evolves_preorder : PreOrder evolves.
Proof.
  split.
  - intros f Hwf. split; [done | apply grows_refl].
  - intros f1 f2 f3 H12 H23 Hwf. destruct (H12 Hwf) as [Hwf2 Hg12].
    destruct (H23 Hwf2) as [Hwf3 Hg23]. split; [done |]. by eapply grows_trans.
Qed.

Lemma folder_get_set f type r type' :
  Db.Script.folder_get (Db.Script.folder_set f type r) type' =
  if decide (type = type') then r else Db.Script.folder_get f type'.
Proof. by destruct type, type'. Qed.

Lemma prop_get_Own {A} (o : jsobj A) k a :
  prop_get o k = Own a <-> prop_own o k = Some a.
Proof.
  unfold prop_get. destruct (prop_own o k); [| case_bool_decide]; naive_solver.
Qed.

Lemma prop_get_Missing {A} (o : jsobj A) k :
  prop_get o k = Missing -> prop_own o k = None.
Proof. unfold prop_get. by destruct (prop_own o k). Qed.

Lemma bucket_push_evolves f type name query f' :
  Db.Script.bucket_push f type name query = inr f' -> evolves f f'.
Proof.
  unfold Db.Script.bucket_push.
  destruct (prop_get (Db.Script.folder_get f type) name) as [bucket | |] eqn:Hget;
    [| done | done].
  apply prop_get_Own in Hget. intros [= <-] [Hnodup Hall].
  assert (forall type' name',
    is_Some (prop_own (Db.Script.folder_get
      (Db.Script.folder_set f type
         (prop_set (Db.Script.folder_get f type) name (bucket ++ [query])))
      type') name')
    <-> is_Some (prop_own (Db.Script.folder_get f type') name')) as Hsame.
  { intros type' name'. rewrite folder_get_set. case_decide; [subst | done].
    destruct (decide (name = name')) as [<- |].
    - rewrite prop_own_set_eq, Hget. by split.
    - by rewrite prop_own_set_ne. }
  split; [split |].
  - intros type'. rewrite folder_get_set. case_decide; [| done].
    by apply keys_set_NoDup.
  - intros name' type1 type2. rewrite !Hsame. apply Hall.
  - intros type' name' bucket' Hown. rewrite folder_get_set.
    case_decide; [subst type' |]; [| exists []; by rewrite app_nil_r].
    destruct (decide (name = name')) as [<- |].
    + rewrite prop_own_set_eq. exists [query]. congruence.
    + rewrite prop_own_set_ne by done. exists []. by rewrite app_nil_r.
Qed.

Lemma addSchema_loop_get f name type :
  Db.Script.folder_get
    (Db.Script.addSchema_loop Db.Script.folder_keys name f) type
  = prop_set (Db.Script.folder_get f type) name [].
Proof. by destruct type. Qed.

Lemma hasSchema_loop_false types name :
  Db.Script.hasSchema_loop types name = false ->
  exists type, type ∈ types /\ prop_get type name = Missing.
Proof.
  induction types as [| type types IH]; [done |]. cbn [Db.Script.hasSchema_loop].
  destruct (prop_get type name) eqn:Hget.
  - intros (t & ? & ?)%IH. exists t. split; [by right | done].
  - intros (t & ? & ?)%IH. exists t. split; [by right | done].
  - intros _. exists type. split; [by left | done].
Qed.

Lemma addSchema_evolves name self self' :
  Db.Script.hasSchema name self = false ->
  Db.Script.addSchema name self = inr self' ->
  evolves (folder self) (folder self').
Proof.
  intros Hhas Hadd [Hnodup Hall].
  assert (forall type, prop_own (Db.Script.folder_get (folder self) type) name = None)
    as Hnone.
  { apply hasSchema_loop_false in Hhas as (o & Ho & Hmissing).
    apply list_elem_of_fmap in Ho as (type0 & -> & _).
    apply prop_get_Missing in Hmissing. intros type.
    destruct (prop_own (Db.Script.folder_get (folder self) type) name) eqn:Hown;
      [| done].
    destruct (Hall name type type0) as [x Hx]; [by eexists | congruence]. }
  pose (f1 := Db.Script.addSchema_loop Db.Script.folder_keys name (folder self)).
  assert (evolves (folder self) f1) as Hfirst.
  { intros _. split; [split |].
    - intros type. unfold f1. rewrite addSchema_loop_get. by apply keys_set_NoDup.
    - intros name' type1 type2. unfold f1. rewrite !addSchema_loop_get.
      destruct (decide (name = name')) as [<- |].
      + rewrite !prop_own_set_eq. by eexists.
      + rewrite !prop_own_set_ne by done. apply Hall.
    - intros type name' bucket Hown. unfold f1. rewrite addSchema_loop_get.
      destruct (decide (name = name')) as [<- |]; [by rewrite Hnone in Hown |].
      rewrite prop_own_set_ne by done. exists []. by rewrite app_nil_r. }
  unfold Db.Script.addSchema in Hadd. fold f1 in Hadd.
  destruct (Db.Script.bucket_push f1 Qschema name _) as [e | f2] eqn:Hpush1;
    [done |].
  destruct (Db.Script.bucket_push f2 Qschema name _) as [e | f3] eqn:Hpush2;
    [done |].
  injection Hadd as <-. cbn [folder].
  apply bucket_push_evolves in Hpush1, Hpush2.
  assert (evolves (folder self) f3) as Hfinal.
  { etrans; [exact Hfirst |]. etrans; [exact Hpush1 | exact Hpush2]. }
  apply Hfinal. by split.
Qed.

Lemma setSchema_evolves name self self' :
  Db.Script.setSchema name self = inr self' ->
  evolves (folder self) (folder self').
Proof.
  unfold Db.Script.setSchema.
  destruct (Db.Script.hasSchema name self) eqn:Hhas; cbn [negb].
  - by intros [= <-].
  - destruct (Db.Script.addSchema name self) as [e | s1] eqn:Hadd; [done |].
    intros [= <-]. cbn [folder]. by eapply addSchema_evolves.
Qed.

Lemma push_evolves type query self self' :
  Db.Script.push type query self = inr self' ->
  evolves (folder self) (folder self').
Proof.
  unfold Db.Script.push.
  destruct (Db.Script.bucket_push (folder self) type (schema self) query)
    as [e | f] eqn:Hpush; [done |].
  intros [= <-]. by eapply bucket_push_evolves.
Qed.

Global Instance script_evolves_preorder : PreOrder script_evolves.
Proof.
  split; [intros w; apply evolves_preorder |].
  intros w1 w2 w3. apply evolves_preorder.
Qed.



Lemma wf_folder_new : wf_folder (folder Db.Script.new).
Proof.
  split.
  - intros []; apply NoDup_nil_2.
  - by intros name [] [] [x Hx].
Qed.


(** ** The order of the statements of sync *)

Lemma fmap_concat {A B} (f : A -> B) (ls : list (list A)) :
  f <$> concat ls = concat (list_fmap A B f <$> ls).
Proof.
  induction ls as [| l ls IH]; [done |]. cbn. by rewrite fmap_app, IH.
Qed.







Global Instance of_bucket_dec type name x : Decision (of_bucket type name x).
Proof. unfold of_bucket. apply _. Defined.




Lemma statements_of_app l1 l2 :
  statements_of (l1 ++ l2) = statements_of l1 ++ statements_of l2.
Proof. apply omap_app. Qed.

Lemma statements_of_reported showError query values answer :
  statements_of (reported showError query values answer) = [].
Proof. unfold reported. by destruct answer, showError. Qed.


Lemma statements_of_closed_by env query showError t c w :
  statements_of (log (closed_by env query showError t c w))
  = statements_of (log w).
Proof.
  unfold closed_by. cbn [log with_conn set_txns add_log set_log].
  rewrite statements_of_app. unfold reported.
  destruct (driver_query env (log w) (OnClient c) query None),
           (default true showError); cbn; by rewrite app_nil_r.
Qed.


Lemma statements_of_opened env c w :
  statements_of (log (opened env c w)) = statements_of (log w).
Proof.
  unfold opened. cbn [log add_log set_log set_txns].
  rewrite !statements_of_app. unfold reported.
  destruct (driver_query env (log w ++ [EvConnect (inr c)]) (OnClient c)
              "COMMIT;" None); cbn; by rewrite !app_nil_r.
Qed.




Lemma sync_stops_at_first_failure_witness :
  let w := run_calls b_then_a two_tables in
  let w1 := opened create_fails 7%nat w in
  let qs := sync_queries (folder (script w)) in
  (exists evs,
      accepted create_fails 7%nat (log w1) qs evs
      /\ conn (read_txn 0%nat (add_log evs w1)) = Some 7%nat
      /\ Db.sync create_fails (alter_with None) w
         = (ret tt ;; Pool.Transaction.commit create_fails 0%nat None)
             (add_log evs w1))
  \/ (exists n q e evs,
        qs !! n = Some q
        /\ accepted create_fails 7%nat (log w1) (take n qs) evs
        /\ driver_query create_fails (log w1 ++ evs) (OnClient 7%nat) q (Some [])
           = inl e
        /\ Db.sync create_fails (alter_with None) w
           = (Return tt, abandoned create_fails 0%nat 7%nat q e (add_log evs w1))
        /\ log (abandoned create_fails 0%nat 7%nat q e (add_log evs w1))
           = log w1 ++ evs
             ++ [statement_event 7%nat q (inl e);
                 EvQuery (OnClient 7%nat) "ROLLBACK" None
                   (driver_query create_fails
                      (log w1 ++ evs ++ [statement_event 7%nat q (inl e)])
                      (OnClient 7%nat) "ROLLBACK" None)]
             ++ reported true "ROLLBACK" []
                  (driver_query create_fails
                     (log w1 ++ evs ++ [statement_event 7%nat q (inl e)])
                     (OnClient 7%nat) "ROLLBACK" None)
             ++ [EvRelease 7%nat]
             ++ reported true q [] (inl e)
        /\ conn (read_txn 0%nat
                   (abandoned create_fails 0%nat 7%nat q e (add_log evs w1)))
           = None).
Proof.
  exact (sync_stops_at_first_failure create_fails None 7%nat
           (run_calls b_then_a two_tables) eq_refl).
Defined.

(** ** Model operations *)

Lemma generate_fields self o delim :
  Placeholder.generate self (Placeholder.Fields o) delim
  = (join delim (numbered o (Placeholder.counter self + 1)),
     {| Placeholder.counter :=
          Placeholder.counter self + Z.of_nat (length (Object_keys o)) |}).
Proof.
  unfold Placeholder.generate. cbn [Placeholder.generate_parts].
  by rewrite assignment_loop_spec.
Qed.

Lemma generate_count self count delim :
  Placeholder.generate self (Placeholder.Count count) delim
  = (join delim (positional <$> seqZ (Placeholder.counter self + 1) count), self).
Proof.
  unfold Placeholder.generate. cbn [Placeholder.generate_parts].
  rewrite positional_loop_spec, seqZ_to_nat.
  by replace (Placeholder.counter self + count - Placeholder.counter self)
    with count by lia.
Qed.

Lemma where_clause_run placeholder where_ :
  Db.Model.where_clause placeholder where_
  = (where_text where_ (Placeholder.counter placeholder + 1),
     {| Placeholder.counter :=
          Placeholder.counter placeholder
          + Z.of_nat (length (from_option Object_keys [] where_)) |}).
Proof.
  destruct where_ as [o |]; cbn [Db.Model.where_clause where_text from_option].
  - by rewrite generate_fields.
  - destruct placeholder as [c]. cbn. f_equal. f_equal. lia.
Qed.

Lemma read_where_of options w :
  Db.Model.read_where options w = (Return (where_of options w), w).
Proof.
  unfold Db.Model.read_where, where_of.
  by destruct (options ≫= ModelOptions.where_).
Qed.

Lemma values_one where_ : Placeholder.values [where_] = values_of where_.
Proof. by destruct where_. Qed.

Lemma values_two body where_ :
  Placeholder.values [Some body; where_] = Object_values body ++ values_of where_.
Proof.
  unfold Placeholder.values. rewrite values_loop_spec.
  destruct where_; cbn; by rewrite ?app_nil_r.
Qed.

Lemma modelHandler_run {T} (null : T) (callback : M T) w :
  Db.modelHandler null callback w =
  match callback w with
  | (Return v, w1) => (Return v, w1)
  | (Throw e, w1) => (Return null, add_log [handler_line (e_message e)] w1)
  end.
Proof.
  unfold Db.modelHandler, try_catch. by destruct (callback w) as [[v | e] w1].
Qed.







Lemma handler_bind_return {A} (m : M A) (k : A -> M value) a w w0 :
  m w = (Return a, w0) ->
  Db.modelHandler VNull (x <- m ;; k x) w = Db.modelHandler VNull (k a) w0.
Proof. intros Hm. rewrite !modelHandler_run. unfold bind. by rewrite Hm. Qed.

















(** [create] on a success without rows: the driver accepts the INSERT
    and reports no row; the caller gets [undefined], which is neither a
    row nor [null]. *)
Lemma create_without_row_gives_undefined :
  let run := Db.Model.create quiet_env model_a [("x", VNum 1)] None fresh_world in
  statements_of (log run.2)
  = ["INSERT INTO public.a (x) VALUES ($1) RETURNING *;"]
  /\ rejected (log run.2) = []
  /\ run.1 = Return VUndefined
  /\ run.1 <> Return VNull
  /\ forall row, run.1 <> Return (VObj row).
Proof. by repeat split. Qed.

Global Instance same_objs_preorder : PreOrder same_objs.
Proof.
  split; [by intros w |]. intros w1 w2 w3 H12 H23. unfold same_objs in *.
  congruence.
Qed.





(** *** The assignment of the key *)











(** A caller's [where] object that holds the key already is left as it
    was by a by-pk operation; so is one that is frozen. *)
Lemma by_pk_leaves_a_where_that_holds_the_key :
  let options := Some (ModelOptions.mk (Some 0%nat) None) in
  let holds := mk_world [] [new_object [("id", VNum 5)]] [] Db.Script.new [] [] in
  let frozen :=
    mk_world [] [mk_cell [("x", VNum 1)] Frozen] [] Db.Script.new [] [] in
  objs (Db.Model.findByPk quiet_env model_a (PkNum 5) options holds).2
  = objs holds
  /\ objs (Db.Model.deleteByPk quiet_env model_a (PkNum 5) options holds).2
     = objs holds
  /\ objs (Db.Model.updateByPk quiet_env model_a (PkNum 5) 0%nat options holds).2
     = objs holds
  /\ objs (Db.Model.findByPk quiet_env model_a (PkNum 5) options frozen).2
     = objs frozen.
Proof. by repeat split. Qed.

(** * Further properties of the code *)

(** ** Where a query goes *)

Lemma traced_run (showQuery : bool) query values w :
  (if showQuery then console_log [LogQuery query values] else ret tt) w
  = (Return tt, add_log (traced showQuery query values) w).
Proof. destruct showQuery; [done |]. unfold traced. by rewrite add_log_nil. Qed.

Lemma query_on_pool_run env query options w :
  options ≫= DbQueryOptions.transaction = None ->
  let values := default [] (options ≫= DbQueryOptions.values) in
  let showError := default true (options ≫= DbQueryOptions.showError) in
  let showQuery := default false (options ≫= DbQueryOptions.showQuery) in
  let w0 := add_log (traced showQuery query values) w in
  let answer := driver_query env (log w0) OnPool query (Some values) in
  Pool.query env query options w
  = (Return (result_of query values answer),
     add_log (EvQuery OnPool query (Some values) answer
              :: reported showError query values answer) w0).
Proof.
  intros Hnone values showError showQuery w0 answer.
  rewrite query_run. fold values showError showQuery. rewrite Hnone.
  unfold Pool.query_tryHandler, bind at 1. cbn [ret].
  unfold bind at 1. cbn [ret]. unfold bind at 1.
  rewrite traced_run. fold w0. unfold send. fold answer.
  destruct answer as [e | r]; cbn [Pool.query_errorHandler ret snd result_of].
  - fold (add_log [EvQuery OnPool query (Some values) (inl e)] w0).
    by rewrite add_log_app.
  - done.
Qed.

Lemma query_bound_run env query options t c flag w :
  options ≫= DbQueryOptions.transaction = Some t ->
  txns w !! t = Some (mk_transaction (Some c) flag) ->
  let values := default [] (options ≫= DbQueryOptions.values) in
  let showError := default true (options ≫= DbQueryOptions.showError) in
  let showQuery := default false (options ≫= DbQueryOptions.showQuery) in
  let w0 := add_log (traced showQuery query values) w in
  let answer := driver_query env (log w0) (OnClient c) query (Some values) in
  let w1 := add_log [EvQuery (OnClient c) query (Some values) answer] w0 in
  Pool.query env query options w
  = match answer with
    | inr r => (Return (DbSuccess r), w1)
    | inl e =>
        (Return (DbFailed (Pool.error_result query values e)),
         add_log (reported showError query values (inl e))
           (if flag then closed_by env "ROLLBACK" None t c w1 else w1))
    end.
Proof.
  intros Ht Htx values showError showQuery w0 answer w1.
  rewrite query_run. fold values showError showQuery. rewrite Ht.
  rewrite (query_tryHandler_bound env query values showQuery t c _ w Htx eq_refl).
  fold (traced showQuery query values). fold w0. fold answer. fold w1.
  destruct answer as [e | r] eqn:Hanswer; [| done].
  do 2 f_equal.
  unfold Pool.query_errorHandler, bind, get_rollbackOnError, gets.
  erewrite read_txn_lookup by (subst w1 w0; rewrite !txns_add_log; done).
  cbn [rollbackOnError]. destruct flag; [| done].
  by erewrite rollback_run by (subst w1 w0; rewrite ?txns_add_log; done).
Qed.

(** X1. Where [Pool.query] sends its statement. Without a transaction
    the statement goes to the pool itself: no client is taken, no
    instance is touched, and the result wraps the answer of the driver, a
    failure being reported after the call. Through a transaction that
    holds the client [c] the statement goes to [c] and nowhere else; a
    failure is returned as data, after [ROLLBACK] and the release of [c]
    when the transaction rolls back on error, with [c] still held when it
    does not. In both cases the trace that [showQuery] asks for is printed
    before the call. *)
Theorem query_goes_where_the_transaction_is :
  forall env query options w,
    let values := default [] (options ≫= DbQueryOptions.values) in
    let showError := default true (options ≫= DbQueryOptions.showError) in
    let showQuery := default false (options ≫= DbQueryOptions.showQuery) in
    let w0 := add_log (traced showQuery query values) w in
    (options ≫= DbQueryOptions.transaction = None ->
     let answer := driver_query env (log w0) OnPool query (Some values) in
     Pool.query env query options w
     = (Return (result_of query values answer),
        add_log (EvQuery OnPool query (Some values) answer
                 :: reported showError query values answer) w0))
    /\ (forall t c flag,
          options ≫= DbQueryOptions.transaction = Some t ->
          txns w !! t = Some (mk_transaction (Some c) flag) ->
          let answer :=
            driver_query env (log w0) (OnClient c) query (Some values) in
          let w1 := add_log [EvQuery (OnClient c) query (Some values) answer] w0 in
          Pool.query env query options w
          = match answer with
            | inr r => (Return (DbSuccess r), w1)
            | inl e =>
                (Return (DbFailed (Pool.error_result query values e)),
                 add_log (reported showError query values (inl e))
                   (if flag then closed_by env "ROLLBACK" None t c w1 else w1))
            end).
Proof.
  intros env query options w values showError showQuery w0. split.
  - intros Hnone answer. by apply query_on_pool_run.
  - intros t c flag Ht Htx answer w1. by apply query_bound_run.
Qed.

Lemma query_goes_where_the_transaction_is_witness :
  Pool.query select_fails "SELECT 1" None fresh_world
  = (Return (DbFailed (Pool.error_result "SELECT 1" [] boom)),
     mk_world [] [] [] Db.Script.new []
       [EvQuery OnPool "SELECT 1" (Some []) (inl boom);
        EvLog [LogText (ch_red "DB QUERY ERROR:");
               LogFailure (Pool.error_result "SELECT 1" [] boom)]]).
Proof.
  exact (proj1 (query_goes_where_the_transaction_is select_fails "SELECT 1"
                  None fresh_world) eq_refl).
Defined.

Lemma connect_run env w :
  connect env w
  = (match pool_connect env (log w) with inr c => Return c | inl e => Throw e end,
     add_log [EvConnect (pool_connect env (log w))] w).
Proof. unfold connect. by destruct (pool_connect env (log w)). Qed.

Lemma lazily_bound_lookup env t c tx w :
  txns w !! t = Some tx ->
  txns (lazily_bound env t c w) !! t
  = Some (mk_transaction (Some c) (rollbackOnError tx)).
Proof.
  intros Htx. unfold lazily_bound. rewrite txns_add_log.
  apply with_conn_lookup. by rewrite txns_add_log.
Qed.

Lemma query_tryHandler_unbound env query values (showQuery : bool) t tx w :
  txns w !! t = Some tx ->
  conn tx = None ->
  Pool.query_tryHandler env query values showQuery (Some t) w
  = match pool_connect env (log w) with
    | inr c =>
        Pool.query_tryHandler env query values showQuery (Some t)
          (lazily_bound env t c w)
    | inl e => (Throw e, add_log [EvConnect (inl e)] w)
    end.
Proof.
  intros Htx Hconn.
  unfold Pool.query_tryHandler at 1. unfold bind at 1. unfold bind at 1.
  unfold get_conn at 1, gets at 1.
  rewrite (read_txn_lookup _ _ _ Htx), Hconn.
  unfold bind at 1. rewrite connect_run.
  destruct (pool_connect env (log w)) as [e | c]; [done |].
  erewrite begin_run by (rewrite ?txns_add_log; done).
  cbn [default]. fold (lazily_bound env t c w).
  pose proof (lazily_bound_lookup env t c tx w Htx) as Hbound.
  symmetry. unfold Pool.query_tryHandler. unfold bind at 1. unfold bind at 1.
  unfold get_conn at 1, gets at 1.
  by rewrite (read_txn_lookup _ _ _ Hbound).
Qed.

Lemma close_unbound_run env self how showError tx w :
  txns w !! self = Some tx ->
  conn tx = None ->
  close env self how showError w = (Return tt, add_log [not_established] w).
Proof.
  intros Htx Hconn.
  destruct how; cbn [close];
    unfold Pool.Transaction.commit, Pool.Transaction.rollback, bind, get_conn, gets;
    by rewrite (read_txn_lookup _ _ _ Htx), Hconn.
Qed.

Lemma query_unbound_run env query options t tx w :
  options ≫= DbQueryOptions.transaction = Some t ->
  txns w !! t = Some tx ->
  conn tx = None ->
  let values := default [] (options ≫= DbQueryOptions.values) in
  let showError := default true (options ≫= DbQueryOptions.showError) in
  Pool.query env query options w
  = match pool_connect env (log w) with
    | inr c => Pool.query env query options (lazily_bound env t c w)
    | inl e =>
        (Return (DbFailed (Pool.error_result query values e)),
         add_log (EvConnect (inl e)
                  :: (if rollbackOnError tx then [not_established] else [])
                  ++ reported showError query values (inl e)) w)
    end.
Proof.
  intros Ht Htx Hconn values showError.
  rewrite query_run. fold values showError. rewrite Ht.
  rewrite (query_tryHandler_unbound env query values _ t tx w Htx Hconn).
  destruct (pool_connect env (log w)) as [e | c].
  - unfold Pool.query_errorHandler, bind, get_rollbackOnError, gets.
    erewrite read_txn_lookup by (rewrite txns_add_log; done).
    destruct (rollbackOnError tx).
    + change (Pool.Transaction.rollback env t None)
        with (close env t ByRollback None).
      rewrite (close_unbound_run env t ByRollback None tx)
        by (rewrite ?txns_add_log; done).
      cbn [snd]. by rewrite !add_log_app.
    + cbn [ret snd app]. by rewrite add_log_app.
  - rewrite (query_run env query options (lazily_bound env t c w)).
    fold values showError. by rewrite Ht.
Qed.

(** X2. A query through a transaction that holds no client first asks
    the pool for one. When the pool hands out [c], the query goes on
    exactly as on the transaction that [begin] has bound to [c] (after
    [COMMIT;] was sent on [c]). When the pool refuses with [e], the
    statement is never sent: the result is the Failure made of [e], the
    transaction still holds nothing, and when it rolls back on error the
    only trace of that is the line saying that no connection is
    established. *)
Theorem query_begins_lazily :
  forall env query options t tx w,
    options ≫= DbQueryOptions.transaction = Some t ->
    txns w !! t = Some tx ->
    conn tx = None ->
    let values := default [] (options ≫= DbQueryOptions.values) in
    let showError := default true (options ≫= DbQueryOptions.showError) in
    (forall c,
       pool_connect env (log w) = inr c ->
       Pool.query env query options w
       = Pool.query env query options (lazily_bound env t c w)
       /\ txns (lazily_bound env t c w) !! t
          = Some (mk_transaction (Some c) (rollbackOnError tx)))
    /\ (forall e,
          pool_connect env (log w) = inl e ->
          Pool.query env query options w
          = (Return (DbFailed (Pool.error_result query values e)),
             add_log (EvConnect (inl e)
                      :: (if rollbackOnError tx then [not_established] else [])
                      ++ reported showError query values (inl e)) w)).
Proof.
  intros env query options t tx w Ht Htx Hconn values showError.
  pose proof (query_unbound_run env query options t tx w Ht Htx Hconn) as Hrun.
  cbv zeta in Hrun. fold values showError in Hrun.
  split.
  - intros c Hc. rewrite Hc in Hrun. split; [done |].
    by apply lazily_bound_lookup.
  - intros e He. by rewrite He in Hrun.
Qed.

Lemma query_begins_lazily_witness :
  Pool.query quiet_env "SELECT 1" (through 0%nat) one_unbound
  = Pool.query quiet_env "SELECT 1" (through 0%nat)
      (lazily_bound quiet_env 0%nat 7%nat one_unbound).
Proof.
  exact (proj1 (proj1 (query_begins_lazily quiet_env "SELECT 1" (through 0%nat)
                         0%nat (mk_transaction None true) one_unbound
                         eq_refl eq_refl eq_refl) 7%nat eq_refl)).
Defined.

(** X4. [Pool.query] never throws, and [isSuccess] tells its two kinds
    of result apart: it answers [true] exactly for the results of the
    driver and [false] exactly for the objects that the [catch] branch of
    [queryHandler] builds. Such an object carries the statement and the
    values of the call, the code of the error (ER_INTERNAL_ERROR when it
    has none) and its [sqlMessage] (the error itself when it has none). *)
Theorem query_results_are_classified :
  forall env query options w,
    let values := default [] (options ≫= DbQueryOptions.values) in
    exists response w',
      Pool.query env query options w = (Return response, w')
      /\ (Pool.isSuccess (Pool.to_object response) = true
          <-> exists r, response = DbSuccess r)
      /\ (Pool.isSuccess (Pool.to_object response) = false
          <-> exists e,
                response = DbFailed (Pool.error_result query values e))
      /\ (forall f,
            response = DbFailed f ->
            DbErrorResult.query f = query
            /\ DbErrorResult.values f = values
            /\ exists e,
                 DbErrorResult.code f = default "ER_INTERNAL_ERROR" (e_code e)
                 /\ DbErrorResult.message f
                    = from_option MsgText (MsgError e) (e_sqlMessage e)).
Proof.
  intros env query options w values.
  rewrite query_run. fold values.
  destruct (Pool.query_tryHandler env query values _ _ w) as [[r | e] w1].
  - eexists _, _. split; [done |]. rewrite isSuccess_succeeded.
    split; [| split].
    + split; [by eexists | done].
    + split; [done | by intros [e [=]]].
    + by intros f [=].
  - eexists _, _. split; [done |]. rewrite isSuccess_failed.
    split; [| split].
    + split; [done | by intros [r [=]]].
    + split; [by eexists | done].
    + intros f [= <-]. split; [done |]. split; [done |]. exists e.
      split; [done |]. cbn. by destruct (e_sqlMessage e).
Qed.

(** ** Clients taken and handed back *)

Lemma close_bound_run env self how showError c tx w :
  txns w !! self = Some tx ->
  conn tx = Some c ->
  close env self how showError w
  = (Return tt, closed_by env (closing_statement how) showError self c w).
Proof.
  intros Htx Hc. destruct how; cbn [close closing_statement];
    [by eapply commit_run | by eapply rollback_run].
Qed.

Lemma releases_app l1 l2 : releases (l1 ++ l2) = releases l1 ++ releases l2.
Proof. apply omap_app. Qed.

Lemma releases_query on query values answer l :
  releases (EvQuery on query values answer :: l) = releases l.
Proof. done. Qed.

Lemma releases_reported showError query values answer :
  releases (reported showError query values answer) = [].
Proof. unfold reported. by destruct answer, showError. Qed.

Lemma releases_closed_by env query showError t c w :
  releases (log (closed_by env query showError t c w)) = releases (log w) ++ [c].
Proof.
  unfold closed_by. cbn [log with_conn set_txns add_log set_log].
  rewrite releases_app. f_equal.
  by rewrite releases_query, releases_app, releases_reported.
Qed.

(** X3. A transaction is closed once. [commit] or [rollback] on an
    instance that holds [c] releases [c] exactly once; a further [commit]
    or [rollback] sends nothing and releases nothing, it only prints that
    the connection is not established; and the instance can be begun
    again, with any client. *)
Theorem transaction_closes_once :
  forall env self c tx w first showError,
    txns w !! self = Some tx ->
    conn tx = Some c ->
    let w1 := closed_by env (closing_statement first) showError self c w in
    close env self first showError w = (Return tt, w1)
    /\ releases (log w1) = releases (log w) ++ [c]
    /\ (forall second showError',
          close env self second showError' w1
          = (Return tt, add_log [not_established] w1))
    /\ (forall cl showError',
          conn (read_txn self
                  (Pool.Transaction.begin env self cl showError' w1).2)
          = Some cl).
Proof.
  intros env self c tx w first showError Htx Hc w1.
  pose proof (closed_by_unbound env (closing_statement first) showError
                self c tx w Htx) as Hclosed.
  fold w1 in Hclosed.
  split; [by eapply close_bound_run |].
  split; [apply releases_closed_by |]. split.
  - intros second showError'. by eapply close_unbound_run.
  - intros cl showError'.
    erewrite begin_run by done. cbn [snd].
    rewrite <- with_conn_add_log.
    erewrite read_txn_lookup; [| apply with_conn_lookup]; [done |].
    by rewrite txns_add_log.
Qed.

Lemma transaction_closes_once_witness :
  (Pool.Transaction.commit quiet_env 0%nat None ;;
   Pool.Transaction.rollback quiet_env 0%nat None) one_bound
  = (Return tt,
     mk_world [mk_transaction None true] [] [] Db.Script.new []
       [EvQuery (OnClient 7%nat) "COMMIT;" None (inr (QueryResult.mk [] None));
        EvRelease 7%nat;
        not_established]).
Proof.
  destruct (transaction_closes_once quiet_env 0%nat 7%nat
              (mk_transaction (Some 7%nat) true) one_bound ByCommit None
              eq_refl eq_refl) as (Hfirst & _ & Hsecond & _).
  unfold bind. cbn [close] in Hfirst. rewrite Hfirst.
  specialize (Hsecond ByRollback None). cbn [close] in Hsecond.
  rewrite Hsecond. reflexivity.
Defined.

Lemma transaction_refused_run env options e w :
  pool_connect env (log w) = inl e ->
  Db.transaction env options w
  = (Throw e,
     unopened (default false (options ≫= TransactionOptions.rollbackOnError)) e w).
Proof.
  intros Hconnect.
  unfold Db.transaction, Pool.transaction, bind at 1, Pool.Transaction.new.
  unfold bind at 1. rewrite connect_run. cbn [log set_txns]. by rewrite Hconnect.
Qed.

(** X5. When the pool hands out no client, [Db.transaction] throws the
    error of the pool, and so does [sync({ alter: true })]: the error is
    not caught, no statement is sent and no callback runs. The instance
    that was made stays behind, without connection. *)
Theorem sync_rejects_without_connection :
  forall env e w,
    pool_connect env (log w) = inl e ->
    (forall options,
       Db.transaction env options w
       = (Throw e,
          unopened (default false (options ≫= TransactionOptions.rollbackOnError))
            e w))
    /\ (forall onSuccessAlter,
          Db.sync env (alter_with onSuccessAlter) w = (Throw e, unopened true e w))
    /\ (forall flag,
          statements_of (log (unopened flag e w)) = statements_of (log w)
          /\ conn (read_txn (length (txns w)) (unopened flag e w)) = None).
Proof.
  intros env e w Hconnect. split; [| split].
  - intros options. by apply transaction_refused_run.
  - intros onSuccessAlter. unfold Db.sync.
    cbn [alter_with mbind option_bind SyncOptions.alter default from_option id negb].
    unfold bind at 1. by rewrite (transaction_refused_run env _ e w Hconnect).
  - intros flag. split.
    + unfold unopened. rewrite log_add_log, statements_of_app. cbn.
      by rewrite app_nil_r.
    + unfold unopened, read_txn. rewrite txns_add_log. cbn [txns set_txns].
      by rewrite list_lookup_middle.
Qed.

Lemma sync_rejects_without_connection_witness :
  Db.sync no_pool (alter_with None) (run_calls b_then_a two_tables)
  = (Throw boom, unopened true boom (run_calls b_then_a two_tables)).
Proof.
  exact (proj1 (proj2 (sync_rejects_without_connection no_pool boom
                         (run_calls b_then_a two_tables) eq_refl)) None).
Defined.

Lemma probes_run env queries : forall w,
  for_of queries (fun query => _ <- Pool.query env query None ;; ret Next) w
  = (Return Next, add_log (probes env (log w) queries) w).
Proof.
  induction queries as [| query queries IH]; intros w.
  - cbn [for_of probes]. by rewrite add_log_nil.
  - cbn [for_of probes]. unfold bind at 1. unfold bind at 1.
    rewrite (query_on_pool_run env query None w eq_refl).
    cbn [mbind option_bind default from_option id traced].
    rewrite add_log_nil. cbn [ret]. rewrite IH.
    by rewrite log_add_log, add_log_app.
Qed.

Lemma statements_of_probes env queries : forall l,
  statements_of (probes env l queries) = queries.
Proof.
  induction queries as [| query queries IH]; intros l; [done |].
  cbn [probes]. rewrite statements_of_app, IH.
  change (statements_of (EvQuery ?on ?q (Some ?vs) ?a :: ?evs))
    with (q :: statements_of evs).
  by rewrite statements_of_reported.
Qed.

Lemma probes_on_pool env queries : forall l,
  Forall on_the_pool (probes env l queries).
Proof.
  induction queries as [| query queries IH]; intros l; [constructor |].
  cbn [probes]. apply Forall_app. split; [| apply IH].
  constructor; [done |]. unfold reported.
  destruct (driver_query env l OnPool query (Some [])); [| constructor].
  by repeat constructor.
Qed.

(** X6. [sync()] without [alter] sends the statements of [syncScripts],
    all of them and in their order, each on the pool and with no bound
    value; a statement that the driver rejects is reported and the loop
    goes on. It takes no client, touches no transaction and returns
    normally. *)
Theorem sync_without_alter_probes :
  forall env options w,
    default false (options ≫= SyncOptions.alter) = false ->
    let evs := probes env (log w) (syncScripts w) in
    Db.sync env options w = (Return tt, add_log evs w)
    /\ statements_of evs = syncScripts w
    /\ Forall on_the_pool evs.
Proof.
  intros env options w Halter evs. split; [| split].
  - unfold Db.sync. rewrite Halter. cbn [negb].
    unfold bind at 1, gets. unfold bind at 1. by rewrite probes_run.
  - apply statements_of_probes.
  - apply probes_on_pool.
Qed.

Lemma sync_without_alter_probes_witness :
  statements_of
    (log (Db.sync select_fails None (run_calls b_then_a two_tables)).2)
  = ["SELECT id, a_id FROM public.b;"; "SELECT id, x FROM public.a;"].
Proof.
  rewrite (proj1 (sync_without_alter_probes select_fails None
                    (run_calls b_then_a two_tables) eq_refl)).
  reflexivity.
Defined.

Lemma connections_app l1 l2 :
  connections (l1 ++ l2) = connections l1 ++ connections l2.
Proof. apply omap_app. Qed.

Lemma connections_query on query values answer l :
  connections (EvQuery on query values answer :: l) = connections l.
Proof. done. Qed.

Lemma connections_reported showError query values answer :
  connections (reported showError query values answer) = [].
Proof. unfold reported. by destruct answer, showError. Qed.

Lemma releases_accepted env c l qs evs :
  accepted env c l qs evs -> releases evs = [].
Proof. induction 1; [done |]. done. Qed.

Lemma connections_accepted env c l qs evs :
  accepted env c l qs evs -> connections evs = [].
Proof. induction 1; [done |]. done. Qed.

Lemma connections_closed_by env query showError t c w :
  connections (log (closed_by env query showError t c w)) = connections (log w).
Proof.
  unfold closed_by. cbn [log with_conn set_txns add_log set_log].
  rewrite connections_app, connections_query, connections_app.
  rewrite connections_reported. cbn. by rewrite app_nil_r.
Qed.

Lemma releases_opened env c w :
  releases (log (opened env c w)) = releases (log w).
Proof.
  unfold opened. cbn [log add_log set_log set_txns].
  rewrite !releases_app, releases_query, releases_reported.
  cbn. by rewrite !app_nil_r.
Qed.

Lemma connections_opened env c w :
  connections (log (opened env c w)) = connections (log w) ++ [c].
Proof.
  unfold opened. cbn [log add_log set_log set_txns].
  rewrite !connections_app, connections_query, connections_reported.
  cbn. by rewrite !app_nil_r.
Qed.

Lemma txns_closed_by_last env query showError c c' flag w txs :
  txns w = txs ++ [mk_transaction c' flag] ->
  txns (closed_by env query showError (length txs) c w)
  = txs ++ [mk_transaction None flag].
Proof.
  intros Htxns. unfold closed_by, with_conn, read_txn.
  cbn [txns set_txns add_log set_log]. rewrite Htxns.
  rewrite list_lookup_middle by done. cbn [default from_option id rollbackOnError].
  replace (length txs) with (length txs + 0)%nat at 1 by lia.
  by rewrite insert_app_r.
Qed.

Lemma txns_opened env c w :
  txns (opened env c w) = txns w ++ [mk_transaction (Some c) true].
Proof. done. Qed.

(** X7. [sync({ alter: true })] without callback hands back the client
    it took. Whether every statement was accepted or one was rejected, it
    returns normally, the pool has handed out exactly one client, that
    client was released exactly once, and the transaction instance that
    was made is left without connection. *)
Theorem sync_alter_hands_back_connection :
  forall env c w,
    pool_connect env (log w) = inr c ->
    let run := Db.sync env (alter_with None) w in
    run.1 = Return tt
    /\ txns run.2 = txns w ++ [mk_transaction None true]
    /\ connections (log run.2) = connections (log w) ++ [c]
    /\ releases (log run.2) = releases (log w) ++ [c].
Proof.
  intros env c w Hconnect run. subst run.
  destruct (transaction_run env c w Hconnect) as (_ & Htx & _).
  destruct (sync_alter_run env None c w Hconnect) as
    [(evs & Hevs & Hrun) | (n & q & e & evs & Hq & Hevs & He & Hrun)];
    rewrite Hrun.
  - cbn [default]. unfold bind, ret.
    erewrite commit_run by (rewrite ?txns_add_log; done). cbn [fst snd].
    split; [done |]. split; [| split].
    + eapply txns_closed_by_last. rewrite !txns_add_log. apply txns_opened.
    + rewrite connections_closed_by, log_add_log, connections_app.
      rewrite connections_opened, (connections_accepted _ _ _ _ _ Hevs).
      by rewrite app_nil_r.
    + rewrite releases_closed_by, log_add_log, releases_app.
      rewrite releases_opened, (releases_accepted _ _ _ _ _ Hevs).
      by rewrite app_nil_r.
  - cbn [fst snd]. split; [done |]. unfold abandoned.
    rewrite txns_add_log, !log_add_log.
    split; [| split].
    + eapply txns_closed_by_last. rewrite !txns_add_log. apply txns_opened.
    + rewrite connections_app, connections_reported, app_nil_r.
      rewrite connections_closed_by, !log_add_log, !connections_app.
      rewrite connections_opened, (connections_accepted _ _ _ _ _ Hevs).
      cbn. by rewrite !app_nil_r.
    + rewrite releases_app, releases_reported, app_nil_r.
      rewrite releases_closed_by, !log_add_log, !releases_app.
      rewrite releases_opened, (releases_accepted _ _ _ _ _ Hevs).
      cbn. by rewrite !app_nil_r.
Qed.

Lemma sync_alter_hands_back_connection_witness :
  releases (log (Db.sync create_fails (alter_with None)
                   (run_calls b_then_a two_tables)).2)
  = [7%nat].
Proof.
  exact (proj2 (proj2 (proj2
           (sync_alter_hands_back_connection create_fails 7%nat
              (run_calls b_then_a two_tables) eq_refl)))).
Defined.

(** ** The registry of definitions *)


Lemma prop_get_Missing_iff {A} (o : jsobj A) k :
  prop_get o k = Missing <-> prop_own o k = None /\ k ∉ Object_prototype_keys.
Proof.
  unfold prop_get. destruct (prop_own o k); [by split; [| intros []] |].
  case_bool_decide; split; [done | by intros [] | done | done].
Qed.

Lemma hasSchema_true name self :
  Db.Script.hasSchema name self = true <->
  forall type, prop_get (Db.Script.folder_get (folder self) type) name <> Missing.
Proof.
  unfold Db.Script.hasSchema, Db.Script.folder_keys.
  cbn [fmap list_fmap Db.Script.hasSchema_loop Db.Script.folder_get].
  split.
  - intros Hhas [];
      cbn [Db.Script.folder_get]; intros Hmissing;
      repeat match type of Hhas with
             | context [prop_get ?o name] =>
                 let H := fresh in destruct (prop_get o name) eqn:H
             end; congruence.
  - intros Hall.
    pose proof (Hall Qcreate) as H1. pose proof (Hall Qdrop) as H2.
    pose proof (Hall Qdrop_constraint) as H3. pose proof (Hall Qschema) as H4.
    pose proof (Hall Qalter) as H5. cbn [Db.Script.folder_get] in *.
    destruct (prop_get (f_create (folder self)) name); [| | done];
    destruct (prop_get (f_drop (folder self)) name); try done;
    destruct (prop_get (f_drop_constraint (folder self)) name); try done;
    destruct (prop_get (f_schema (folder self)) name); try done;
    destruct (prop_get (f_alter (folder self)) name); done.
Qed.

(** A name that is not inherited has its five buckets once [hasSchema]
    answers [true]. *)
Lemma hasSchema_own name self type :
  name ∉ Object_prototype_keys ->
  Db.Script.hasSchema name self = true ->
  is_Some (bucket_at (folder self) type name).
Proof.
  intros Hname Hhas. unfold bucket_at.
  pose proof (proj1 (hasSchema_true name self) Hhas type) as Hget.
  destruct (prop_own (Db.Script.folder_get (folder self) type) name) eqn:Hown;
    [by eexists |].
  destruct Hget. by apply prop_get_Missing_iff.
Qed.


Lemma hasSchema_false_name name self :
  Db.Script.hasSchema name self = false -> name ∉ Object_prototype_keys.
Proof.
  intros (o & _ & Hmissing)%hasSchema_loop_false.
  by apply prop_get_Missing_iff in Hmissing as [_ ?].
Qed.

(** [bucket_push] on a bucket_at that exists. *)
Lemma bucket_push_run f type name query b :
  bucket_at f type name = Some b ->
  exists f',
    Db.Script.bucket_push f type name query = inr f'
    /\ bucket_at f' type name = Some (b ++ [query])
    /\ forall type' name',
         (type', name') <> (type, name) ->
         bucket_at f' type' name' = bucket_at f type' name'.
Proof.
  unfold bucket_at. intros Hown. unfold Db.Script.bucket_push.
  rewrite (proj2 (prop_get_Own _ _ _) Hown).
  eexists. split; [done |]. split.
  - by rewrite folder_get_set, decide_True, prop_own_set_eq.
  - intros type' name' Hne. rewrite folder_get_set.
    case_decide; [subst type' | done].
    rewrite prop_own_set_ne; [done | congruence].
Qed.

Lemma addSchema_run name self :
  exists self',
    Db.Script.addSchema name self = inr self'
    /\ schema self' = schema self
    /\ (forall type, bucket_at (folder self') type name = Some (new_bucket type name))
    /\ (forall type name',
          name' <> name ->
          bucket_at (folder self') type name' = bucket_at (folder self) type name').
Proof.
  unfold Db.Script.addSchema.
  pose (f1 := Db.Script.addSchema_loop Db.Script.folder_keys name (folder self)).
  fold f1.
  assert (forall type, bucket_at f1 type name = Some []) as Hnew.
  { intros type. unfold bucket_at, f1. by rewrite addSchema_loop_get, prop_own_set_eq. }
  assert (forall type name', name' <> name ->
            bucket_at f1 type name' = bucket_at (folder self) type name') as Hold.
  { intros type name' Hne. unfold bucket_at, f1.
    by rewrite addSchema_loop_get, prop_own_set_ne. }
  destruct (bucket_push_run f1 Qschema name
              ("DROP SCHEMA IF EXISTS " +:+ name +:+ ";") [] (Hnew Qschema))
    as (f2 & -> & Hf2 & Hf2').
  destruct (bucket_push_run f2 Qschema name
              ("CREATE SCHEMA IF NOT EXISTS " +:+ name +:+ ";") _ Hf2)
    as (f3 & -> & Hf3 & Hf3').
  eexists. split; [done |]. cbn [folder schema]. split; [done |]. split.
  - intros type. unfold new_bucket. case_decide; [by subst type |].
    rewrite Hf3', Hf2' by congruence. apply Hnew.
  - intros type name' Hne. rewrite Hf3', Hf2' by congruence. by apply Hold.
Qed.

(** [setSchema] never throws. *)
Lemma setSchema_run name self :
  exists self',
    Db.Script.setSchema name self = inr self'
    /\ schema self' = name
    /\ (forall type name',
          name' <> name ->
          bucket_at (folder self') type name' = bucket_at (folder self) type name')
    /\ if Db.Script.hasSchema name self
       then folder self' = folder self
       else forall type,
              bucket_at (folder self') type name = Some (new_bucket type name).
Proof.
  unfold Db.Script.setSchema.
  destruct (Db.Script.hasSchema name self) eqn:Hhas; cbn [negb].
  - eexists. by repeat split.
  - destruct (addSchema_run name self) as (s1 & -> & _ & Hnew & Hold).
    eexists. by repeat split.
Qed.

Lemma setSchema_buckets name self :
  name ∉ Object_prototype_keys ->
  exists self',
    Db.Script.setSchema name self = inr self'
    /\ schema self' = name
    /\ (forall type,
          bucket_at (folder self') type name = Some (bucket_before self type name))
    /\ (forall type name',
          name' <> name ->
          bucket_at (folder self') type name' = bucket_at (folder self) type name').
Proof.
  intros Hname.
  destruct (setSchema_run name self) as (self' & Hrun & Hschema & Hold & Hnew).
  exists self'. repeat (split; [done |]). split; [| done].
  intros type. unfold bucket_before.
  destruct (Db.Script.hasSchema name self) eqn:Hhas; [| done].
  rewrite Hnew.
  by destruct (hasSchema_own name self type Hname Hhas) as [b ->].
Qed.

Lemma on_script_run method s' w :
  method (script w) = inr s' ->
  Db.on_script method w = (Return tt, set_script (fun _ => s') w).
Proof. intros Hrun. unfold Db.on_script. by rewrite Hrun. Qed.

Lemma on_script_throw method e w :
  method (script w) = inl e ->
  Db.on_script method w = (Throw e, w).
Proof. intros Hrun. unfold Db.on_script. by rewrite Hrun. Qed.

Lemma push_run type query self name b :
  schema self = name ->
  bucket_at (folder self) type name = Some b ->
  exists self',
    Db.Script.push type query self = inr self'
    /\ schema self' = name
    /\ bucket_at (folder self') type name = Some (b ++ [query])
    /\ forall type' name',
         (type', name') <> (type, name) ->
         bucket_at (folder self') type' name' = bucket_at (folder self) type' name'.
Proof.
  intros <- Hb. unfold Db.Script.push.
  destruct (bucket_push_run _ _ _ query _ Hb) as (f' & -> & Hnew & Hold).
  by eexists.
Qed.


(** *** Column objects at the loop of [define] *)

Lemma set_cols_id f w : f (cols w) = cols w -> set_cols f w = w.
Proof. intros H. destruct w. unfold set_cols. cbn in *. by rewrite H. Qed.

Lemma alter_lookup {A} (f : A -> A) (l : list A) i x :
  l !! i = Some x -> alter f i l = <[i := f x]> l.
Proof.
  intros Hx. apply list_eq. intros j.
  rewrite list_lookup_alter, list_lookup_insert.
  destruct (decide (i = j)) as [<- |].
  - rewrite Hx, decide_True; [done |]. split; [done | by eapply lookup_lt_Some].
  - rewrite decide_False; [done | by intros [? _]].
Qed.

Lemma alter_dangling {A} (f : A -> A) (l : list A) i :
  l !! i = None -> alter f i l = l.
Proof.
  intros Hx. apply list_eq. intros j. rewrite list_lookup_alter.
  case_decide; [subst j; by rewrite Hx | done].
Qed.

Lemma default_flag_at f (val : cref) c w :
  cols w !! val = Some c ->
  Db.default_flag f val w
  = match Db.flag_write f c (default false (ColumnOptions.get f (content c))) with
    | inr c' => (Return tt, set_cols (fun l => <[val := c']> l) w)
    | inl e => (Throw e, w)
    end.
Proof. intros H. unfold Db.default_flag. by rewrite H. Qed.

Lemma stored_at (val : cref) c c' w :
  cols w !! val = Some c ->
  cols (set_cols (fun l => <[val := c']> l) w) !! val = Some c'.
Proof.
  intros H. cbn [cols set_cols]. apply list_lookup_insert_eq.
  by eapply lookup_lt_Some.
Qed.

Lemma stored_same (val : cref) c w :
  cols w !! val = Some c -> set_cols (fun l => <[val := c]> l) w = w.
Proof. intros H. apply set_cols_id. by apply list_insert_id. Qed.

Lemma stored_twice (val : cref) c c' w :
  set_cols (fun l => <[val := c']> l) (set_cols (fun l => <[val := c]> l) w)
  = set_cols (fun l => <[val := c']> l) w.
Proof. destruct w. unfold set_cols. cbn. by rewrite list_insert_insert_eq. Qed.

Lemma stored_defaulted (val : cref) c w :
  cols w !! val = Some c ->
  set_cols (fun l => <[val := defaulted c]> l) w
  = set_cols (fun l => alter defaulted val l) w.
Proof.
  intros H. destruct w. unfold set_cols. cbn in *. by rewrite (alter_lookup _ _ _ c).
Qed.

Ltac column_step Hc :=
  lazymatch goal with
  | |- (Throw _, _) = (Throw _, _) =>
      first [reflexivity | rewrite (stored_same _ _ _ Hc); reflexivity]
  | |- (Db.default_flag ?f ?val ;; _) (set_cols (fun l => <[ ?val := ?c ]> l) ?w) = _ =>
      unfold bind at 1;
      rewrite (default_flag_at f val c _ (stored_at val _ c w Hc));
      cbn -[bind set_cols]; rewrite ?stored_twice
  | |- (_ <- Db.read_col ?val ;; _) (set_cols (fun l => <[ ?val := ?c ]> l) ?w) = _ =>
      replace (set_cols (fun l => <[val := c]> l) w)
        with (set_cols (fun l => alter defaulted val l) w)
        by (by rewrite <- (stored_defaulted _ _ _ Hc));
      reflexivity
  end.

(** One pass of the loop of [define] over a column object: the three
    assignments, then the reads. *)
Lemma column_pass {A} (val : cref) (k : ColumnOptions.t -> M A) w :
  (Db.default_flag ColumnOptions.AllowNull val ;;
   Db.default_flag ColumnOptions.PrimaryKey val ;;
   Db.default_flag ColumnOptions.Unique val ;;
   c <- Db.read_col val ;; k c) w
  = match refusal (column_at w val) with
    | Some e => (Throw e, w)
    | None =>
        let w' := set_cols (fun l => alter defaulted val l) w in
        k (content (column_at w' val)) w'
    end.
Proof.
  unfold column_at. destruct (cols w !! val) as [c |] eqn:Hc; cbn [default].
  - destruct c as [[ty an dv pk un] lv].
    destruct lv, an as [an |], pk as [pk |], un as [un |].
    all: unfold bind at 1; rewrite (default_flag_at _ _ _ _ Hc); cbn -[bind set_cols].
    all: repeat column_step Hc.
  - change (refusal Db.no_column) with (@None js_error). cbv beta zeta.
    rewrite (set_cols_id _ w) by (by apply alter_dangling).
    unfold bind, Db.default_flag, Db.read_col, gets. by rewrite !Hc.
Qed.

Lemma flag_settled_default old new :
  flag_settled old new -> default false new = default false old.
Proof. by intros [-> | [-> ->]]. Qed.

Lemma refusal_extensible c : level c = Extensible -> refusal c = None.
Proof. destruct c as [c []]; [| done | done]. intros _. by cbv. Qed.

Lemma refusal_settled c c' : column_settled c c' -> refusal c' = refusal c.
Proof.
  intros (Hlevel & _ & _ & _ & Hsame).
  destruct (level c) eqn:Hext.
  - rewrite !refusal_extensible; [done | done | congruence].
  - by rewrite Hsame.
  - by rewrite Hsame.
Qed.

Lemma primary_settled c c' :
  column_settled c c' ->
  default false (ColumnOptions.primaryKey (content c'))
  = default false (ColumnOptions.primaryKey (content c)).
Proof.
  intros (_ & _ & _ & Hflags & _).
  exact (flag_settled_default _ _ (Hflags ColumnOptions.PrimaryKey)).
Qed.

Lemma clause_settled key c c' :
  column_settled c c' ->
  Db.column_clause key (content c') = Db.column_clause key (content c).
Proof.
  intros (_ & Htype & Hdefault & Hflags & _). unfold Db.column_clause.
  rewrite Htype, Hdefault.
  pose proof (flag_settled_default _ _ (Hflags ColumnOptions.AllowNull)) as Ha.
  pose proof (flag_settled_default _ _ (Hflags ColumnOptions.PrimaryKey)) as Hp.
  pose proof (flag_settled_default _ _ (Hflags ColumnOptions.Unique)) as Hu.
  cbn [ColumnOptions.get] in Ha, Hp, Hu. by rewrite Ha, Hp, Hu.
Qed.

Lemma defaulted_settled c : refusal c = None -> column_settled c (defaulted c).
Proof.
  intros Href. repeat split; try done.
  - intros []; cbn; destruct (ColumnOptions.allowNull (content c)),
      (ColumnOptions.primaryKey (content c)), (ColumnOptions.unique (content c));
      cbn; unfold flag_settled; auto.
  - intros Hlevel. destruct c as [[ty an dv pk un] lv].
    destruct lv, an, pk, un; done.
Qed.

Global Instance column_settled_preorder : PreOrder column_settled.
Proof.
  split.
  - intros c. repeat split; try done. intros f. by left.
  - intros c1 c2 c3 (Hl12 & Ht12 & Hd12 & Hf12 & Hs12) (Hl23 & Ht23 & Hd23 & Hf23 & Hs23).
    repeat split; try congruence.
    + intros f. specialize (Hf12 f). specialize (Hf23 f).
      unfold flag_settled in *. naive_solver congruence.
    + intros Hlevel. rewrite Hs23, Hs12; [done | done | congruence].
Qed.

Global Instance columns_settled_preorder : PreOrder columns_settled.
Proof.
  split.
  - intros w. split; [done |]. intros val. reflexivity.
  - intros w1 w2 w3 [Hlen12 H12] [Hlen23 H23]. split; [congruence |].
    intros val. exact (transitivity (H12 val) (H23 val)).
Qed.

Lemma column_at_altered f (val val' : cref) w :
  column_at (set_cols (fun l => alter f val l) w) val'
  = if decide (val = val' /\ (val < length (cols w))%nat)
    then f (column_at w val') else column_at w val'.
Proof.
  unfold column_at. cbn [cols set_cols]. rewrite list_lookup_alter.
  unfold cref in *. case_decide as Heq.
  - subst val'. destruct (cols w !! val) as [c |] eqn:Hc; cbn.
    + rewrite decide_True; [done |]. split; [done | by eapply lookup_lt_Some].
    + rewrite decide_False; [done |]. intros [_ Hlt].
      apply lookup_ge_None in Hc. lia.
  - rewrite decide_False; [done | by intros []].
Qed.

Lemma settle_settled (val : cref) w :
  refusal (column_at w val) = None ->
  columns_settled w (set_cols (fun l => alter defaulted val l) w).
Proof.
  intros Href. split; [cbn [cols set_cols]; by rewrite length_alter |].
  intros val'. rewrite column_at_altered. case_decide as Heq; [| reflexivity].
  destruct Heq as [<- _]. by apply defaulted_settled.
Qed.

Lemma stops_at_settled w w' entries :
  columns_settled w w' -> stops_at w' entries = stops_at w entries.
Proof.
  intros [_ Hs]. induction entries as [| entry entries IH]; [done |].
  cbn [stops_at]. by rewrite (refusal_settled _ _ (Hs entry.2)), IH.
Qed.

Lemma clauses_settled w w' entries :
  columns_settled w w' ->
  (fun entry : string * ColumnOptions.t => Db.column_clause entry.1 entry.2)
    <$> columns_of w' entries
  = (fun entry : string * ColumnOptions.t => Db.column_clause entry.1 entry.2)
    <$> columns_of w entries.
Proof.
  intros [_ Hs]. unfold columns_of. rewrite <- !list_fmap_compose.
  apply list_fmap_ext. intros _ entry _. cbn. by apply clause_settled.
Qed.

Lemma pk_of_settled w w' entries :
  columns_settled w w' ->
  pk_of (columns_of w' entries) = pk_of (columns_of w entries).
Proof.
  intros [_ Hs]. unfold pk_of.
  enough ((filter (fun entry => is_primary entry = true) (columns_of w' entries)).*1
          = (filter (fun entry => is_primary entry = true) (columns_of w entries)).*1)
    as -> by done.
  unfold columns_of.
  induction entries as [| entry entries IH]; [done |].
  rewrite !fmap_cons. cbn [filter list_filter].
  pose proof (primary_settled _ _ (Hs entry.2)) as Hp.
  repeat case_decide; rewrite ?fmap_cons; cbn [fst];
    first [exact IH | f_equal; exact IH
          | unfold is_primary in *; cbn [snd] in *; congruence].
Qed.


Lemma keys_columns_of w entries :
  Object_keys (columns_of w entries) = Object_keys entries.
Proof.
  unfold Object_keys, columns_of. rewrite <- list_fmap_compose.
  by apply list_fmap_ext.
Qed.


Lemma settled_nil w : settled [] w = w.
Proof. by apply set_cols_id. Qed.

Lemma settled_cons entry entries w :
  settled (entry :: entries) w
  = settled entries (set_cols (fun l => alter defaulted entry.2 l) w).
Proof. by destruct w. Qed.

Lemma last_after {A} (x : A) (l : list A) (d : option A) :
  from_option Some (Some x) (last l) = from_option Some d (last (x :: l)).
Proof.
  destruct l as [| y l]; [done |]. rewrite last_cons_cons.
  destruct (last (y :: l)) eqn:Hlast; [done |]. by apply last_None in Hlast.
Qed.

(** The loop of [define]: it stops at the first column object that
    refuses an assignment, and throws what that one throws. *)
Lemma define_loop_run entries : forall w pkColumn subquery columns,
  Db.define_loop entries pkColumn subquery columns w
  = match stops_at w entries with
    | (before, Some e) => (Throw e, settled before w)
    | (_, None) =>
        (Return (from_option Some pkColumn (pk_of (columns_of w entries)),
                 subquery ++ ((fun entry : string * ColumnOptions.t =>
                                 Db.column_clause entry.1 entry.2)
                              <$> columns_of w entries),
                 columns ++ Object_keys entries),
         settled entries w)
    end.
Proof.
  induction entries as [| [key val] entries IH]; intros w pkColumn subquery columns.
  - cbn. by rewrite !app_nil_r, settled_nil.
  - cbn [Db.define_loop]. rewrite column_pass. cbn [stops_at snd].
    destruct (refusal (column_at w val)) as [e |] eqn:Href;
      [by rewrite settled_nil |].
    cbv zeta. rewrite IH.
    pose proof (settle_settled val w Href) as Hs.
    rewrite (stops_at_settled _ _ entries Hs).
    destruct (stops_at w entries) as [before [e |]]; [by rewrite settled_cons |].
    rewrite (clauses_settled _ _ entries Hs), (pk_of_settled _ _ entries Hs).
    rewrite (primary_settled _ _ (proj2 Hs val)).
    rewrite settled_cons, (clause_settled key _ _ (proj2 Hs val)). cbn [snd].
    f_equal. f_equal. rewrite <- !app_assoc.
    apply (f_equal2 pair); [apply (f_equal2 pair) |].
    + unfold pk_of, columns_of. rewrite !fmap_cons. cbn [filter list_filter].
      unfold is_primary at 2. cbn [fst snd].
      destruct (default false (ColumnOptions.primaryKey (content (column_at w val))))
        eqn:Hpk.
      * rewrite decide_True by exact Hpk. rewrite fmap_cons. cbn [fst].
        exact (last_after _ _ _).
      * rewrite decide_False; [done |]. unfold is_primary. cbn [snd]. congruence.
    + done.
    + done.
Qed.

Lemma define_loop_settles entries : forall w pkColumn subquery columns,
  columns_settled w (Db.define_loop entries pkColumn subquery columns w).2.
Proof.
  induction entries as [| [key val] entries IH]; intros w pkColumn subquery columns;
    [reflexivity |].
  cbn [Db.define_loop]. rewrite column_pass.
  destruct (refusal (column_at w val)) as [e |] eqn:Href; [reflexivity |].
  cbv zeta. etrans; [by apply settle_settled | apply IH].
Qed.

Lemma columns_settled_cols w w' : cols w' = cols w -> columns_settled w w'.
Proof.
  intros Hcols. split; [by rewrite Hcols |]. intros val. unfold column_at.
  rewrite Hcols. reflexivity.
Qed.

Lemma columns_of_cols w w' entries :
  cols w' = cols w -> columns_of w' entries = columns_of w entries.
Proof. intros Hcols. unfold columns_of, column_at. by rewrite Hcols. Qed.

(** [define] with a schema name that is not inherited: the schema is
    made current, with its buckets; then the loop runs; then the
    statements are filed. *)
Lemma define_run tableName definitionBody options w :
  let s := default "public" (options ≫= DefinitionOptions.schema) in
  let showQuery := default false (options ≫= DefinitionOptions.showQuery) in
  let columns := columns_of w definitionBody in
  s ∉ Object_prototype_keys ->
  exists sc,
    schema sc = s
    /\ (forall type name,
          name <> s ->
          bucket_at (folder sc) type name = bucket_at (folder (script w)) type name)
    /\ match stops_at w definitionBody with
       | (before, Some e) =>
           Db.define tableName definitionBody options w
           = (Throw e, set_script (fun _ => sc) (settled before w))
           /\ forall type,
                bucket_at (folder sc) type s
                = Some (bucket_before (script w) type s)
       | (_, None) =>
           Db.define tableName definitionBody options w
           = (Return (Db.Model.mk tableName s (pk_of columns) showQuery),
              set_syncScripts (fun l => l ++ [probe s tableName columns])
                (set_script (fun _ => sc) (settled definitionBody w)))
           /\ forall type,
                bucket_at (folder sc) type s
                = Some (bucket_before (script w) type s
                        ++ defined_in type s tableName columns)
       end.
Proof.
  intros s showQuery columns Hs.
  destruct (setSchema_buckets s (script w) Hs) as (s1 & Hrun1 & Hs1 & Hnew1 & Hold1).
  destruct (push_run Qdrop (drop_table s tableName) s1 s _ Hs1 (Hnew1 Qdrop))
    as (s2 & Hrun2 & Hs2 & Hnew2 & Hold2).
  pose proof (Hnew1 Qcreate) as Hcreate.
  rewrite <- Hold2 in Hcreate by congruence.
  destruct (push_run Qcreate (create_table s tableName columns) s2 s _
              Hs2 Hcreate)
    as (s3 & Hrun3 & Hs3 & Hnew3 & Hold3).
  set (w1 := set_script (fun _ => s1) w).
  assert (columns_settled w w1) as Hcols by (by apply columns_settled_cols).
  assert (Db.define tableName definitionBody options w
          = (built <- Db.define_loop definitionBody None [] [] ;;
             let '(pkColumn, subquery, columns) := built in
             Db.on_script (Db.Script.push Qdrop (drop_table s tableName)) ;;
             Db.on_script (Db.Script.push Qcreate
               ("CREATE TABLE IF NOT EXISTS " +:+ s +:+ "." +:+ tableName +:+
                " (" +:+ join ", " subquery +:+ ");")) ;;
             modify (set_syncScripts (fun l =>
               l ++ ["SELECT " +:+ join ", " columns +:+ " FROM " +:+ s +:+ "." +:+
                     tableName +:+ ";"])) ;;
             ret (Db.Model.mk tableName s pkColumn showQuery)) w1) as ->.
  { unfold Db.define. fold s showQuery. unfold bind at 1.
    by rewrite (on_script_run _ s1) by done. }
  pose proof (define_loop_run definitionBody w1 None [] []) as Hloop.
  rewrite (stops_at_settled _ _ _ Hcols) in Hloop.
  destruct (stops_at w definitionBody) as [before [e |]].
  - exists s1. split; [done |]. split; [done |]. split; [| done].
    unfold bind at 1. rewrite Hloop. by destruct w.
  - exists s3. split; [done |]. split.
    { intros type name Hne. rewrite Hold3, Hold2 by congruence. by apply Hold1. }
    split.
    + rewrite (pk_of_settled _ _ _ Hcols), (clauses_settled _ _ _ Hcols) in Hloop.
      cbn [app from_option] in Hloop. fold columns in Hloop.
      unfold bind at 1. rewrite Hloop.
      unfold bind at 1. rewrite (on_script_run _ s2) by exact Hrun2.
      unfold bind at 1. rewrite (on_script_run _ s3) by exact Hrun3.
      unfold bind, modify, ret. subst columns. unfold probe.
      rewrite keys_columns_of. destruct w. cbn. f_equal.
      by destruct (pk_of _).
    + intros type.
      destruct (decide (type = Qcreate)) as [-> |]; [done |].
      rewrite Hold3 by congruence.
      destruct (decide (type = Qdrop)) as [-> |]; [done |].
      rewrite Hold2, Hnew1 by congruence.
      destruct type; cbn [defined_in]; by rewrite ?app_nil_r.
Qed.
Lemma public_not_inherited : "public" ∉ Object_prototype_keys.
Proof.
  unfold Object_prototype_keys. rewrite !not_elem_of_cons.
  repeat split; try discriminate. apply not_elem_of_nil.
Qed.




Lemma on_script_settles method : keeps columns_settled (Db.on_script method).
Proof.
  intros w. unfold Db.on_script.
  destruct (method (script w)); [reflexivity | by apply columns_settled_cols].
Qed.

Lemma define_settles tableName definitionBody options :
  keeps columns_settled (Db.define tableName definitionBody options).
Proof.
  unfold Db.define.
  apply (keeps_bind columns_settled); [apply on_script_settles | intros _].
  apply (keeps_bind columns_settled);
    [intros w; apply define_loop_settles | intros [[pkColumn subquery] columns]].
  apply (keeps_bind columns_settled); [apply on_script_settles | intros _].
  apply (keeps_bind columns_settled); [apply on_script_settles | intros _].
  apply (keeps_bind columns_settled); [| intros _; apply (keeps_ret columns_settled)].
  intros w. by apply columns_settled_cols.
Qed.

Lemma run_call_settles c : keeps columns_settled (run_call c).
Proof.
  destruct c as [tableName body options | self model foreignKey options];
    cbn [run_call].
  - apply (keeps_bind columns_settled);
      [apply define_settles | intros _; apply (keeps_ret columns_settled)].
  - unfold Db.Model.setForeignKey.
    apply (keeps_bind columns_settled); [apply on_script_settles | intros _].
    apply on_script_settles.
Qed.

Lemma run_calls_settles calls : forall w, columns_settled w (run_calls calls w).
Proof.
  induction calls as [| c calls IH]; intros w; [reflexivity |].
  cbn [run_calls]. etrans; [apply run_call_settles | apply IH].
Qed.


Lemma setForeignKey_run self model foreignKey options w b1 b2 :
  let cur := schema (script w) in
  let constraintName :=
    default (Db.Model.tableName self +:+ "_" +:+ Db.Model.tableName model)
      (options ≫= SetForeignKeyOptions.constraintName) in
  let referenceKey :=
    default foreignKey (options ≫= SetForeignKeyOptions.referenceKey) in
  bucket_at (folder (script w)) Qdrop_constraint cur = Some b1 ->
  bucket_at (folder (script w)) Qalter cur = Some b2 ->
  exists sc,
    Db.Model.setForeignKey self model foreignKey options w
    = (Return tt, set_script (fun _ => sc) w)
    /\ schema sc = cur
    /\ bucket_at (folder sc) Qdrop_constraint cur
       = Some (b1 ++ [drop_constraint self constraintName])
    /\ bucket_at (folder sc) Qalter cur
       = Some (b2 ++ [add_constraint self model constraintName foreignKey
                        referenceKey])
    /\ forall type name,
         (type, name) <> (Qdrop_constraint, cur) ->
         (type, name) <> (Qalter, cur) ->
         bucket_at (folder sc) type name = bucket_at (folder (script w)) type name.
Proof.
  intros cur constraintName referenceKey Hb1 Hb2.
  destruct (push_run Qdrop_constraint (drop_constraint self constraintName)
              (script w) cur b1 eq_refl Hb1)
    as (s1 & Hrun1 & Hs1 & Hnew1 & Hold1).
  rewrite <- (Hold1 Qalter cur) in Hb2 by congruence.
  destruct (push_run Qalter
              (add_constraint self model constraintName foreignKey referenceKey)
              s1 cur b2 Hs1 Hb2)
    as (s2 & Hrun2 & Hs2 & Hnew2 & Hold2).
  exists s2. split; [| split; [done | split; [| split; [done |]]]].
  - unfold Db.Model.setForeignKey. fold constraintName referenceKey.
    unfold bind.
    rewrite (on_script_run _ s1) by exact Hrun1.
    by rewrite (on_script_run _ s2) by exact Hrun2.
  - by rewrite Hold2 by congruence.
  - intros type name Hne1 Hne2. by rewrite Hold2, Hold1.
Qed.

(** X11. [setForeignKey] files its two statements under the current
    schema of the script, that is the schema of the latest [define],
    whatever the schema of the model it is called on: DROP CONSTRAINT at
    the end of the drop-constraint bucket of that schema, ADD CONSTRAINT
    at the end of its alter bucket, and no other bucket changes. The
    statements themselves name the table by the schema of the model. *)
Theorem setForeignKey_files_under_current_schema :
  forall self model foreignKey options w b1 b2,
    let cur := schema (script w) in
    let constraintName :=
      default (Db.Model.tableName self +:+ "_" +:+ Db.Model.tableName model)
        (options ≫= SetForeignKeyOptions.constraintName) in
    let referenceKey :=
      default foreignKey (options ≫= SetForeignKeyOptions.referenceKey) in
    bucket_at (folder (script w)) Qdrop_constraint cur = Some b1 ->
    bucket_at (folder (script w)) Qalter cur = Some b2 ->
    exists sc,
      Db.Model.setForeignKey self model foreignKey options w
      = (Return tt, set_script (fun _ => sc) w)
      /\ schema sc = cur
      /\ bucket_at (folder sc) Qdrop_constraint cur
         = Some (b1 ++ [drop_constraint self constraintName])
      /\ bucket_at (folder sc) Qalter cur
         = Some (b2 ++ [add_constraint self model constraintName foreignKey
                          referenceKey])
      /\ forall type name,
           (type, name) <> (Qdrop_constraint, cur) ->
           (type, name) <> (Qalter, cur) ->
           bucket_at (folder sc) type name = bucket_at (folder (script w)) type name.
Proof. intros. by apply setForeignKey_run. Qed.

Lemma setForeignKey_files_under_current_schema_witness :
  exists sc,
    Db.Model.setForeignKey orders users "user_id" references_id
      (run_calls two_schemas two_tables)
    = (Return tt, set_script (fun _ => sc) (run_calls two_schemas two_tables))
    /\ bucket_at (folder sc) Qalter "auth"
       = Some ["ALTER TABLE IF EXISTS shop.orders ADD CONSTRAINT fk_orders_users FOREIGN KEY (user_id) REFERENCES auth.users (id) ON DELETE CASCADE ON UPDATE CASCADE;"]
    /\ bucket_at (folder sc) Qalter "shop" = Some [].
Proof.
  destruct (setForeignKey_files_under_current_schema orders users "user_id"
              references_id (run_calls two_schemas two_tables) [] []
              eq_refl eq_refl)
    as (sc & Hrun & _ & _ & Halter & Hold).
  exists sc. split; [exact Hrun |]. split; [exact Halter |].
  rewrite Hold; [reflexivity | discriminate | discriminate].
Defined.

(** *** Invariants of the registry *)

Lemma count_replace (o : jsobj (list string)) k b b' :
  prop_own o k = Some b ->
  (length (concat (Object_values (prop_replace o k b'))) + length b
   = length (concat (Object_values o)) + length b')%nat.
Proof.
  unfold Object_values. induction o as [| [k0 b0] o IH]; [done |].
  rewrite prop_own_cons. cbn [prop_replace].
  destruct (String.eqb_spec k0 k) as [-> | Hne].
  - rewrite decide_True by done. intros [= ->]. cbn. rewrite !length_app. lia.
  - rewrite decide_False by done. intros Hown. specialize (IH Hown).
    cbn. rewrite !length_app. cbn [fmap] in IH. lia.
Qed.

Lemma count_insert_index (o : jsobj (list string)) n k b :
  length (concat (Object_values (prop_insert_index o n k b)))
  = (length (concat (Object_values o)) + length b)%nat.
Proof.
  unfold Object_values. induction o as [| [k0 b0] o IH].
  - cbn. rewrite length_app. cbn. lia.
  - cbn [prop_insert_index].
    destruct (array_index k0) as [n' |]; [destruct (n <? n')%N |];
      cbn; rewrite !length_app; cbn in IH; try rewrite IH; cbn; lia.
Qed.

Lemma count_set (o : jsobj (list string)) k b' :
  (length (concat (Object_values (prop_set o k b')))
   + length (default [] (prop_own o k))
   = length (concat (Object_values o)) + length b')%nat.
Proof.
  unfold prop_set. destruct (prop_own o k) as [b |] eqn:Hown; cbn [default].
  - by apply count_replace.
  - destruct (array_index k) as [n |].
    + rewrite count_insert_index. cbn. lia.
    + unfold Object_values. rewrite fmap_app, concat_app, length_app. cbn.
      rewrite app_nil_r. lia.
Qed.

Lemma bucket_push_count f type name query f' :
  Db.Script.bucket_push f type name query = inr f' ->
  is_Some (bucket_at f type name)
  /\ statement_count f' type = S (statement_count f type)
  /\ forall type', type' <> type -> statement_count f' type' = statement_count f type'.
Proof.
  unfold Db.Script.bucket_push, bucket_at.
  destruct (prop_get (Db.Script.folder_get f type) name) as [b | |] eqn:Hget;
    [| done | done].
  apply prop_get_Own in Hget. intros [= <-]. split; [by eexists |]. split.
  - unfold statement_count. rewrite folder_get_set, decide_True by done.
    pose proof (count_set (Db.Script.folder_get f type) name (b ++ [query])) as H.
    rewrite Hget, length_app in H. cbn in H. lia.
  - intros type' Hne. unfold statement_count. by rewrite folder_get_set, decide_False.
Qed.

Lemma push_count type query self self' :
  Db.Script.push type query self = inr self' ->
  is_Some (bucket_at (folder self) type (schema self))
  /\ schema self' = schema self
  /\ statement_count (folder self') type = S (statement_count (folder self) type)
  /\ forall type', type' <> type ->
       statement_count (folder self') type' = statement_count (folder self) type'.
Proof.
  unfold Db.Script.push.
  destruct (Db.Script.bucket_push _ _ _ _) as [e | f'] eqn:Hpush; [done |].
  intros [= <-]. cbn [folder schema].
  destruct (bucket_push_count _ _ _ _ _ Hpush) as (? & ? & ?). done.
Qed.

Lemma addSchema_loop_count name f type :
  bucket_at f type name = None ->
  statement_count (Db.Script.addSchema_loop Db.Script.folder_keys name f) type
  = statement_count f type.
Proof.
  unfold bucket_at, statement_count. intros Hnone. rewrite addSchema_loop_get.
  pose proof (count_set (Db.Script.folder_get f type) name []) as H.
  rewrite Hnone in H. cbn in H. lia.
Qed.

Lemma setSchema_count name self self' type :
  wf_folder (folder self) ->
  Db.Script.setSchema name self = inr self' ->
  type <> Qschema ->
  statement_count (folder self') type = statement_count (folder self) type.
Proof.
  intros [_ Hall] Hset Htype. unfold Db.Script.setSchema in Hset.
  destruct (Db.Script.hasSchema name self) eqn:Hhas; cbn [negb] in Hset.
  - by injection Hset as <-.
  - assert (bucket_at (folder self) type name = None) as Hnone.
    { apply hasSchema_loop_false in Hhas as (o & Ho & Hmissing).
      apply list_elem_of_fmap in Ho as (type0 & -> & _).
      apply prop_get_Missing in Hmissing. unfold bucket_at.
      destruct (prop_own (Db.Script.folder_get (folder self) type) name) eqn:Hown;
        [| done].
      destruct (Hall name type type0) as [x Hx]; [by eexists | congruence]. }
    unfold Db.Script.addSchema in Hset.
    destruct (Db.Script.bucket_push _ Qschema name _) as [e | f2] eqn:Hpush1;
      [done |].
    destruct (Db.Script.bucket_push f2 Qschema name _) as [e | f3] eqn:Hpush2;
      [done |].
    injection Hset as <-. cbn [folder].
    destruct (bucket_push_count _ _ _ _ _ Hpush1) as (_ & _ & H1).
    destruct (bucket_push_count _ _ _ _ _ Hpush2) as (_ & _ & H2).
    rewrite H2, H1 by done. by apply addSchema_loop_count.
Qed.

Lemma setSchema_inv name self self' :
  Db.Script.setSchema name self = inr self' ->
  no_inherited (folder self) /\ schemas_seeded (folder self) ->
  no_inherited (folder self') /\ schemas_seeded (folder self').
Proof.
  intros Hset [Hno Hseed].
  destruct (setSchema_run name self) as (s1 & Hrun & _ & Hold & Hnew).
  rewrite Hrun in Hset. injection Hset as <-.
  destruct (Db.Script.hasSchema name self) eqn:Hhas; [by rewrite Hnew |].
  apply hasSchema_false_name in Hhas. split.
  - intros type name' Hin. rewrite Hold by congruence. by apply Hno.
  - intros name' b. destruct (decide (name' = name)) as [-> |].
    + rewrite Hnew. unfold new_bucket. rewrite decide_True by done. congruence.
    + rewrite Hold by done. apply Hseed.
Qed.

Lemma push_inv type query self self' :
  type <> Qschema ->
  Db.Script.push type query self = inr self' ->
  no_inherited (folder self) /\ schemas_seeded (folder self) ->
  no_inherited (folder self') /\ schemas_seeded (folder self').
Proof.
  intros Htype Hpush [Hno Hseed].
  destruct (push_count _ _ _ _ Hpush) as ([b Hb] & _).
  destruct (push_run type query self _ b eq_refl Hb) as (s1 & Hrun & _ & Hnew & Hold).
  rewrite Hrun in Hpush. injection Hpush as <-. split.
  - intros type' name' Hin.
    destruct (decide ((type', name') = (type, schema self))) as [[= -> ->] |].
    + by rewrite Hno in Hb.
    + rewrite Hold by done. by apply Hno.
  - intros name' b'. rewrite Hold by congruence. apply Hseed.
Qed.


(** Two statements pushed one after the other into buckets of the
    current schema: both are added, or the first push throws and
    nothing is added. *)
Lemma push_pair type1 type2 query1 query2 self :
  wf_folder (folder self) ->
  (exists e, Db.Script.push type1 query1 self = inl e)
  \/ (exists self1 self2,
        Db.Script.push type1 query1 self = inr self1
        /\ Db.Script.push type2 query2 self1 = inr self2).
Proof.
  intros Hwf.
  destruct (Db.Script.push type1 query1 self) as [e | self1] eqn:Hpush1;
    [left; by eexists | right].
  destruct (push_count _ _ _ _ Hpush1) as (Hb & Hschema & _).
  pose proof (push_evolves _ _ _ _ Hpush1 Hwf) as [[_ Hall] Hgrows].
  destruct Hb as [b Hb]. destruct (Hgrows _ _ _ Hb) as (added & Hb1).
  destruct (Hall (schema self) type1 type2) as [b2 Hb2]; [by eexists |].
  destruct (push_run type2 query2 self1 _ b2 Hschema Hb2) as (self2 & Hrun & _).
  by exists self1, self2.
Qed.

Lemma run_call_registry c w : registry w -> registry (run_call c w).2.
Proof.
  intros (Hwf & Hno & Hseed & Hdrop & Hcreate & Halter).
  destruct c as [tableName body options | self model foreignKey options];
    cbn [run_call].
  - unfold Db.define.
    set (s := default "public" (options ≫= DefinitionOptions.schema)).
    destruct (setSchema_run s (script w)) as (s1 & Hrun1 & _).
    pose proof (setSchema_evolves _ _ _ Hrun1 Hwf) as [Hwf1 _].
    pose proof (setSchema_inv _ _ _ Hrun1 (conj Hno Hseed)) as [Hno1 Hseed1].
    assert (forall type, type <> Qschema ->
              statement_count (folder s1) type = statement_count (folder (script w)) type) as Hcount1.
    { intros type Htype. by eapply setSchema_count. }
    unfold bind at 1. unfold bind at 1. rewrite (on_script_run _ s1) by done.
    unfold bind at 1. rewrite define_loop_run.
    destruct (stops_at _ body) as [before [e0 |]].
    { cbn [snd]. unfold registry.
      cbn [script syncScripts set_script settled set_cols].
      rewrite !Hcount1 by done. done. }
    match goal with
    | |- context [Db.on_script (Db.Script.push Qdrop ?q1) ;;
                  Db.on_script (Db.Script.push Qcreate ?q2) ;; _] =>
        destruct (push_pair Qdrop Qcreate q1 q2 s1 Hwf1)
          as [[e Hthrow] | (s2 & s3 & Hrun2 & Hrun3)]
    end.
    + unfold bind at 1. rewrite (on_script_throw _ e) by exact Hthrow. cbn [snd].
      unfold registry. cbn [script syncScripts set_script settled set_cols].
      rewrite !Hcount1 by done. done.
    + unfold bind at 1. rewrite (on_script_run _ s2) by exact Hrun2.
      unfold bind at 1. rewrite (on_script_run _ s3) by exact Hrun3.
      unfold bind, modify, ret. cbn [snd].
      unfold registry.
      cbn [script syncScripts set_script set_syncScripts settled set_cols].
      pose proof (push_evolves _ _ _ _ Hrun2 Hwf1) as [Hwf2 _].
      pose proof (push_evolves _ _ _ _ Hrun3 Hwf2) as [Hwf3 _].
      pose proof (push_inv Qdrop _ _ _ ltac:(done) Hrun2 (conj Hno1 Hseed1)) as Hinv2.
      pose proof (push_inv Qcreate _ _ _ ltac:(done) Hrun3 Hinv2) as [Hno3 Hseed3].
      destruct (push_count _ _ _ _ Hrun2) as (_ & _ & Hd2 & Ho2).
      destruct (push_count _ _ _ _ Hrun3) as (_ & _ & Hc3 & Ho3).
      repeat (split; [done |]). rewrite length_app. cbn [length].
      rewrite Hc3, !Ho3, Hd2, !Ho2, !Hcount1 by done. lia.
  - unfold Db.Model.setForeignKey.
    match goal with
    | |- context [Db.on_script (Db.Script.push Qdrop_constraint ?q1) ;;
                  Db.on_script (Db.Script.push Qalter ?q2)] =>
        destruct (push_pair Qdrop_constraint Qalter q1 q2 (script w) Hwf)
          as [[e Hthrow] | (s1 & s2 & Hrun1 & Hrun2)]
    end.
    + unfold bind. by rewrite (on_script_throw _ e) by done.
    + unfold bind. rewrite (on_script_run _ s1) by done.
      rewrite (on_script_run _ s2) by done. cbn [snd].
      unfold registry. cbn [script syncScripts set_script].
      pose proof (push_evolves _ _ _ _ Hrun1 Hwf) as [Hwf1 _].
      pose proof (push_evolves _ _ _ _ Hrun2 Hwf1) as [Hwf2 _].
      pose proof (push_inv Qdrop_constraint _ _ _ ltac:(done) Hrun1 (conj Hno Hseed)) as Hinv1.
      pose proof (push_inv Qalter _ _ _ ltac:(done) Hrun2 Hinv1) as [Hno2 Hseed2].
      destruct (push_count _ _ _ _ Hrun1) as (_ & _ & Hd1 & Ho1).
      destruct (push_count _ _ _ _ Hrun2) as (_ & _ & Ha2 & Ho2).
      repeat (split; [done |]).
      rewrite Ha2, !Ho2, Hd1, !Ho1 by done. lia.
Qed.

Lemma run_calls_registry calls : forall w,
  registry w -> registry (run_calls calls w).
Proof.
  induction calls as [| c calls IH]; intros w Hw; [done |].
  cbn [run_calls]. apply IH. by apply run_call_registry.
Qed.

Lemma registry_new w :
  script w = Db.Script.new -> syncScripts w = [] -> registry w.
Proof.
  intros Hscript Hsync. unfold registry. rewrite Hscript, Hsync.
  split; [apply wf_folder_new |]. by repeat split; intros [].
Qed.

(** X8. Invariants of the registry, in every state that calls of
    [define] and [setForeignKey] lead to from the start, whether they
    returned or threw. A schema name has a bucket in all five classes or
    in none. No name that objects inherit from [Object.prototype] has a
    bucket. Every schema bucket holds the DROP SCHEMA and the CREATE
    SCHEMA statement of its name, and nothing else. There are as many
    DROP TABLE statements as CREATE TABLE statements as probes in
    [syncScripts], and as many ADD CONSTRAINT as DROP CONSTRAINT
    statements: no call registers a part of what it registers. *)
Theorem registry_invariants :
  forall calls w0,
    script w0 = Db.Script.new ->
    syncScripts w0 = [] ->
    let w := run_calls calls w0 in
    let f := folder (script w) in
    (forall name type1 type2,
       is_Some (bucket_at f type1 name) -> is_Some (bucket_at f type2 name))
    /\ (forall type name, name ∈ Object_prototype_keys -> bucket_at f type name = None)
    /\ (forall name b, bucket_at f Qschema name = Some b -> b = schema_seeds name)
    /\ statement_count f Qdrop = length (syncScripts w)
    /\ statement_count f Qcreate = length (syncScripts w)
    /\ statement_count f Qalter = statement_count f Qdrop_constraint.
Proof.
  intros calls w0 Hscript Hsync w f.
  destruct (run_calls_registry calls w0 (registry_new w0 Hscript Hsync))
    as ([_ Hall] & Hno & Hseed & Hcounts).
  done.
Qed.

Lemma registry_invariants_witness :
  let f := folder (script (run_calls b_then_a two_tables)) in
  statement_count f Qdrop = length (syncScripts (run_calls b_then_a two_tables))
  /\ statement_count f Qcreate = length (syncScripts (run_calls b_then_a two_tables)).
Proof.
  destruct (registry_invariants b_then_a two_tables eq_refl eq_refl)
    as (_ & _ & _ & Hdrop & Hcreate & _).
  by split.
Defined.












(** ** Statements of the Model operations *)

Lemma create_run env self body options w :
  Db.Model.create env self body options w
  = asks env self (insert_statement self body) (Object_values body)
      (options ≫= ModelOptions.transaction) (checked "create" Db.Model.first_row) w.
Proof.
  unfold Db.Model.create. rewrite generate_count. done.
Qed.

Lemma find_run env self options w :
  Db.Model.find env self options w
  = asks env self (select_statement self (where_of options w))
      (values_of (where_of options w))
      (options ≫= ModelOptions.transaction) (checked "find" Db.Model.all_rows) w.
Proof.
  unfold Db.Model.find.
  rewrite (handler_bind_return _ _ _ _ _ (read_where_of options w)).
  rewrite where_clause_run, values_one. done.
Qed.

Lemma update_run env self body options w :
  Db.Model.update env self body options w
  = asks env self (update_statement self body (where_of options w))
      (Object_values body ++ values_of (where_of options w))
      (options ≫= ModelOptions.transaction) (checked "update" Db.Model.all_rows) w.
Proof.
  unfold Db.Model.update. rewrite generate_fields.
  rewrite (handler_bind_return _ _ _ _ _ (read_where_of options w)).
  rewrite where_clause_run, values_two. cbn [Placeholder.counter Placeholder.new].
  done.
Qed.

Lemma delete_run env self options w :
  Db.Model.delete env self options w
  = asks env self (delete_statement self (where_of options w))
      (values_of (where_of options w))
      (options ≫= ModelOptions.transaction) (checked "delete" Db.Model.all_rows) w.
Proof.
  unfold Db.Model.delete.
  rewrite (handler_bind_return _ _ _ _ _ (read_where_of options w)).
  rewrite where_clause_run, values_one. done.
Qed.

Lemma numbered_app (o1 o2 : obj) from :
  numbered o1 from ++ numbered o2 (from + Z.of_nat (length (Object_keys o1)))
  = zip_with assignment (Object_keys o1 ++ Object_keys o2)
      (seqZ from (Z.of_nat (length (Object_keys o1 ++ Object_keys o2)))).
Proof.
  unfold numbered. rewrite length_app, Nat2Z.inj_add, seqZ_app by lia.
  by rewrite zip_with_app by (rewrite length_seqZ; lia).
Qed.

(** X13. The statement and the values of [create], [find], [update] and
    [delete]. [create] names the keys of the body and as many positional
    placeholders, from $1. [update] numbers the SET assignments from $1
    and the WHERE conditions from where these stop, [find] and [delete]
    number the conditions from $1; the values bound are those of the body
    followed by those of [where]. So the k-th placeholder stands for the
    k-th key, and the k-th value is the value of that key. *)
Theorem model_statements_bind_in_order :
  forall env self body options w,
    let where_ := where_of options w in
    let transaction := options ≫= ModelOptions.transaction in
    let keys := Object_keys body ++ from_option Object_keys [] where_ in
    let values := Object_values body ++ values_of where_ in
    Db.Model.create env self body options w
    = asks env self (insert_statement self body) (Object_values body)
        transaction (checked "create" Db.Model.first_row) w
    /\ Db.Model.find env self options w
       = asks env self (select_statement self where_) (values_of where_)
           transaction (checked "find" Db.Model.all_rows) w
    /\ Db.Model.update env self body options w
       = asks env self (update_statement self body where_) values
           transaction (checked "update" Db.Model.all_rows) w
    /\ Db.Model.delete env self options w
       = asks env self (delete_statement self where_) (values_of where_)
           transaction (checked "delete" Db.Model.all_rows) w
    /\ numbered body 1
       ++ from_option
            (fun o => numbered o (Z.of_nat (length (Object_keys body)) + 1))
            [] where_
       = zip_with assignment keys (seqZ 1 (Z.of_nat (length values)))
    /\ zip keys values = body ++ from_option id [] where_.
Proof.
  intros env self body options w where_ transaction keys values.
  split; [apply create_run |]. split; [apply find_run |].
  split; [apply update_run |]. split; [apply delete_run |].
  subst keys values. unfold values_of. destruct where_ as [o |]; cbn [from_option].
  - split.
    + rewrite (Z.add_comm _ 1), numbered_app. do 2 f_equal.
      unfold Object_keys, Object_values. by rewrite !length_app, !length_fmap.
    + rewrite zip_with_app by (unfold Object_keys, Object_values;
                               by rewrite !length_fmap).
      unfold Object_keys, Object_values. by rewrite !zip_fst_snd.
  - rewrite !app_nil_r. split.
    + unfold numbered, Object_keys, Object_values. by rewrite !length_fmap.
    + unfold Object_keys, Object_values. by rewrite zip_fst_snd.
Qed.








(** *** What a call leaves alone *)

Global Instance same_registry_preorder : PreOrder same_registry.
Proof.
  split; [by intros w |].
  intros w1 w2 w3 (? & ? & ? & ?) (? & ? & ? & ?). unfold same_registry.
  repeat split; congruence.
Qed.

Global Instance offline_preorder : PreOrder offline.
Proof.
  split; [by intros w |].
  intros w1 w2 w3 (? & ? & ?) (? & ? & ?). unfold offline.
  repeat split; congruence.
Qed.









(** ** Access control *)

Lemma for_of_ext {A} (l : list A) body1 body2 w :
  (forall x w, body1 x w = body2 x w) ->
  for_of l body1 w = for_of l body2 w.
Proof.
  intros Hext. revert w. induction l as [| x l IH]; intros w; [done |].
  cbn [for_of]. unfold bind. rewrite Hext.
  destruct (body2 x w) as [[[|] | e] w1]; [apply IH | done | done].
Qed.

Lemma for_of_skip {A} (l : list A) (skip : A -> bool) body w :
  for_of l (fun x => if skip x then ret Next else body x) w
  = for_of (filter (fun x => skip x = false) l) body w.
Proof.
  revert w. induction l as [| x l IH]; intros w; [done |].
  rewrite filter_cons. cbn [for_of]. destruct (skip x) eqn:Hskip.
  - rewrite decide_False by done. unfold bind at 1. cbn [ret]. apply IH.
  - rewrite decide_True by done. cbn [for_of]. unfold bind.
    destruct (body x w) as [[[|] | e] w1]; [apply IH | done | done].
Qed.

Lemma role_loop_flat env model transaction ignoreRoutes roles routes w :
  for_of roles (fun role_name =>
    for_of routes (fun route =>
      if includes (trim <$> ignoreRoutes) route
      then ret Next
      else AccessControl.seed env model transaction
             [("role_name", VStr role_name); ("route", VStr route)])) w
  = for_of (role_rows ignoreRoutes roles routes)
      (AccessControl.seed env model transaction) w.
Proof.
  unfold role_rows. rewrite <- for_of_concat, for_of_fmap.
  apply for_of_ext. intros role_name w'.
  by rewrite for_of_skip, for_of_fmap.
Qed.

Lemma attribute_loop_flat {H} env model transaction
    (attributesHandlers : jsobj (jsobj H)) w :
  for_of attributesHandlers (fun entry =>
    let '(route, attributes) := entry in
    for_of (Object_keys attributes) (fun attributeName =>
      AccessControl.seed env model transaction
        [("attribute_name", VStr attributeName); ("route", VStr route)])) w
  = for_of (attribute_rows attributesHandlers)
      (AccessControl.seed env model transaction) w.
Proof.
  unfold attribute_rows. rewrite <- for_of_concat, for_of_fmap.
  apply for_of_ext. intros [route attributes] w'.
  by rewrite for_of_fmap.
Qed.

(** One row created through a transaction that holds [c] and rolls
    back on error. *)
Lemma seed_run env model t c body w :
  txns w !! t = Some (mk_transaction (Some c) true) ->
  let query := insert_statement model body in
  let values := Object_values body in
  let w0 := add_log (traced (Db.Model.showQuery model) query values) w in
  let answer := driver_query env (log w0) (OnClient c) query (Some values) in
  let w1 := add_log [EvQuery (OnClient c) query (Some values) answer] w0 in
  AccessControl.seed env model t body w
  = match answer with
    | inr r =>
        (Return (if QueryResult.rows r is [] then Returned else Next), w1)
    | inl e =>
        (Return Returned,
         add_log
           (reported true query values (inl e)
            ++ [handler_line
                  ("Failed to create data. " +:+
                   message_to_string
                     (DbErrorResult.message (Pool.error_result query values e)))])
           (closed_by env "ROLLBACK" None t c w1))
    end.
Proof.
  intros Htx query values w0 answer w1.
  unfold AccessControl.seed, bind. rewrite create_run.
  cbn [mbind option_bind ModelOptions.transaction].
  unfold asks. rewrite modelHandler_run. unfold bind.
  rewrite (query_bound_run env (insert_statement model body)
             (Db.Model.query_options model (Object_values body) (Some t))
             t c true w eq_refl Htx).
  cbn [Db.Model.query_options mbind option_bind DbQueryOptions.values
       DbQueryOptions.showError DbQueryOptions.showQuery default from_option id].
  fold query values. fold w0. fold answer. fold w1.
  destruct answer as [e | r].
  - unfold checked. rewrite isSuccess_failed. cbn [negb throw].
    cbn [truthy negb ret]. by rewrite add_log_app.
  - unfold checked. rewrite isSuccess_succeeded. cbn [negb ret Pool.rows_of].
    unfold Db.Model.first_row. by destruct (QueryResult.rows r).
Qed.

Lemma controls_app l1 l2 : controls (l1 ++ l2) = controls l1 ++ controls l2.
Proof. apply omap_app. Qed.

Lemma controls_reported showError query values answer :
  controls (reported showError query values answer) = [].
Proof. unfold reported. by destruct answer, showError. Qed.

Lemma controls_closed_by env query showError t c w :
  controls (log (closed_by env query showError t c w)) = controls (log w) ++ [query].
Proof.
  unfold closed_by. cbn [log with_conn set_txns add_log set_log].
  rewrite controls_app. f_equal.
  change (controls (EvQuery ?on ?q None ?a :: ?l)) with (q :: controls l).
  by rewrite controls_app, controls_reported.
Qed.

Lemma controls_opened env c w :
  controls (log (opened env c w)) = controls (log w) ++ ["COMMIT;"].
Proof.
  unfold opened. cbn [log add_log set_log set_txns].
  rewrite !controls_app. cbn [controls omap unbound_statement app].
  change (controls (EvQuery ?on ?q None ?a :: ?l)) with (q :: controls l).
  by rewrite controls_reported, app_nil_r.
Qed.

Lemma statements_of_traced showQuery query values :
  statements_of (traced showQuery query values) = [].
Proof. by destruct showQuery. Qed.

Lemma controls_traced showQuery query values :
  controls (traced showQuery query values) = [].
Proof. by destruct showQuery. Qed.

Lemma releases_traced showQuery query values :
  releases (traced showQuery query values) = [].
Proof. by destruct showQuery. Qed.

Lemma connections_traced showQuery query values :
  connections (traced showQuery query values) = [].
Proof. by destruct showQuery. Qed.

Lemma rejected_app l1 l2 : rejected (l1 ++ l2) = rejected l1 ++ rejected l2.
Proof. apply omap_app. Qed.

Lemma with_rows_app l1 l2 : with_rows (l1 ++ l2) = with_rows l1 ++ with_rows l2.
Proof. apply omap_app. Qed.

Lemma rejected_reported showError query values answer :
  rejected (reported showError query values answer) = [].
Proof. unfold reported. by destruct answer, showError. Qed.

Lemma with_rows_reported showError query values answer :
  with_rows (reported showError query values answer) = [].
Proof. unfold reported. by destruct answer, showError. Qed.

Lemma rejected_traced showQuery query values :
  rejected (traced showQuery query values) = [].
Proof. by destruct showQuery. Qed.

Lemma with_rows_traced showQuery query values :
  with_rows (traced showQuery query values) = [].
Proof. by destruct showQuery. Qed.

Lemma rejected_closed_by env query showError t c w :
  rejected (log (closed_by env query showError t c w)) = rejected (log w).
Proof.
  unfold closed_by. cbn [log with_conn set_txns add_log set_log].
  rewrite rejected_app.
  change (rejected (EvQuery ?on ?q None ?a :: ?l)) with (rejected l).
  rewrite rejected_app, rejected_reported. cbn. by rewrite app_nil_r.
Qed.

Lemma with_rows_closed_by env query showError t c w :
  with_rows (log (closed_by env query showError t c w)) = with_rows (log w).
Proof.
  unfold closed_by. cbn [log with_conn set_txns add_log set_log].
  rewrite with_rows_app.
  change (with_rows (EvQuery ?on ?q None ?a :: ?l)) with (with_rows l).
  rewrite with_rows_app, with_rows_reported. cbn. by rewrite app_nil_r.
Qed.

Lemma rejected_opened env c w :
  rejected (log (opened env c w)) = rejected (log w).
Proof.
  unfold opened. cbn [log add_log set_log set_txns].
  rewrite !rejected_app.
  change (rejected (EvQuery ?on ?q None ?a :: ?l)) with (rejected l).
  rewrite rejected_reported. cbn. by rewrite !app_nil_r.
Qed.

Lemma with_rows_opened env c w :
  with_rows (log (opened env c w)) = with_rows (log w).
Proof.
  unfold opened. cbn [log add_log set_log set_txns].
  rewrite !with_rows_app.
  change (with_rows (EvQuery ?on ?q None ?a :: ?l)) with (with_rows l).
  rewrite with_rows_reported. cbn. by rewrite !app_nil_r.
Qed.

(** The loop that creates the rows, on a transaction that holds [c] and
    rolls back on error: it stops at the first row that is not created;
    when the driver rejected it the transaction was rolled back and [c]
    released, otherwise [c] is still held. *)
Lemma seed_loop env model t c bodies : forall w,
  txns w !! t = Some (mk_transaction (Some c) true) ->
  exists (m : nat) (e : ending) f w',
    let queries := insert_statement model <$> bodies in
    for_of bodies (AccessControl.seed env model t) w = (Return f, w')
    /\ match e with
       | Completed => m = length bodies
       | _ => (m < length bodies)%nat
       end
    /\ statements_of (log w')
       = statements_of (log w) ++ take (sent e m) queries
    /\ with_rows (log w') = with_rows (log w) ++ take m queries
    /\ rejected (log w')
       = rejected (log w)
         ++ (if rolled_back e then option_list (queries !! m) else [])
    /\ controls (log w')
       = controls (log w) ++ (if rolled_back e then ["ROLLBACK"] else [])
    /\ releases (log w') = releases (log w) ++ (if rolled_back e then [c] else [])
    /\ connections (log w') = connections (log w)
    /\ txns w' !! t
       = Some (mk_transaction (if rolled_back e then None else Some c) true).
Proof.
  induction bodies as [| body bodies IH]; intros w Htx.
  - exists 0%nat, Completed, Next, w. cbn [for_of ret take rolled_back sent].
    rewrite !app_nil_r. by repeat split.
  - cbn [for_of]. unfold bind. rewrite (seed_run env model t c body w Htx).
    set (query := insert_statement model body).
    set (values := Object_values body).
    set (w0 := add_log (traced (Db.Model.showQuery model) query values) w).
    set (answer := driver_query env (log w0) (OnClient c) query (Some values)).
    set (w1 := add_log [EvQuery (OnClient c) query (Some values) answer] w0).
    assert (statements_of (log w1) = statements_of (log w) ++ [query]) as Hs.
    { subst w1 w0. rewrite !log_add_log, !statements_of_app.
      by rewrite statements_of_traced, app_nil_r. }
    assert (controls (log w1) = controls (log w)) as Hc.
    { subst w1 w0. rewrite !log_add_log, !controls_app.
      rewrite controls_traced. cbn. by rewrite !app_nil_r. }
    assert (releases (log w1) = releases (log w)) as Hr.
    { subst w1 w0. rewrite !log_add_log, !releases_app.
      rewrite releases_traced. cbn. by rewrite !app_nil_r. }
    assert (connections (log w1) = connections (log w)) as Hn.
    { subst w1 w0. rewrite !log_add_log, !connections_app.
      rewrite connections_traced. cbn. by rewrite !app_nil_r. }
    assert (rejected (log w1)
            = rejected (log w)
              ++ (if answer is inl _ then [query] else [])) as Hj.
    { subst w1 w0. rewrite !log_add_log, !rejected_app.
      rewrite rejected_traced, app_nil_r. by destruct answer. }
    assert (with_rows (log w1)
            = with_rows (log w)
              ++ (if answer is inr r
                  then if QueryResult.rows r is [] then [] else [query]
                  else [])) as Hy.
    { subst w1 w0. rewrite !log_add_log, !with_rows_app.
      rewrite with_rows_traced, app_nil_r.
      destruct answer as [e | r]; [done |]. cbn.
      by destruct (QueryResult.rows r). }
    assert (txns w1 !! t = Some (mk_transaction (Some c) true)) as Htx1
      by (subst w1 w0; by rewrite !txns_add_log).
    clearbody answer. destruct answer as [e | r].
    + exists 0%nat, Rejected, Returned. eexists. cbn zeta. split; [done |].
      cbn [rolled_back sent length]. split; [lia |].
      rewrite !log_add_log.
      rewrite statements_of_app, with_rows_app, rejected_app, controls_app,
        releases_app, connections_app.
      rewrite statements_of_closed_by, with_rows_closed_by, rejected_closed_by,
        controls_closed_by, releases_closed_by, connections_closed_by.
      rewrite Hs, Hy, Hj, Hc, Hr, Hn.
      rewrite statements_of_app, with_rows_app, rejected_app, controls_app,
        releases_app, connections_app.
      rewrite statements_of_reported, with_rows_reported, rejected_reported,
        controls_reported, releases_reported, connections_reported.
      cbn [statements_of with_rows rejected controls releases connections omap
           list_omap bound_statement row_statement rejected_statement
           unbound_statement released handed_out handler_line app
           fmap list_fmap take lookup list_lookup].
      unfold option_list. cbn [option_rect].
      rewrite !app_nil_r. repeat (split; [done |]).
      rewrite txns_add_log.
      exact (closed_by_unbound env "ROLLBACK" None t c _ w1 Htx1).
    + destruct (QueryResult.rows r) as [| row rows].
      * exists 0%nat, NoRow, Returned, w1. cbn zeta. split; [done |].
        cbn [rolled_back sent length]. split; [lia |].
        rewrite Hs, Hy, Hj, Hc, Hr, Hn, !app_nil_r. by repeat split.
      * destruct (IH w1 Htx1)
          as (m & e & f & w' & Hrun & Hm & Hs' & Hy' & Hj' & Hc' & Hr' & Hn'
              & Htx').
        exists (S m), e, f, w'. cbn zeta. split; [done |].
        rewrite Hs', Hy', Hj', Hc', Hr', Hn', Hs, Hy, Hj, Hc, Hr, Hn.
        rewrite !app_nil_r, <- !app_assoc.
        split; [cbn [length]; destruct e; lia |].
        split; [by destruct e |].
        repeat (split; [done |]). done.
Qed.

Lemma seeded_by_loop env c model rows w :
  pool_connect env (log w) = inr c ->
  forall run,
    run = match for_of rows
                  (AccessControl.seed env model (length (txns w)))
                  (opened env c w) with
          | (Return _, w') => (Return tt, w')
          | (Throw e, w') => (Throw e, w')
          end ->
    seeded_by c (length (txns w)) model rows w run.
Proof.
  intros Hconnect run ->.
  destruct (transaction_run env c w Hconnect) as (_ & Htx & _).
  destruct (seed_loop env model _ c rows _ Htx)
    as (m & e & f & w' & -> & Hm & Hs & Hy & Hj & Hc & Hr & Hn & Htx').
  exists m, e. cbn [fst snd]. split; [done |]. split; [done |].
  rewrite Hs, Hy, Hj, Hc, Hr, Hn.
  rewrite statements_of_opened, with_rows_opened, rejected_opened,
    controls_opened, releases_opened, connections_opened.
  rewrite <- !app_assoc. repeat (split; [done |]).
  by rewrite (read_txn_lookup _ _ _ Htx').
Qed.

Lemma rbac_sync_alter_run env self app options c roles routes w :
  options ≫= AccessControl.RoleBaseSyncOptions.alter = Some true ->
  options ≫= AccessControl.RoleBaseSyncOptions.transaction = None ->
  pool_connect env (log w) = inr c ->
  default (AccessControl.RoleBase.setRolesHandler self)
    (options ≫= AccessControl.RoleBaseSyncOptions.setRolesHandler)
    (Some (length (txns w))) (opened env c w)
  = (Return roles, opened env c w) ->
  default (AccessControl.RoleBase.setRoutesHandler self)
    (options ≫= AccessControl.RoleBaseSyncOptions.setRoutesHandler)
    app (opened env c w)
  = (Return routes, opened env c w) ->
  AccessControl.RoleBase.sync env self app options w
  = match for_of (role_rows (AccessControl.RoleBase.ignoreRoutes self) roles routes)
            (AccessControl.seed env (AccessControl.RoleBase.model self)
               (length (txns w)))
            (opened env c w) with
    | (Return _, w') => (Return tt, w')
    | (Throw e, w') => (Throw e, w')
    end.
Proof.
  intros Halter Hnone Hconnect Hroles Hroutes.
  unfold AccessControl.RoleBase.sync. rewrite Halter, Hnone.
  cbn [default from_option id negb].
  destruct (transaction_run env c w Hconnect) as (Hopen & _).
  unfold bind at 1. fold roll_back_on_error. rewrite Hopen.
  unfold tid in *. unfold bind at 1. rewrite Hroles.
  unfold bind at 1. rewrite Hroutes.
  unfold bind at 1. rewrite role_loop_flat.
  destruct (for_of _ _ _) as [[[|] | e] w']; done.
Qed.

Lemma abac_sync_alter_run env self options c w :
  options ≫= AccessControl.AttributeBaseSyncOptions.alter = Some true ->
  options ≫= AccessControl.AttributeBaseSyncOptions.transaction = None ->
  pool_connect env (log w) = inr c ->
  AccessControl.AttributeBase.sync env self options w
  = match for_of
            (attribute_rows (AccessControl.AttributeBase.attributesHandlers self))
            (AccessControl.seed env (AccessControl.AttributeBase.model self)
               (length (txns w)))
            (opened env c w) with
    | (Return _, w') => (Return tt, w')
    | (Throw e, w') => (Throw e, w')
    end.
Proof.
  intros Halter Hnone Hconnect.
  unfold AccessControl.AttributeBase.sync. rewrite Halter, Hnone.
  cbn [default from_option id negb].
  destruct (transaction_run env c w Hconnect) as (Hopen & _).
  unfold bind at 1. fold roll_back_on_error. rewrite Hopen.
  unfold bind at 1. rewrite attribute_loop_flat.
  destruct (for_of _ _ _) as [[[|] | e] w']; done.
Qed.

(** X17. [RoleBase.sync] and [AttributeBase.sync] with [alter] and no
    transaction of the caller (the pool handing out [c], the handlers
    giving the roles and the routes without effect of their own) return
    normally, having sent the INSERT statements of their rows in order,
    role by role (route by route), through one transaction, up to and
    with the first one that the driver rejected or answered without a
    row; every one before it was answered with a row. The [commit] that
    ends them never runs: the transaction sends [COMMIT;] when it is
    opened and nothing after it, unless the driver rejected an INSERT, in
    which case [Pool.query] sent [ROLLBACK] and released [c]. In every
    other case, also when every row was created, [c] is still held and
    was never released. *)
Theorem access_control_sync_never_commits :
  forall env c w,
    pool_connect env (log w) = inr c ->
    let t := length (txns w) in
    (forall self app options roles routes,
       options ≫= AccessControl.RoleBaseSyncOptions.alter = Some true ->
       options ≫= AccessControl.RoleBaseSyncOptions.transaction = None ->
       default (AccessControl.RoleBase.setRolesHandler self)
         (options ≫= AccessControl.RoleBaseSyncOptions.setRolesHandler)
         (Some t) (opened env c w)
       = (Return roles, opened env c w) ->
       default (AccessControl.RoleBase.setRoutesHandler self)
         (options ≫= AccessControl.RoleBaseSyncOptions.setRoutesHandler)
         app (opened env c w)
       = (Return routes, opened env c w) ->
       seeded_by c t (AccessControl.RoleBase.model self)
         (role_rows (AccessControl.RoleBase.ignoreRoutes self) roles routes)
         w (AccessControl.RoleBase.sync env self app options w))
    /\ (forall self options,
          options ≫= AccessControl.AttributeBaseSyncOptions.alter = Some true ->
          options ≫= AccessControl.AttributeBaseSyncOptions.transaction = None ->
          seeded_by c t (AccessControl.AttributeBase.model self)
            (attribute_rows (AccessControl.AttributeBase.attributesHandlers self))
            w (AccessControl.AttributeBase.sync env self options w)).
Proof.
  intros env c w Hconnect t. split.
  - intros self app options roles routes Halter Hnone Hroles Hroutes.
    apply (seeded_by_loop env); [done |].
    by apply rbac_sync_alter_run.
  - intros self options Halter Hnone.
    apply (seeded_by_loop env); [done |].
    by apply abac_sync_alter_run.
Qed.

Lemma access_control_sync_never_commits_witness :
  seeded_by 7%nat 0%nat rbac_model
    [[("role_name", VStr "admin"); ("route", VStr "/users")]]
    fresh_world
    (AccessControl.RoleBase.sync row_env rbac AccessControl.express_app
       (rbac_alter (Some true)) fresh_world).
Proof.
  exact (proj1 (access_control_sync_never_commits row_env 7%nat fresh_world
                  eq_refl)
           rbac AccessControl.express_app (rbac_alter (Some true))
           ["admin"] ["/users"; "/health"] eq_refl eq_refl eq_refl eq_refl).
Defined.

Lemma rbac_sync_idle_run env self app options w :
  default false (options ≫= AccessControl.RoleBaseSyncOptions.alter) = false ->
  AccessControl.RoleBase.sync env self app options w
  = match options ≫= AccessControl.RoleBaseSyncOptions.transaction with
    | Some _ => (Return tt, w)
    | None =>
        match pool_connect env (log w) with
        | inr c => (Return tt, opened env c w)
        | inl e => (Throw e, unopened true e w)
        end
    end.
Proof.
  intros Halter. unfold AccessControl.RoleBase.sync. rewrite Halter.
  cbn [negb]. unfold bind.
  destruct (options ≫= AccessControl.RoleBaseSyncOptions.transaction); [done |].
  fold roll_back_on_error.
  destruct (pool_connect env (log w)) as [e | c] eqn:Hconnect.
  - by rewrite (transaction_refused_run env _ e w Hconnect).
  - by rewrite (proj1 (transaction_run env c w Hconnect)).
Qed.

Lemma abac_sync_idle_run env self options w :
  default false (options ≫= AccessControl.AttributeBaseSyncOptions.alter) = false ->
  AccessControl.AttributeBase.sync env self options w
  = match options ≫= AccessControl.AttributeBaseSyncOptions.transaction with
    | Some _ => (Return tt, w)
    | None =>
        match pool_connect env (log w) with
        | inr c => (Return tt, opened env c w)
        | inl e => (Throw e, unopened true e w)
        end
    end.
Proof.
  intros Halter. unfold AccessControl.AttributeBase.sync. rewrite Halter.
  cbn [negb]. unfold bind.
  destruct (options ≫= AccessControl.AttributeBaseSyncOptions.transaction);
    [done |].
  fold roll_back_on_error.
  destruct (pool_connect env (log w)) as [e | c] eqn:Hconnect.
  - by rewrite (transaction_refused_run env _ e w Hconnect).
  - by rewrite (proj1 (transaction_run env c w Hconnect)).
Qed.

(** X16. [RoleBase.sync] and [AttributeBase.sync] without [alter] create
    nothing and call no handler. With a transaction of the caller they do
    nothing at all. Without one they have opened a transaction before
    they return: a client is taken from the pool and [COMMIT;] is sent on
    it, and the call returns with the client held by an instance that the
    caller never sees, so that it is never released; when the pool hands
    out no client the call throws. *)
Theorem access_control_sync_takes_a_connection :
  forall env w,
    (forall self app options,
       default false (options ≫= AccessControl.RoleBaseSyncOptions.alter) = false ->
       AccessControl.RoleBase.sync env self app options w
       = match options ≫= AccessControl.RoleBaseSyncOptions.transaction with
         | Some _ => (Return tt, w)
         | None =>
             match pool_connect env (log w) with
             | inr c => (Return tt, opened env c w)
             | inl e => (Throw e, unopened true e w)
             end
         end)
    /\ (forall self options,
          default false (options ≫= AccessControl.AttributeBaseSyncOptions.alter)
          = false ->
          AccessControl.AttributeBase.sync env self options w
          = match options ≫= AccessControl.AttributeBaseSyncOptions.transaction with
            | Some _ => (Return tt, w)
            | None =>
                match pool_connect env (log w) with
                | inr c => (Return tt, opened env c w)
                | inl e => (Throw e, unopened true e w)
                end
            end)
    /\ (forall c,
          conn (read_txn (length (txns w)) (opened env c w)) = Some c
          /\ connections (log (opened env c w)) = connections (log w) ++ [c]
          /\ releases (log (opened env c w)) = releases (log w)).
Proof.
  intros env w. split; [| split].
  - intros. by apply rbac_sync_idle_run.
  - intros. by apply abac_sync_idle_run.
  - intros c. split; [| split].
    + unfold read_txn. rewrite txns_opened.
      by rewrite list_lookup_middle.
    + apply connections_opened.
    + apply releases_opened.
Qed.

Lemma access_control_sync_takes_a_connection_witness :
  AccessControl.RoleBase.sync quiet_env rbac AccessControl.express_app None
    fresh_world
  = (Return tt, opened quiet_env 7%nat fresh_world).
Proof.
  exact (proj1 (access_control_sync_takes_a_connection quiet_env fresh_world)
           rbac AccessControl.express_app None eq_refl).
Defined.

Lemma column_literals_run entries : forall w,
  exists body w1,
    AccessControl.column_literals entries w = (Return body, w1)
    /\ w1 = set_cols (fun l => l ++ (new_object <$> entries.*2)) w
    /\ stops_at w1 body = (body, None)
    /\ columns_of w1 body = entries.
Proof.
  induction entries as [| [key val] entries IH]; intros w.
  - exists [], w. split; [done |]. split; [| done].
    symmetry. apply set_cols_id. cbn. by rewrite app_nil_r.
  - cbn [AccessControl.column_literals]. unfold bind at 1. unfold Db.alloc_col.
    set (wa := set_cols (fun l => l ++ [new_object val]) w).
    destruct (IH wa) as (body & w1 & Hrun & Hw1 & Hstops & Hcols).
    exists ((key, length (cols w)) :: body), w1.
    unfold bind. rewrite Hrun. split; [done |].
    assert (column_at w1 (length (cols w)) = new_object val) as Hat.
    { unfold column_at. rewrite Hw1. cbn [cols set_cols wa].
      rewrite lookup_app_l by (rewrite length_app; cbn; lia).
      by rewrite list_lookup_middle. }
    split; [| split].
    + rewrite Hw1. subst wa. destruct w. unfold set_cols. cbn.
      by rewrite <- app_assoc.
    + cbn [stops_at snd]. rewrite Hat, Hstops. done.
    + unfold columns_of in *. rewrite fmap_cons, Hcols. cbn [fst snd].
      by rewrite Hat.
Qed.

Lemma settled_length entries : forall w,
  length (cols (settled entries w)) = length (cols w).
Proof.
  induction entries as [| entry entries IH]; intros w;
    [by rewrite settled_nil |].
  rewrite settled_cons, IH. cbn [cols set_cols]. by rewrite length_alter.
Qed.

(** X18. The constructors of [RoleBase] and [AttributeBase] never throw.
    Each makes the column objects of its table and defines the table in
    the schema public: its primary key is the SERIAL column rbac_id
    (abac_id), its CREATE TABLE statement goes to the end of the create
    bucket of public; public becomes the current schema of the script and
    the probe of the table is added to [syncScripts]; nothing is sent or
    printed. *)
Theorem access_control_registers_its_tables :
  forall w,
    (forall roleFromReq options,
       let tableName :=
         default "rbac_table" (options ≫= AccessControl.RoleBaseOptions.tableName) in
       exists self w',
         AccessControl.RoleBase.new roleFromReq options w = (Return self, w')
         /\ AccessControl.RoleBase.model self
            = Db.Model.mk tableName "public" (Some "rbac_id") false
         /\ schema (script w') = "public"
         /\ bucket_at (folder (script w')) Qcreate "public"
            = Some (bucket_before (script w) Qcreate "public"
                    ++ ["CREATE TABLE IF NOT EXISTS public." +:+ tableName +:+
                        " (rbac_id SERIAL PRIMARY KEY, role_name TEXT NOT NULL, route TEXT NOT NULL, can_post BOOLEAN NOT NULL DEFAULT TRUE, can_get BOOLEAN NOT NULL DEFAULT TRUE, can_patch BOOLEAN NOT NULL DEFAULT TRUE, can_put BOOLEAN NOT NULL DEFAULT TRUE, can_delete BOOLEAN NOT NULL DEFAULT TRUE);"])
         /\ syncScripts w'
            = syncScripts w
              ++ ["SELECT rbac_id, role_name, route, can_post, can_get, can_patch, can_put, can_delete FROM public."
                  +:+ tableName +:+ ";"]
         /\ length (cols w') = (length (cols w) + 8)%nat
         /\ offline w w')
    /\ (forall options,
          let tableName :=
            default "abac_table"
              (options ≫= AccessControl.AttributeBaseOptions.tableName) in
          exists self w',
            AccessControl.AttributeBase.new options w = (Return self, w')
            /\ AccessControl.AttributeBase.model self
               = Db.Model.mk tableName "public" (Some "abac_id") false
            /\ AccessControl.AttributeBase.attributesHandlers self = []
            /\ schema (script w') = "public"
            /\ bucket_at (folder (script w')) Qcreate "public"
               = Some (bucket_before (script w) Qcreate "public"
                       ++ ["CREATE TABLE IF NOT EXISTS public." +:+ tableName +:+
                           " (abac_id SERIAL PRIMARY KEY, attribute_name TEXT NOT NULL, route TEXT NOT NULL, check_post BOOLEAN NOT NULL DEFAULT FALSE, check_get BOOLEAN NOT NULL DEFAULT FALSE, check_patch BOOLEAN NOT NULL DEFAULT FALSE, check_put BOOLEAN NOT NULL DEFAULT FALSE, check_delete BOOLEAN NOT NULL DEFAULT FALSE);"])
            /\ syncScripts w'
               = syncScripts w
                 ++ ["SELECT abac_id, attribute_name, route, check_post, check_get, check_patch, check_put, check_delete FROM public."
                     +:+ tableName +:+ ";"]
            /\ length (cols w') = (length (cols w) + 8)%nat
            /\ offline w w').
Proof.
  intros w. split.
  - intros roleFromReq options tableName.
    unfold AccessControl.RoleBase.new. fold tableName. unfold bind at 1.
    match goal with
    | |- context [AccessControl.column_literals ?entries w] =>
        destruct (column_literals_run entries w)
          as (body & w1 & -> & Hw1 & Hstops & Hcols)
    end.
    destruct (define_run tableName body None w1 public_not_inherited)
      as (sc & Hschema & _ & Hrun).
    rewrite Hstops, Hcols in Hrun. destruct Hrun as [Hrun Hnew].
    unfold bind. rewrite Hrun.
    eexists _, _. split; [done |].
    cbn [script syncScripts set_script set_syncScripts cols
           AccessControl.RoleBase.model].
    rewrite Hnew, settled_length, Hw1. split; [done |]. split; [done |].
    split; [done |]. split; [done |]. split; [| done].
    cbn [cols set_cols]. by rewrite length_app.
  - intros options tableName.
    unfold AccessControl.AttributeBase.new. fold tableName. unfold bind at 1.
    match goal with
    | |- context [AccessControl.column_literals ?entries w] =>
        destruct (column_literals_run entries w)
          as (body & w1 & -> & Hw1 & Hstops & Hcols)
    end.
    destruct (define_run tableName body None w1 public_not_inherited)
      as (sc & Hschema & _ & Hrun).
    rewrite Hstops, Hcols in Hrun. destruct Hrun as [Hrun Hnew].
    unfold bind. rewrite Hrun.
    eexists _, _. split; [done |].
    cbn [script syncScripts set_script set_syncScripts cols
           AccessControl.AttributeBase.model
           AccessControl.AttributeBase.attributesHandlers].
    rewrite Hnew, settled_length, Hw1. split; [done |]. split; [done |].
    split; [done |]. split; [done |]. split; [done |]. split; [| done].
    cbn [cols set_cols]. by rewrite length_app.
Qed.
